(** * Numerical differentiation (scipy/optimize/_numdiff.py)

    A shallow embedding of the finite-difference routines of
    [scipy.optimize._numdiff] and the properties of its step planner,
    column grouper, differencers and derivative checker.

    Numbers.  The source computes on binary64 arrays.  Two embeddings of
    its numbers are used.

    - The main one keeps the special values of the format (the two
      infinities and NaN, with their comparison and arithmetic rules) and
      replaces the finite values by exact rationals in canonical form
      ([Qc]): every finite operation is carried out without rounding, and
      the sign of zero is not tracked.  It carries the statements on
      control flow, shapes, calls, errors and on the formulas computed;
      a statement that depends on the value of a finite operation is a
      statement about the algorithm in exact arithmetic.

    - [Binary64] evaluates the step planner on binary64 numbers
      themselves (rounding to nearest, ties to even).  It settles what
      rounding decides: whether a step that was clamped to the distance
      to a bound leads to a point inside the bounds. *)

From Stdlib Require Import Floats.
From Stdlib Require Import String.
From Stdlib Require Import List Bool Arith ZArith QArith Qcanon Qcabs Lqa Lia.
From Stdlib Require Import Permutation.
Import ListNotations.

Set Implicit Arguments.
Close Scope Qc_scope.
Close Scope Q_scope.
Open Scope list_scope.

(* ================================================================== *)
(** * Extended reals: the values of an array cell *)
(* ================================================================== *)

Module Xr.

Inductive xreal : Type :=
| NaN
| NInf
| Fin (q : Qc)
| PInf.

Definition of_Z (z : Z) : xreal := Fin (Q2Qc (inject_Z z)).
Definition of_Q (q : Q) : xreal := Fin (Q2Qc q).

Definition is_finite (a : xreal) : bool :=
  match a with Fin _ => true | _ => false end.

Definition is_nan (a : xreal) : bool :=
  match a with NaN => true | _ => false end.

(** Sign of a value as a comparison with zero ([Eq] for zero and NaN). *)
Definition sgn (a : xreal) : comparison :=
  match a with
  | NaN => Eq
  | NInf => Lt
  | Fin q => (q ?= 0)%Qc
  | PInf => Gt
  end.

Definition sgn_mul (c d : comparison) : comparison :=
  match c, d with
  | Eq, _ | _, Eq => Eq
  | Lt, Lt | Gt, Gt => Gt
  | Lt, Gt | Gt, Lt => Lt
  end.

(** The infinity of a given sign; an undetermined sign gives NaN. *)
Definition inf_of (c : comparison) : xreal :=
  match c with Lt => NInf | Eq => NaN | Gt => PInf end.

Definition opp (a : xreal) : xreal :=
  match a with
  | NaN => NaN
  | NInf => PInf
  | Fin q => Fin (- q)%Qc
  | PInf => NInf
  end.

Definition add (a b : xreal) : xreal :=
  match a, b with
  | NaN, _ | _, NaN => NaN
  | PInf, NInf | NInf, PInf => NaN
  | PInf, _ | _, PInf => PInf
  | NInf, _ | _, NInf => NInf
  | Fin x, Fin y => Fin (x + y)%Qc
  end.

Definition sub (a b : xreal) : xreal := add a (opp b).

Definition mul (a b : xreal) : xreal :=
  match a, b with
  | NaN, _ | _, NaN => NaN
  | Fin x, Fin y => Fin (x * y)%Qc
  | _, _ => inf_of (sgn_mul (sgn a) (sgn b))
  end.

(** Division follows the IEEE rules: [x/0] is an infinity of the sign of
    [x] (the zero divisor is taken as positive), [0/0] and [inf/inf] are
    NaN, and a finite value over an infinity is zero. *)
Definition div (a b : xreal) : xreal :=
  match a, b with
  | NaN, _ | _, NaN => NaN
  | Fin x, Fin y =>
      match (y ?= 0)%Qc with
      | Eq => inf_of (sgn a)
      | _ => Fin (x / y)%Qc
      end
  | Fin _, _ => Fin 0%Qc
  | _, Fin y =>
      inf_of (sgn_mul (sgn a) (match (y ?= 0)%Qc with Eq => Gt | c => c end))
  | _, _ => NaN
  end.

Definition abs (a : xreal) : xreal :=
  match a with
  | NaN => NaN
  | NInf | PInf => PInf
  | Fin q => Fin (Qcabs q)
  end.

(** Ordering: [None] when one side is NaN (every comparison is then false). *)
Definition compare (a b : xreal) : option comparison :=
  match a, b with
  | NaN, _ | _, NaN => None
  | NInf, NInf | PInf, PInf => Some Eq
  | NInf, _ | _, PInf => Some Lt
  | PInf, _ | _, NInf => Some Gt
  | Fin x, Fin y => Some (x ?= y)%Qc
  end.

Definition leb (a b : xreal) : bool :=
  match compare a b with Some Lt | Some Eq => true | _ => false end.
Definition ltb (a b : xreal) : bool :=
  match compare a b with Some Lt => true | _ => false end.
Definition geb (a b : xreal) : bool := leb b a.
Definition gtb (a b : xreal) : bool := ltb b a.
Definition eqb (a b : xreal) : bool :=
  match compare a b with Some Eq => true | _ => false end.
Definition neb (a b : xreal) : bool := negb (eqb a b).

(** [np.maximum] and [np.minimum] propagate NaN. *)
Definition maximum (a b : xreal) : xreal :=
  match a, b with
  | NaN, _ | _, NaN => NaN
  | _, _ => if leb a b then b else a
  end.

Definition minimum (a b : xreal) : xreal :=
  match a, b with
  | NaN, _ | _, NaN => NaN
  | _, _ => if leb a b then a else b
  end.

End Xr.

Export Xr.

Declare Scope xr_scope.
Delimit Scope xr_scope with X.
Bind Scope xr_scope with xreal.
Infix "+" := Xr.add : xr_scope.
Infix "-" := Xr.sub : xr_scope.
Infix "*" := Xr.mul : xr_scope.
Infix "/" := Xr.div : xr_scope.
Notation "- x" := (Xr.opp x) : xr_scope.
Infix "<=?" := Xr.leb (at level 70) : xr_scope.
Infix "<?" := Xr.ltb (at level 70) : xr_scope.
Infix ">=?" := Xr.geb (at level 70) : xr_scope.
Infix ">?" := Xr.gtb (at level 70) : xr_scope.
Infix "==?" := Xr.eqb (at level 70) : xr_scope.

(* ================================================================== *)
(** * Arrays, masks and exceptions *)
(* ================================================================== *)

(** One-dimensional float arrays and boolean masks. *)
Definition vec := list xreal.
Definition mask := list bool.

(** The exceptions the module can raise or let through.  [Unmodelled] is
    not an exception of the source: it marks an input whose shapes this
    embedding does not follow (stated where it is used). *)
Inductive exn : Type :=
| ValueError (msg : string)
| RuntimeError (msg : string)
| IndexError
| UnboundLocalError
| UserError (tag : string)
| Unmodelled.

Inductive result (A : Type) : Type :=
| Ok (a : A)
| Raise (e : exn).
Arguments Ok {A} a.
Arguments Raise {A} e.

Definition bind {A B} (r : result A) (k : A -> result B) : result B :=
  match r with
  | Ok a => k a
  | Raise e => Raise e
  end.

Module Np.

(** Elementwise operations on arrays of one shape.  (The callers below
    establish equal shapes before any of these is used.) *)
Definition zip_with {A B C} (f : A -> B -> C) (a : list A) (b : list B)
  : list C :=
  map (fun p => f (fst p) (snd p)) (combine a b).

(** [where m a b]: the array [b] after the masked assignment
    [b[m] = a[m]]. *)
Definition where_ {A} (m : mask) (a b : list A) : list A :=
  zip_with (fun (c : bool) (p : A * A) => if c then fst p else snd p)
           m (combine a b).

Definition all (m : mask) : bool := forallb (fun b => b) m.
Definition any (m : mask) : bool := existsb (fun b => b) m.

Definition ones_like_bool {A} (a : list A) : mask := map (fun _ => true) a.
Definition zeros_like_bool {A} (a : list A) : mask := map (fun _ => false) a.
Definition zeros (n : nat) : vec := repeat (Fin 0%Qc) n.

(** [np.max] of a flat array: fails on an empty array, propagates NaN. *)
Definition max (a : vec) : result xreal :=
  match a with
  | [] => Raise (ValueError "zero-size array to reduction operation maximum which has no identity")
  | x :: t => Ok (fold_left Xr.maximum t x)
  end.

End Np.

Declare Scope vec_scope.
Delimit Scope vec_scope with V.
Infix "+" := (Np.zip_with Xr.add) : vec_scope.
Infix "-" := (Np.zip_with Xr.sub) : vec_scope.
Infix "*" := (Np.zip_with Xr.mul) : vec_scope.
Infix "/" := (Np.zip_with Xr.div) : vec_scope.
Infix "<=?" := (Np.zip_with Xr.leb) (at level 70) : vec_scope.
Infix "<?" := (Np.zip_with Xr.ltb) (at level 70) : vec_scope.
Infix ">=?" := (Np.zip_with Xr.geb) (at level 70) : vec_scope.
Infix ">?" := (Np.zip_with Xr.gtb) (at level 70) : vec_scope.
Infix "&" := (Np.zip_with andb) (at level 40, left associativity) : vec_scope.
Infix "|||" := (Np.zip_with orb) (at level 50, left associativity) : vec_scope.
(** Array against scalar. *)
Notation "a *^ s" := (map (fun x => Xr.mul x s) a) (at level 40, left associativity) : vec_scope.
Notation "a /^ s" := (map (fun x => Xr.div x s) a) (at level 40, left associativity) : vec_scope.
Notation "s ^* a" := (map (fun x => Xr.mul s x) a) (at level 40, left associativity) : vec_scope.
Notation "a ==^ s" := (map (fun x => Xr.eqb x s) a) (at level 70) : vec_scope.

Definition vnot (m : mask) : mask := map negb m.
Definition vabs (a : vec) : vec := map Xr.abs a.
Definition vopp (a : vec) : vec := map Xr.opp a.
Definition vmaximum (a b : vec) : vec := Np.zip_with Xr.maximum a b.
Definition vminimum (a b : vec) : vec := Np.zip_with Xr.minimum a b.

Definition half : xreal := of_Q (1 # 2).
Definition minus_one : xreal := of_Z (-1).

(* ================================================================== *)
(** * The step planner *)
(* ================================================================== *)

Open Scope string_scope.
Open Scope list_scope.

(** [_adjust_scheme_to_bounds(x0, h, num_steps, scheme, lb, ub)]. *)
Definition _adjust_scheme_to_bounds
  (x0 h : vec) (num_steps : Z) (scheme : string) (lb ub : vec)
  : result (vec * mask) :=
  let n_steps := of_Z num_steps in
  bind (if scheme =? "1-sided" then Ok (h, Np.ones_like_bool h)
        else if scheme =? "2-sided" then
          let h := vabs h in Ok (h, Np.zeros_like_bool h)
        else Raise (ValueError "`scheme` must be '1-sided' or '2-sided'."))
  (fun '(h, use_one_sided) =>
  if Np.all ((lb ==^ NInf) & (ub ==^ PInf))%V then Ok (h, use_one_sided)
  else
    let h_total := (h *^ n_steps)%V in
    let h_adjusted := h in
    let lower_dist := (x0 - lb)%V in
    let upper_dist := (ub - x0)%V in
    if scheme =? "1-sided" then
      let x := (x0 + h_total)%V in
      let violated := ((x <? lb) ||| (x >? ub))%V in
      let fitting := (vabs h_total <=? vmaximum lower_dist upper_dist)%V in
      let h_adjusted :=
        Np.where_ (violated & fitting)%V (h_adjusted *^ minus_one)%V
                  h_adjusted in
      let forward := ((upper_dist >=? lower_dist) & vnot fitting)%V in
      let h_adjusted :=
        Np.where_ forward (upper_dist /^ n_steps)%V h_adjusted in
      let backward := ((upper_dist <? lower_dist) & vnot fitting)%V in
      let h_adjusted :=
        Np.where_ backward (vopp lower_dist /^ n_steps)%V h_adjusted in
      Ok (h_adjusted, use_one_sided)
    else (* scheme == '2-sided' *)
      let central :=
        ((lower_dist >=? h_total) & (upper_dist >=? h_total))%V in
      let forward := ((upper_dist >=? lower_dist) & vnot central)%V in
      let h_adjusted :=
        Np.where_ forward
          (vminimum h (half ^* upper_dist /^ n_steps)%V) h_adjusted in
      let use_one_sided :=
        Np.where_ forward (Np.ones_like_bool h) use_one_sided in
      let backward := ((upper_dist <? lower_dist) & vnot central)%V in
      let h_adjusted :=
        Np.where_ backward
          (vopp (vminimum h (half ^* lower_dist /^ n_steps)%V)) h_adjusted in
      let use_one_sided :=
        Np.where_ backward (Np.ones_like_bool h) use_one_sided in
      let min_dist := (vminimum upper_dist lower_dist /^ n_steps)%V in
      let adjusted_central :=
        (vnot central & (vabs h_adjusted <=? min_dist))%V in
      let h_adjusted := Np.where_ adjusted_central min_dist h_adjusted in
      let use_one_sided :=
        Np.where_ adjusted_central (Np.zeros_like_bool h) use_one_sided in
      Ok (h_adjusted, use_one_sided)).

(* ================================================================== *)
(** * Two-dimensional arrays, sparse matrices and array-likes *)
(* ================================================================== *)

(** A two-dimensional array of shape [(n_rows, n_cols)]; [cell i j] is
    read only for [i < n_rows] and [j < n_cols]. *)
Record matrix (T : Type) : Type := Matrix {
  n_rows : nat;
  n_cols : nat;
  cell : nat -> nat -> T
}.
Arguments Matrix {T} _ _ _.

Definition of_rows {T} (d : T) (m n : nat) (rows : list (list T)) : matrix T :=
  Matrix m n (fun i j => nth j (nth i rows []) d).

Definition row_of {T} (M : matrix T) (i : nat) : list T :=
  map (cell M i) (seq 0 (n_cols M)).

Definition to_rows {T} (M : matrix T) : list (list T) :=
  map (row_of M) (seq 0 (n_rows M)).

(** A sparse matrix: a cell is [None] where no entry is stored and
    [Some v] where the value [v] is stored (a stored value may be zero).
    The storage layout (CSR, CSC, LIL, COO) is not represented. *)
Definition smatrix := matrix (option xreal).

Definition value (c : option xreal) : xreal :=
  match c with Some v => v | None => Fin 0%Qc end.

(** [v != 0] on floats: true for NaN. *)
Definition nonzero (v : xreal) : bool := negb (v ==? Fin 0%Qc)%X.

(** What a caller may pass where the source says [array_like] for a
    point, a bound, [f0], or what the user function returns.  For arrays
    of two or more dimensions only the number of dimensions is kept: the
    source rejects them wherever they can occur. *)
Inductive array_like : Type :=
| Scalar (x : xreal)
| Arr1 (v : vec)
| ArrND (ndim_minus_2 : nat).

Definition ndim (a : array_like) : nat :=
  match a with
  | Scalar _ => 0
  | Arr1 _ => 1
  | ArrND k => 2 + k
  end.

Definition atleast_1d (a : array_like) : array_like :=
  match a with
  | Scalar x => Arr1 [x]
  | _ => a
  end.

(* ================================================================== *)
(** * Calls to the user function *)
(* ================================================================== *)

(** A computation that may call the user function: it is run from the
    list of points at which the function has been evaluated so far and
    returns that list extended, with its result or the exception that
    ended it. *)
Definition M (A : Type) : Type := list vec -> list vec * result A.

Definition ret {A} (a : A) : M A := fun tr => (tr, Ok a).
Definition raise {A} (e : exn) : M A := fun tr => (tr, Raise e).
Definition lift {A} (r : result A) : M A := fun tr => (tr, r).
Definition mbind {A B} (c : M A) (k : A -> M B) : M B :=
  fun tr =>
    match c tr with
    | (tr', Ok a) => k a tr'
    | (tr', Raise e) => (tr', Raise e)
    end.

(** The user function: array in, array-like or exception out. *)
Definition user_fun := vec -> result array_like.

Definition call (f : user_fun) (x : vec) : M array_like :=
  fun tr => (tr ++ [x], f x).

Declare Scope m_scope.
Delimit Scope m_scope with M.
Notation "x <- c ;; k" := (mbind c (fun x => k))
  (at level 61, c at next level, right associativity) : m_scope.
Notation "' p <- c ;; k" := (mbind c (fun p => k))
  (at level 61, p pattern, c at next level, right associativity) : m_scope.

Fixpoint mapM {A B} (f : A -> M B) (l : list A) : M (list B) :=
  match l with
  | [] => ret []
  | a :: t => (b <- f a ;; bs <- mapM f t ;; ret (b :: bs))%M
  end.

Fixpoint foldM {A B} (f : B -> A -> M B) (l : list A) (b : B) : M B :=
  match l with
  | [] => ret b
  | a :: t => (b' <- f b a ;; foldM f t b')%M
  end.

(** Calls made by a computation started with no call made yet. *)
Definition calls {A} (c : M A) : list vec := fst (c []).
Definition outcome {A} (c : M A) : result A := snd (c []).

Module NpB.

(** Elementwise operation on two one-dimensional arrays with numpy's
    broadcasting: equal lengths pair up, a length-one operand is
    stretched, anything else is an error. *)
Definition broadcast {A} (f : A -> A -> A) (a b : list A) : result (list A) :=
  if (length a =? length b)%nat then Ok (Np.zip_with f a b)
  else match a, b with
       | [x], _ => Ok (map (f x) b)
       | _, [y] => Ok (map (fun x => f x y) a)
       | _, _ => Raise (ValueError "operands could not be broadcast together")
       end.

(** Assignment of a one-dimensional value to a row of [m] cells. *)
Definition broadcast_to (m : nat) (a : vec) : result vec :=
  if (length a =? m)%nat then Ok a
  else match a with
       | [x] => Ok (repeat x m)
       | _ => Raise (ValueError "could not broadcast input array")
       end.

(** [np.max] of an integer array. *)
Definition max_int (a : list nat) : result nat :=
  match a with
  | [] => Raise (ValueError "zero-size array to reduction operation maximum which has no identity")
  | x :: t => Ok (fold_left Nat.max t x)
  end.

(** [np.where(e)] for a mask: the indices that are set. *)
Definition where_true (e : mask) : list nat :=
  map fst (filter snd (combine (seq 0 (length e)) e)).

(** [np.diag(h)[i]]. *)
Definition diag_row (h : vec) (i : nat) : vec :=
  map (fun k => if (k =? i)%nat then nth i h NaN else Fin 0%Qc) (seq 0 (length h)).

(** [a[idx] = v] on a one-dimensional array. *)
Fixpoint set_nth {A} (a : list A) (idx : nat) (v : A) : list A :=
  match a, idx with
  | [], _ => []
  | _ :: t, O => v :: t
  | x :: t, S k => x :: set_nth t k v
  end.

End NpB.

(* ================================================================== *)
(** * Step sizes and bounds *)
(* ================================================================== *)

(** [EPS = np.finfo(np.float64).eps], that is 2^-52. *)
Definition EPS : xreal := of_Q (1 # (2 ^ 52)).

Definition one : xreal := of_Z 1.
Definition two : xreal := of_Z 2.
Definition three : xreal := of_Z 3.
Definition four : xreal := of_Z 4.
Definition zero : xreal := Fin 0%Qc.

(** [b.astype(float)] for a boolean. *)
Definition astype_float (b : bool) : xreal := if b then one else zero.

Section Numdiff.

(** The power function [**] of the float type; its results for the two
    exponents used below are irrational, so it is left as a parameter. *)
Variable float_pow : xreal -> xreal -> xreal.

(** The permutation [np.random.shuffle] leaves in the array it is given. *)
Variable shuffle : list nat -> list nat.

(** [_compute_absolute_step(rel_step, x0, method)].  A [rel_step] array
    is taken with numpy's broadcasting against [x0]. *)
Definition _compute_absolute_step
  (rel_step : option vec) (x0 : vec) (method : string) : result vec :=
  bind (match rel_step with
        | None =>
            if method =? "2-point" then Ok [float_pow EPS half]
            else if method =? "3-point" then Ok [float_pow EPS (one / three)%X]
            else Raise (ValueError "`method` must be '2-point' or '3-point'.")
        | Some r => Ok r
        end)
  (fun rel_step =>
     let sign_x0 :=
       map (fun b => (astype_float b * two - one)%X)
           (map (fun x => x >=? zero)%X x0) in
     bind (NpB.broadcast Xr.mul rel_step sign_x0) (fun rs =>
     NpB.broadcast Xr.mul rs (map (Xr.maximum one) (vabs x0)))).

(** [_prepare_bounds(bounds, x0)] for a one-dimensional [x0]. *)
Definition _prepare_bounds (bounds : array_like * array_like) (x0 : vec)
  : array_like * array_like :=
  let resize b :=
    match b with
    | Scalar x => Arr1 (repeat x (length x0))
    | _ => b
    end in
  (resize (fst bounds), resize (snd bounds)).

(* ------------------------------------------------------------------ *)
(** ** Column grouping *)

(** The matrix argument of [group_columns] after [np.atleast_2d]: a dense
    array of two dimensions, a sparse matrix, or an array of three or
    more dimensions (of which only the number of dimensions matters). *)
Inductive matrix_like : Type :=
| DenseM (A : matrix xreal)
| SparseM (A : smatrix)
| HigherM (ndim_minus_3 : nat).

Definition issparse (A : matrix_like) : bool :=
  match A with SparseM _ => true | _ => false end.

(** Lowest group id, starting the search at [g], that does not occur in
    [used]; [fuel] bounds the number of ids that can be skipped. *)
Fixpoint lowest_absent (fuel g : nat) (used : list nat) : nat :=
  match fuel with
  | O => g
  | S fuel' =>
      if existsb (Nat.eqb g) used then lowest_absent fuel' (S g) used else g
  end.

(** Greedy sequential colouring of columns [0 .. n-1]: each column, in
    order, takes the lowest group id not used by an earlier column that
    conflicts with it. *)
Definition greedy_step (conflict : nat -> nat -> bool)
  (groups : list nat) (j : nat) : list nat :=
  let used :=
    map snd (filter (fun kg => conflict (fst kg) j)
                    (combine (seq 0 j) groups)) in
  groups ++ [lowest_absent (length used) 0 used].

Definition greedy_groups (conflict : nat -> nat -> bool) (n : nat)
  : list nat :=
  fold_left (greedy_step conflict) (seq 0 n) [].

(** Modelled from the spec: [group_dense(m, n, A)] of the compiled module
    [_group_columns], whose source is not at hand.  The spec describes it
    as a greedy sequential colouring: columns are scanned in order and
    each is assigned the lowest group id not yet used by a previously
    assigned column sharing a nonzero row with it.  [A] is the 0/1
    integer pattern. *)
Definition group_dense (m n : nat) (A : matrix Z) : list nat :=
  greedy_groups
    (fun k j => existsb (fun r => negb (cell A r k =? 0)%Z
                                  && negb (cell A r j =? 0)%Z)
                        (seq 0 m)) n.

(** Modelled from the spec: [group_sparse(m, n, indices, indptr)] of the
    same module, the sparse code path of the same colouring.  The
    compressed-column arrays are given by what they encode: for each
    column, the row indices of its stored entries
    ([indices[indptr[j]:indptr[j+1]]]). *)
Definition group_sparse (m n : nat) (columns : list (list nat)) : list nat :=
  greedy_groups
    (fun k j => existsb (fun r => existsb (Nat.eqb r) (nth j columns []))
                        (nth k columns [])) n.

(** [A[:, order]]: an index beyond the last column is an [IndexError]. *)
Definition take_columns {T} (A : matrix T) (order : list nat)
  : result (matrix T) :=
  if forallb (fun c => c <? n_cols A)%nat order
  then Ok (Matrix (n_rows A) (length order)
                  (fun r k => cell A r (nth k order O)))
  else Raise IndexError.

(** Row indices of the stored entries of each column of a sparse matrix. *)
Definition csc_columns (A : smatrix) : list (list nat) :=
  map (fun j => filter (fun r => match cell A r j with
                                 | Some _ => true
                                 | None => false
                                 end) (seq 0 (n_rows A)))
      (seq 0 (n_cols A)).

(** [(A != 0).astype(np.int32)]. *)
Definition pattern_int32 (A : matrix xreal) : matrix Z :=
  Matrix (n_rows A) (n_cols A)
         (fun r c => if nonzero (cell A r c) then 1%Z else 0%Z).

(** [groups[order] = values], pairwise and in sequence. *)
Definition scatter {T} (groups : list T) (order : list nat) (values : list T)
  : list T :=
  fold_left (fun acc ov => NpB.set_nth acc (fst ov) (snd ov))
            (combine order values) groups.

(** [group_columns(A, order=None)].  The kernels are called with the
    column count of [A]; an [order] of another length hands them a matrix
    of another shape, which is [Unmodelled]. *)
Definition group_columns (A : matrix_like) (order : option (list nat))
  : result (list nat) :=
  match A with
  | HigherM _ => Raise (ValueError "`A` must be 2-dimensional.")
  | SparseM A =>
      let m := n_rows A in
      let n := n_cols A in
      let order := match order with
                   | None => shuffle (seq 0 n)
                   | Some o => o
                   end in
      bind (take_columns A order) (fun A =>
      if negb (length order =? n)%nat then Raise Unmodelled else
      let groups := group_sparse m n (csc_columns A) in
      Ok (scatter groups order groups))
  | DenseM A =>
      let A := pattern_int32 A in
      let m := n_rows A in
      let n := n_cols A in
      let order := match order with
                   | None => shuffle (seq 0 n)
                   | Some o => o
                   end in
      bind (take_columns A order) (fun A =>
      if negb (length order =? n)%nat then Raise Unmodelled else
      let groups := group_dense m n A in
      Ok (scatter groups order groups))
  end.

(* ------------------------------------------------------------------ *)
(** ** The differencers *)

(** What [approx_derivative] returns: a gradient of shape [(n,)] (dense
    differencing with [m = 1]), a dense [(m, n)] array, or a sparse
    [(m, n)] matrix. *)
Inductive jacobian : Type :=
| JVec (v : vec)
| JDense (J : matrix xreal)
| JSparse (J : smatrix).

(** [one_as_vec x / dx] and the like: array against scalar. *)
Definition vadd_b := NpB.broadcast Xr.add.
Definition vsub_b := NpB.broadcast Xr.sub.

(** [a[i]] for an index [i >= 0] of a one-dimensional array: an
    [IndexError] beyond its end. *)
Definition getitem {T} (a : list T) (i : nat) : result T :=
  match nth_error a i with
  | Some v => Ok v
  | None => Raise IndexError
  end.

(** The body of the loop [for i in range(h.size)] of
    [_dense_difference]: the row [J_transposed[i] = df / dx].  The method
    '2-point' does not read the mask; with '3-point' both [elif] tests
    read [use_one_sided[i]], the second the value the first has read. *)
Definition _dense_difference_step (fun_ : vec -> M vec) (x0 f0 h : vec)
  (use_one_sided : mask) (method : string) (i : nat) : M vec :=
  let m := length f0 in
  let h_vecs := NpB.diag_row h in
  (' (df, dx) <-
     (if method =? "2-point" then
        let x := (x0 + h_vecs i)%V in
        let dx := (nth i x NaN - nth i x0 NaN)%X in
        fx <- fun_ x ;;
        df <- lift (vsub_b fx f0) ;;
        ret (df, dx)
      else if method =? "3-point" then
        one_sided <- lift (getitem use_one_sided i) ;;
        if one_sided then
          let x1 := (x0 + h_vecs i)%V in
          let x2 := (x0 + two ^* h_vecs i)%V in
          let dx := (nth i x2 NaN - nth i x0 NaN)%X in
          f1 <- fun_ x1 ;;
          f2 <- fun_ x2 ;;
          a <- lift (vadd_b (of_Z (-3) ^* f0)%V (four ^* f1)%V) ;;
          df <- lift (vsub_b a f2) ;;
          ret (df, dx)
        else
          let x1 := (x0 - h_vecs i)%V in
          let x2 := (x0 + h_vecs i)%V in
          let dx := (nth i x2 NaN - nth i x1 NaN)%X in
          f1 <- fun_ x1 ;;
          f2 <- fun_ x2 ;;
          df <- lift (vsub_b f2 f1) ;;
          ret (df, dx)
      else raise UnboundLocalError) ;;
   lift (NpB.broadcast_to m (df /^ dx)%V))%M.

(** [_dense_difference(fun, x0, f0, h, use_one_sided, method)].  Row [i]
    of the buffer [J_transposed] is written by iteration [i] and by no
    other, so the buffer is the list of the rows in iteration order. *)
Definition _dense_difference (fun_ : vec -> M vec) (x0 f0 h : vec)
  (use_one_sided : mask) (method : string) : M jacobian :=
  let m := length f0 in
  let n := length x0 in
  (J_transposed <-
     mapM (_dense_difference_step fun_ x0 f0 h use_one_sided method)
          (seq 0 (length h)) ;;
   if (m =? 1)%nat
   then ret (JVec (concat J_transposed))
   else ret (JDense (Matrix m n
                       (fun i j => nth i (nth j J_transposed []) NaN))))%M.

(** The structure argument as a grid of values: a cell without a stored
    entry reads as zero. *)
Definition values_of (S : smatrix) : matrix xreal :=
  Matrix (n_rows S) (n_cols S) (fun r c => value (cell S r c)).

(** [find(structure[:, cols])]: the (row, position in [cols]) pairs of the
    nonzero values, row by row; a column index beyond the structure is an
    [IndexError]. *)
Definition find_columns (structure : matrix xreal) (cols : list nat)
  : result (list (nat * nat)) :=
  bind (take_columns structure cols) (fun A =>
  Ok (filter (fun ij => nonzero (cell A (fst ij) (snd ij)))
             (list_prod (seq 0 (n_rows A)) (seq 0 (n_cols A))))).

(** [a[idx]] for an index array. *)
Definition take {T} (a : list T) (idx : list nat) : result (list T) :=
  fold_right (fun k acc =>
                bind acc (fun t =>
                match nth_error a k with
                | Some v => Ok (v :: t)
                | None => Raise IndexError
                end)) (Ok []) idx.

(** [a[idx] = values] for an index array, in sequence. *)
Definition put {T} (a : list T) (idx : list nat) (values : list T)
  : result (list T) :=
  if forallb (fun k => k <? length a)%nat idx
  then Ok (scatter a idx values)
  else Raise IndexError.

(** What [J[i, j] = v] leaves in a cell of a list-of-lists matrix: a zero
    value leaves no stored entry. *)
Definition stored (v : xreal) : option xreal :=
  if nonzero v then Some v else None.

(** [J[i, j] = v] on the list-of-lists matrix under construction. *)
Definition lil_set (J : smatrix) (i j : nat) (v : xreal) : result smatrix :=
  if (i <? n_rows J)%nat && (j <? n_cols J)%nat
  then Ok (Matrix (n_rows J) (n_cols J)
             (fun r c => if (r =? i)%nat && (c =? j)%nat
                         then stored v
                         else cell J r c))
  else Raise IndexError.

Definition lil_set_all (J : smatrix) (ijv : list (nat * nat * xreal))
  : result smatrix :=
  fold_left (fun acc e => bind acc (fun J =>
               lil_set J (fst (fst e)) (snd (fst e)) (snd e)))
            ijv (Ok J).

Definition mask_select {T} (m : mask) (a : list T) : list T :=
  map snd (filter fst (combine m a)).

(** The content of a fresh [np.empty] buffer: not determined by the
    source; every cell read below has been written first. *)
Definition uninitialised : xreal := NaN.

(** The body of the loop [for group in range(n_groups)] of
    [_sparse_difference], from the matrix [J] built so far to the matrix
    after [J[i, j] = df[i] / dx[j]]. *)
Definition _sparse_difference_step (fun_ : vec -> M vec) (x0 f0 h : vec)
  (use_one_sided : mask) (structure : matrix xreal) (groups : list nat)
  (method : string) (J : smatrix) (group : nat) : M smatrix :=
  let m := length f0 in
  let n := length x0 in
  let e := map (Nat.eqb group) groups in
  let h_vec := (h * map astype_float e)%V in
  (' (i, j, df, dx) <-
     (if method =? "2-point" then
        let x := (x0 + h_vec)%V in
        let dx := (x - x0)%V in
        fx <- fun_ x ;;
        df <- lift (vsub_b fx f0) ;;
        let cols := NpB.where_true e in
        ij <- lift (find_columns structure cols) ;;
        let i := map fst ij in
        j <- lift (take cols (map snd ij)) ;;
        ret (i, j, df, dx)
      else if method =? "3-point" then
        let x1 := x0 in
        let x2 := x0 in
        let mask_1 := (use_one_sided & e)%V in
        let x1 := Np.where_ mask_1 (x1 + h_vec)%V x1 in
        let x2 := Np.where_ mask_1 (x2 + two ^* h_vec)%V x2 in
        let mask_2 := (vnot use_one_sided & e)%V in
        let x1 := Np.where_ mask_2 (x1 - h_vec)%V x1 in
        let x2 := Np.where_ mask_2 (x2 + h_vec)%V x2 in
        let dx := Np.zeros n in
        let dx := Np.where_ mask_1 (x2 - x0)%V dx in
        let dx := Np.where_ mask_2 (x2 - x1)%V dx in
        f1 <- fun_ x1 ;;
        f2 <- fun_ x2 ;;
        let cols := NpB.where_true e in
        ij <- lift (find_columns structure cols) ;;
        let i := map fst ij in
        j <- lift (take cols (map snd ij)) ;;
        mask <- lift (take use_one_sided j) ;;
        let df := repeat uninitialised m in
        let rows := mask_select mask i in
        f0r <- lift (take f0 rows) ;;
        f1r <- lift (take f1 rows) ;;
        f2r <- lift (take f2 rows) ;;
        df <- lift (put df rows
               ((of_Z (-3) ^* f0r + four ^* f1r) - f2r)%V) ;;
        let rows := mask_select (vnot mask) i in
        f1r <- lift (take f1 rows) ;;
        f2r <- lift (take f2 rows) ;;
        df <- lift (put df rows (f2r - f1r)%V) ;;
        ret (i, j, df, dx)
      else raise UnboundLocalError) ;;
   dfi <- lift (take df i) ;;
   dxj <- lift (take dx j) ;;
   lift (lil_set_all J (combine (combine i j) (dfi / dxj)%V)))%M.

(** [_sparse_difference(fun, x0, f0, h, use_one_sided, structure, groups,
    method)]. *)
Definition _sparse_difference (fun_ : vec -> M vec) (x0 f0 h : vec)
  (use_one_sided : mask) (structure : matrix xreal) (groups : list nat)
  (method : string) : M jacobian :=
  let m := length f0 in
  let n := length x0 in
  let J0 : smatrix := Matrix m n (fun _ _ => None) in
  (mx <- lift (NpB.max_int groups) ;;
   let n_groups := (mx + 1)%nat in
   J <- foldM (_sparse_difference_step fun_ x0 f0 h use_one_sided
                                       structure groups method)
              (seq 0 n_groups) J0 ;;
   ret (JSparse J))%M.

(* ------------------------------------------------------------------ *)
(** ** approx_derivative *)

(** [np.atleast_1d(a)] when the result has one dimension, [None] when it
    has more. *)
Definition as_1d (a : array_like) : option vec :=
  match atleast_1d a with
  | Arr1 v => Some v
  | _ => None
  end.

(** The array [a] when its shape is that of the one-dimensional [x0]. *)
Definition with_shape_of (x0 : vec) (a : array_like) : option vec :=
  match a with
  | Arr1 v => if (length v =? length x0)%nat then Some v else None
  | _ => None
  end.

(** The closure [fun_wrapped] of [approx_derivative]. *)
Definition fun_wrapped (fun_ : user_fun) (x : vec) : M vec :=
  (f <- call fun_ x ;;
   match as_1d f with
   | None => raise (RuntimeError "`fun` return value has more than 1 dimension.")
   | Some f => ret f
   end)%M.

(** [approx_derivative(fun, x0, method, rel_step, f0, bounds, sparsity)]
    (the extra arguments [args], [kwargs] are part of [fun]).  A
    [rel_step] whose broadcast against [x0] is longer than [x0], and a
    structure of more than two dimensions, are [Unmodelled]. *)
Definition approx_derivative (fun_ : user_fun) (x0 : array_like)
  (method : string) (rel_step : option vec) (f0 : option array_like)
  (bounds : array_like * array_like)
  (sparsity : option (matrix_like * list nat)) : M jacobian :=
  if negb (existsb (String.eqb method) ["2-point"; "3-point"]) then
    raise (ValueError "`method` must be '2-point' or '3-point'.")
  else
  match as_1d x0 with
  | None => raise (ValueError "`x0` must have at most 1 dimension.")
  | Some x0 =>
  let (lb, ub) := _prepare_bounds bounds x0 in
  match with_shape_of x0 lb, with_shape_of x0 ub with
  | Some lb, Some ub =>
    (f0 <- match f0 with
           | None => fun_wrapped fun_ x0
           | Some f0 =>
               match as_1d f0 with
               | None => raise (ValueError "`f0` passed has more than 1 dimension.")
               | Some f0 => ret f0
               end
           end ;;
     if Np.any ((x0 <? lb) ||| (x0 >? ub))%V then
       raise (ValueError "`x0` violates bound constraints.")
     else
     h <- lift (_compute_absolute_step rel_step x0 method) ;;
     if negb (length h =? length x0)%nat then raise Unmodelled else
     ' (h, use_one_sided) <-
        lift (if method =? "2-point" then
                _adjust_scheme_to_bounds x0 h 1 "1-sided" lb ub
              else
                _adjust_scheme_to_bounds x0 h 1 "2-sided" lb ub) ;;
     match sparsity with
     | None =>
         _dense_difference (fun_wrapped fun_) x0 f0 h use_one_sided method
     | Some (structure, groups) =>
         match structure with
         | SparseM A =>
             _sparse_difference (fun_wrapped fun_) x0 f0 h use_one_sided
                                (values_of A) groups method
         | DenseM A =>
             _sparse_difference (fun_wrapped fun_) x0 f0 h use_one_sided
                                A groups method
         | HigherM _ => raise Unmodelled
         end
     end)%M
  | _, _ => raise (ValueError "Inconsistent shapes between bounds and `x0`.")
  end
  end.

(* ------------------------------------------------------------------ *)
(** ** check_derivative *)

(** What the analytic Jacobian function may return: a scalar, a gradient,
    a dense matrix or a sparse matrix. *)
Inductive analytic : Type :=
| AScalar (x : xreal)
| AVec (v : vec)
| ADense (J : matrix xreal)
| ASparse (J : smatrix).

Definition vec_as_row (v : vec) : matrix xreal :=
  Matrix 1 (length v) (fun _ j => nth j v NaN).

(** Broadcasting aligns a scalar and a one-dimensional array with a
    two-dimensional one as a single cell and a single row. *)
Definition analytic_2d (a : analytic) : matrix xreal :=
  match a with
  | AScalar x => Matrix 1 1 (fun _ _ => x)
  | AVec v => vec_as_row v
  | ADense J => J
  | ASparse J => values_of J
  end.

Definition jacobian_2d (a : jacobian) : matrix xreal :=
  match a with
  | JVec v => vec_as_row v
  | JDense J => J
  | JSparse J => values_of J
  end.

Definition bdim (d1 d2 : nat) : nat := if (d1 =? 1)%nat then d2 else d1.
Definition bidx (d i : nat) : nat := if (d =? 1)%nat then O else i.
Definition bok (d1 d2 : nat) : bool :=
  ((d1 =? d2) || (d1 =? 1) || (d2 =? 1))%nat.

(** Elementwise operation on two arrays of at most two dimensions, with
    numpy's broadcasting. *)
Definition broadcast2d (f : xreal -> xreal -> xreal) (A B : matrix xreal)
  : result (matrix xreal) :=
  if bok (n_rows A) (n_rows B) && bok (n_cols A) (n_cols B)
  then Ok (Matrix (bdim (n_rows A) (n_rows B)) (bdim (n_cols A) (n_cols B))
             (fun i j =>
                f (cell A (bidx (n_rows A) i) (bidx (n_cols A) j))
                  (cell B (bidx (n_rows B) i) (bidx (n_cols B) j))))
  else Raise (ValueError "operands could not be broadcast together").

Definition map_matrix {T U} (f : T -> U) (A : matrix T) : matrix U :=
  Matrix (n_rows A) (n_cols A) (fun i j => f (cell A i j)).

Definition flatten {T} (A : matrix T) : list T := concat (to_rows A).

(** Difference of two sparse matrices: defined for equal shapes; a cell
    stored in neither operand is stored in neither the result. *)
Definition sparse_sub (A B : smatrix) : result smatrix :=
  if (n_rows A =? n_rows B)%nat && (n_cols A =? n_cols B)%nat
  then Ok (Matrix (n_rows A) (n_cols A)
             (fun i j => match cell A i j, cell B i j with
                         | None, None => None
                         | a, b => Some (value a - value b)%X
                         end))
  else Raise (ValueError "inconsistent shapes").

(** [find(A)]: row, column and value of the nonzero values, row by row. *)
Definition find (A : smatrix) : list (nat * nat * xreal) :=
  map (fun ij => (ij, value (cell A (fst ij) (snd ij))))
      (filter (fun ij => nonzero (value (cell A (fst ij) (snd ij))))
              (list_prod (seq 0 (n_rows A)) (seq 0 (n_cols A)))).

(** The error of one compared entry, as the source computes it. *)
Definition entry_error (abs_err estimate : xreal) : xreal :=
  (Xr.abs abs_err / Xr.maximum one (Xr.abs estimate))%X.

(** [J[i, j]] on a sparse matrix, for index arrays [i] and [j] that hold
    the positions [ij]: the values at these positions as a dense row;
    with no position at all, an empty sparse matrix of shape [(1, 0)]. *)
Inductive selection : Type :=
| Values (v : vec)
| EmptySparse.

Definition select (J : smatrix) (ij : list (nat * nat)) : selection :=
  match ij with
  | [] => EmptySparse
  | _ => Values (map (fun p => value (cell J (fst p) (snd p))) ij)
  end.

(** The message of the [ValueError] that the truth value of a sparse
    matrix of a shape other than [(1, 1)] raises. *)
Definition ambiguous_truth_value : string :=
  "The truth value of an array with more than one element is ambiguous. Use a.any() or a.all().".

(** [np.maximum(1, np.abs(np.asarray(s).ravel()))].  On values it is
    taken entry by entry.  [np.asarray] wraps a sparse matrix as an array
    of one object; [np.maximum] then asks whether [1 >= |s|], a
    comparison whose result is a sparse matrix of the shape [(1, 0)] of
    [s], and the truth value of such a matrix is a [ValueError]. *)
Definition np_maximum_one_abs (s : selection) : result vec :=
  match s with
  | Values v => Ok (map (fun x => Xr.maximum one (Xr.abs x)) v)
  | EmptySparse => Raise (ValueError ambiguous_truth_value)
  end.

(** [check_derivative(fun, jac, x0, bounds, sparse_diff, sparsity)]. *)
Definition check_derivative (fun_ : user_fun)
  (jac : array_like -> result analytic) (x0 : array_like)
  (bounds : array_like * array_like) (sparse_diff : bool)
  (sparsity : option (matrix_like * list nat)) : M xreal :=
  (J_to_test <- lift (jac x0) ;;
   match J_to_test, sparse_diff with
   | ASparse J_sp, true =>
       sparsity <- match sparsity with
                   | None =>
                       groups <- lift (group_columns (SparseM J_sp) None) ;;
                       ret (SparseM J_sp, groups)
                   | Some s => ret s
                   end ;;
       J_diff <- approx_derivative fun_ x0 "3-point" None None bounds
                                   (Some sparsity) ;;
       match J_diff with
       | JSparse J_diff =>
           abs_err <- lift (sparse_sub J_sp J_diff) ;;
           let ijv := find abs_err in
           let abs_err_data := map snd ijv in
           let jac_diff_data := select J_diff (map fst ijv) in
           d <- lift (np_maximum_one_abs jac_diff_data) ;;
           lift (Np.max (vabs abs_err_data / d)%V)
       | _ => raise Unmodelled
       end
   | _, _ =>
       J_diff <- approx_derivative fun_ x0 "3-point" None None bounds None ;;
       let J_diff := jacobian_2d J_diff in
       let J_to_test := analytic_2d J_to_test in
       d <- lift (broadcast2d Xr.sub J_to_test J_diff) ;;
       let abs_err := map_matrix Xr.abs d in
       q <- lift (broadcast2d Xr.div abs_err
                    (map_matrix (fun x => Xr.maximum one (Xr.abs x)) J_diff)) ;;
       lift (Np.max (flatten q))
   end)%M.

End Numdiff.


(* ================================================================== *)
(** * Views used in the statements *)
(* ================================================================== *)

(** ** The step planner, one variable at a time

    [_adjust_scheme_to_bounds] works on whole arrays through masks.  The
    two functions below are the same computation for the entry of one
    variable, read off the source line by line. *)

Definition one_sided_step (n_steps x h l u : xreal) : xreal :=
  let h_total := (h * n_steps)%X in
  let lower_dist := (x - l)%X in
  let upper_dist := (u - x)%X in
  let x' := (x + h_total)%X in
  let violated := ((x' <? l) || (x' >? u))%X in
  let fitting := (Xr.abs h_total <=? Xr.maximum lower_dist upper_dist)%X in
  let h1 := if violated && fitting then (h * minus_one)%X else h in
  let h2 := if (upper_dist >=? lower_dist)%X && negb fitting
            then (upper_dist / n_steps)%X else h1 in
  if (upper_dist <? lower_dist)%X && negb fitting
  then (- lower_dist / n_steps)%X else h2.

Definition two_sided_step (n_steps x h l u : xreal) : xreal * bool :=
  let h := Xr.abs h in
  let h_total := (h * n_steps)%X in
  let lower_dist := (x - l)%X in
  let upper_dist := (u - x)%X in
  let central := ((lower_dist >=? h_total) && (upper_dist >=? h_total))%X in
  let forward := (upper_dist >=? lower_dist)%X && negb central in
  let h1 := if forward
            then Xr.minimum h (half * upper_dist / n_steps)%X else h in
  let o1 := if forward then true else false in
  let backward := (upper_dist <? lower_dist)%X && negb central in
  let h2 := if backward
            then (- Xr.minimum h (half * lower_dist / n_steps))%X else h1 in
  let o2 := if backward then true else o1 in
  let min_dist := (Xr.minimum upper_dist lower_dist / n_steps)%X in
  let adjusted_central := negb central && (Xr.abs h2 <=? min_dist)%X in
  (if adjusted_central then min_dist else h2,
   if adjusted_central then false else o2).

(** The one-sided adjustment as the specification words it: the sign is
    flipped when the step leaves the interval and fits on the other side,
    and otherwise the step is clamped to the farther bound. *)
Definition claimed_one_sided_step (n_steps x h l u : xreal) : xreal :=
  let h_total := (h * n_steps)%X in
  let lower_dist := (x - l)%X in
  let upper_dist := (u - x)%X in
  let x' := (x + h_total)%X in
  if ((x' <? l) || (x' >? u))%X
     && (Xr.abs h_total <=? Xr.maximum lower_dist upper_dist)%X
  then (- h)%X
  else if (upper_dist >=? lower_dist)%X then (upper_dist / n_steps)%X
  else (- lower_dist / n_steps)%X.

(** ** Evaluation points *)

Definition in_bounds (l u p : xreal) : Prop :=
  (l <=? p)%X = true /\ (p <=? u)%X = true.

(** A point lies in the box when each coordinate lies between its bounds. *)
Definition in_box (lb ub p : vec) : Prop :=
  length p = length lb /\
  forall i l u pi,
    nth_error lb i = Some l -> nth_error ub i = Some u ->
    nth_error p i = Some pi -> in_bounds l u pi.

(** The points at which [_dense_difference] evaluates the function for
    variable [i], in the order of the calls. *)
Definition points_of_variable (method : string) (x0 h : vec)
  (use_one_sided : mask) (i : nat) : list vec :=
  if method =? "2-point" then [(x0 + NpB.diag_row h i)%V]
  else if nth i use_one_sided false
  then [(x0 + NpB.diag_row h i)%V; (x0 + two ^* NpB.diag_row h i)%V]
  else [(x0 - NpB.diag_row h i)%V; (x0 + NpB.diag_row h i)%V].

Definition evaluation_points (method : string) (x0 h : vec)
  (use_one_sided : mask) : list vec :=
  flat_map (points_of_variable method x0 h use_one_sided)
           (seq 0 (length h)).

(** What the scheme asks of one variable: the coordinates it evaluates
    lie between the bounds of that variable. *)
Definition variable_ok (method : string) (l u x hk : xreal) (ok : bool)
  : Prop :=
  if method =? "2-point" then in_bounds l u (x + hk)%X
  else if ok
       then in_bounds l u (x + hk)%X /\ in_bounds l u (x + two * hk)%X
       else in_bounds l u (x - hk)%X /\ in_bounds l u (x + hk)%X.

(** The scheme [approx_derivative] declares for a method. *)
Definition scheme_of (method : string) : string :=
  if method =? "2-point" then "1-sided" else "2-sided".

Definition all_finite (a : vec) : Prop :=
  Forall (fun v => is_finite v = true) a.

(** The sign used for the absolute step. *)
Definition sign_of (x : xreal) : xreal :=
  if (x >=? zero)%X then one else minus_one.

(** ** Groups *)

(** The number of groups of a grouping: one more than the largest id
    ([np.max(groups) + 1] in the sparse differencer), none for no column. *)
Definition n_groups (groups : list nat) : nat :=
  match groups with
  | [] => 0
  | x :: t => S (fold_left Nat.max t x)
  end.

(** What the colouring guarantees after [n] columns. *)
Definition coloured (conflict : nat -> nat -> bool) (n : nat)
  (gs : list nat) : Prop :=
  length gs = n /\
  (forall k j, (k < j < n)%nat -> conflict k j = true ->
               nth k gs 0%nat <> nth j gs 0%nat) /\
  (forall j g, (j < n)%nat -> (g < nth j gs 0)%nat ->
               exists k, (k < j)%nat /\ nth k gs 0%nat = g).

(** Structurally nonzero positions of a sparsity pattern: the nonzero
    values of a dense array, the stored entries of a sparse matrix. *)
Definition structurally_nonzero (A : matrix_like) (r c : nat) : bool :=
  match A with
  | DenseM A => nonzero (cell A r c)
  | SparseM A => match cell A r c with Some _ => true | None => false end
  | HigherM _ => false
  end.

Definition pattern_rows (A : matrix_like) : nat :=
  match A with
  | DenseM A => n_rows A
  | SparseM A => n_rows A
  | HigherM _ => 0
  end.

Definition pattern_cols (A : matrix_like) : nat :=
  match A with
  | DenseM A => n_cols A
  | SparseM A => n_cols A
  | HigherM _ => 0
  end.

Definition is_2d (A : matrix_like) : bool :=
  match A with HigherM _ => false | _ => true end.

(** ** Differencers on a function without failure *)

(** A user function that returns a one-dimensional array for every point. *)
Definition pure_fun (f : vec -> vec) : user_fun := fun x => Ok (Arr1 (f x)).

(** The entry [(i, j)] of a Jacobian, whatever its representation; the
    gradient form has the single row [i = 0]. *)
Definition jacobian_entry (J : jacobian) (i j : nat) : xreal :=
  match J with
  | JVec v => nth j v NaN
  | JDense J => cell J i j
  | JSparse J => value (cell J i j)
  end.

(** The column of difference quotients [df / dx] for variable [c]. *)
Definition difference_quotient (method : string) (f : vec -> vec)
  (x0 f0 h : vec) (use_one_sided : mask) (c : nat) : vec :=
  if method =? "2-point" then
    let x := (x0 + NpB.diag_row h c)%V in
    ((f x - f0) /^ (nth c x NaN - nth c x0 NaN)%X)%V
  else if nth c use_one_sided false then
    let x1 := (x0 + NpB.diag_row h c)%V in
    let x2 := (x0 + two ^* NpB.diag_row h c)%V in
    (((of_Z (-3) ^* f0 + four ^* f x1) - f x2)
     /^ (nth c x2 NaN - nth c x0 NaN)%X)%V
  else
    let x1 := (x0 - NpB.diag_row h c)%V in
    let x2 := (x0 + NpB.diag_row h c)%V in
    ((f x2 - f x1) /^ (nth c x2 NaN - nth c x1 NaN)%X)%V.

(** ** The derivative checker *)

(** The error of an entry as the specification words it: the relative
    error [|analytic - estimate| / |estimate|] when [|estimate| > 1], the
    absolute error [|analytic - estimate|] otherwise. *)
Definition relative_or_absolute_error (analytic_v estimate : xreal) : xreal :=
  if (Xr.abs estimate >? one)%X
  then (Xr.abs (analytic_v - estimate) / Xr.abs estimate)%X
  else Xr.abs (analytic_v - estimate)%X.

(** The positions of an [(m, n)] array, row by row. *)
Definition positions (m n : nat) : list (nat * nat) :=
  list_prod (seq 0 m) (seq 0 n).

(** The positions at which the analytic Jacobian and the estimate differ
    ([J_to_test - J_diff] has a nonzero value). *)
Definition differing_positions (A Jd : smatrix) : list (nat * nat) :=
  filter (fun ij => nonzero (value (cell A (fst ij) (snd ij))
                             - value (cell Jd (fst ij) (snd ij)))%X)
         (positions (n_rows A) (n_cols A)).

(** The structurally nonzero positions of a sparse matrix: its stored
    entries. *)
Definition stored_positions (A : smatrix) : list (nat * nat) :=
  filter (fun ij => match cell A (fst ij) (snd ij) with
                    | Some _ => true
                    | None => false
                    end)
         (positions (n_rows A) (n_cols A)).

(** [r] is the largest element of [l]. *)
Definition is_maximum (r : xreal) (l : vec) : Prop :=
  In r l /\ forall x, In x l -> (x <=? r)%X = true.

Definition no_nan (l : vec) : Prop :=
  Forall (fun v => is_nan v = false) l.

(** The value of the sparse comparison on the errors of the compared
    positions: their [np.max]; with no compared position the selection
    [J_diff[i, j]] is an empty sparse matrix, on which [np.maximum] fails
    before [np.max] is reached. *)
Definition max_of_compared (errors : vec) : result xreal :=
  match errors with
  | [] => Raise (ValueError ambiguous_truth_value)
  | _ => Np.max errors
  end.

(** The comparison path [check_derivative] takes. *)
Definition takes_sparse_path (a : analytic) (sparse_diff : bool) : bool :=
  match a, sparse_diff with
  | ASparse _, true => true
  | _, _ => false
  end.

(** ** A checker run with a supplied structure wider than the analytic
    Jacobian *)

Module WiderStructure.

(** [fun(x) = [x, x]] on one variable. *)
Definition fun_ : user_fun := pure_fun (fun x => [nth 0 x NaN; nth 0 x NaN]).

(** The analytic Jacobian stores the entry [(0, 0)] only. *)
Definition J_analytic : smatrix :=
  Matrix 2 1 (fun r _ => if (r =? 0)%nat then Some one else None).

Definition jac : array_like -> result analytic :=
  fun _ => Ok (ASparse J_analytic).

(** The supplied structure marks both entries. *)
Definition sparsity : matrix_like * list nat :=
  (DenseM (Matrix 2 1 (fun _ _ => one)), [0%nat]).

Definition x0 : array_like := Arr1 [zero].
Definition unbounded : array_like * array_like := (Scalar NInf, Scalar PInf).

(** A stand-in for the power function of the float type. *)
Definition pow : xreal -> xreal -> xreal := fun _ _ => half.

End WiderStructure.

(** ** A checker run on an analytic Jacobian that agrees with the estimate *)

Module ExactAgreement.

(** [fun(x) = [x[0]]] on one variable. *)
Definition fun_ : user_fun := pure_fun (fun x => [nth 0 x NaN]).

(** Its Jacobian, the sparse matrix [[1]]. *)
Definition J_analytic : smatrix := Matrix 1 1 (fun _ _ => Some one).

Definition jac : array_like -> result analytic :=
  fun _ => Ok (ASparse J_analytic).

Definition sparsity : matrix_like * list nat := (SparseM J_analytic, [0%nat]).

Definition x0 : array_like := Arr1 [zero].
Definition unbounded : array_like * array_like := (Scalar NInf, Scalar PInf).

End ExactAgreement.

(** The points at which [_sparse_difference] evaluates the function for
    one group, in the order of the calls. *)
Definition points_of_group (method : string) (x0 h : vec)
  (use_one_sided : mask) (groups : list nat) (group : nat) : list vec :=
  let e := map (Nat.eqb group) groups in
  let h_vec := (h * map astype_float e)%V in
  if method =? "2-point" then [(x0 + h_vec)%V]
  else
    let mask_1 := (use_one_sided & e)%V in
    let mask_2 := (vnot use_one_sided & e)%V in
    let x1 := Np.where_ mask_1 (x0 + h_vec)%V x0 in
    let x2 := Np.where_ mask_1 (x0 + two ^* h_vec)%V x0 in
    [Np.where_ mask_2 (x1 - h_vec)%V x1; Np.where_ mask_2 (x2 + h_vec)%V x2].

(* ================================================================== *)
(** * The step planner on binary64 numbers *)
(* ================================================================== *)

(** The planner once more, line by line, on the numbers the source
    computes with: IEEE 754 binary64, every operation rounded to nearest
    with ties to even (the primitive floats of Rocq). *)

Module Binary64.

(** One-dimensional arrays of binary64 numbers. *)
Definition fvec := list float.

(** An integer as a binary64 number. *)
Definition of_int (z : Z) : float :=
  SF2Prim (binary_normalize prec emax z 0 false).

(** [np.maximum] and [np.minimum] on two numbers: the first operand when
    it compares as asked or is NaN, the second otherwise, so that a NaN
    in either operand comes out. *)
Definition maximum (a b : float) : float :=
  if (PrimFloat.leb b a || PrimFloat.is_nan a)%bool then a else b.

Definition minimum (a b : float) : float :=
  if (PrimFloat.leb a b || PrimFloat.is_nan a)%bool then a else b.

Declare Scope b64_scope.
Delimit Scope b64_scope with B.
Infix "+" := (Np.zip_with PrimFloat.add) : b64_scope.
Infix "-" := (Np.zip_with PrimFloat.sub) : b64_scope.
Infix "*" := (Np.zip_with PrimFloat.mul) : b64_scope.
Infix "<=?" := (Np.zip_with PrimFloat.leb) (at level 70) : b64_scope.
Infix "<?" := (Np.zip_with PrimFloat.ltb) (at level 70) : b64_scope.
Infix ">=?" := (Np.zip_with (fun a b => PrimFloat.leb b a)) (at level 70) : b64_scope.
Infix ">?" := (Np.zip_with (fun a b => PrimFloat.ltb b a)) (at level 70) : b64_scope.
Infix "&" := (Np.zip_with andb) (at level 40, left associativity) : b64_scope.
Infix "|||" := (Np.zip_with orb) (at level 50, left associativity) : b64_scope.
Notation "a *^ s" := (map (fun x => PrimFloat.mul x s) a) (at level 40, left associativity) : b64_scope.
Notation "a /^ s" := (map (fun x => PrimFloat.div x s) a) (at level 40, left associativity) : b64_scope.
Notation "s ^* a" := (map (fun x => PrimFloat.mul s x) a) (at level 40, left associativity) : b64_scope.
Notation "a ==^ s" := (map (fun x => PrimFloat.eqb x s) a) (at level 70) : b64_scope.

Definition vabs (a : fvec) : fvec := map PrimFloat.abs a.
Definition vopp (a : fvec) : fvec := map PrimFloat.opp a.
Definition vmaximum (a b : fvec) : fvec := Np.zip_with maximum a b.
Definition vminimum (a b : fvec) : fvec := Np.zip_with minimum a b.

(** Lines 102 and 103 of [_compute_absolute_step], for a relative step
    that is one number: the one the caller supplies, or the default of
    the method. *)
Definition _compute_absolute_step (rel_step : float) (x0 : fvec) : fvec :=
  let sign_x0 :=
    map (fun b : bool => ((if b then 1 else 0) * 2 - 1)%float)
        (map (fun x => PrimFloat.leb 0 x) x0) in
  ((rel_step ^* sign_x0) * map (maximum 1) (vabs x0))%B.

(** [_adjust_scheme_to_bounds(x0, h, num_steps, scheme, lb, ub)]. *)
Definition _adjust_scheme_to_bounds
  (x0 h : fvec) (num_steps : Z) (scheme : string) (lb ub : fvec)
  : result (fvec * mask) :=
  let n_steps := of_int num_steps in
  bind (if scheme =? "1-sided" then Ok (h, Np.ones_like_bool h)
        else if scheme =? "2-sided" then
          let h := vabs h in Ok (h, Np.zeros_like_bool h)
        else Raise (ValueError "`scheme` must be '1-sided' or '2-sided'."))
  (fun '(h, use_one_sided) =>
  if Np.all ((lb ==^ neg_infinity) & (ub ==^ infinity))%B
  then Ok (h, use_one_sided)
  else
    let h_total := (h *^ n_steps)%B in
    let h_adjusted := h in
    let lower_dist := (x0 - lb)%B in
    let upper_dist := (ub - x0)%B in
    if scheme =? "1-sided" then
      let x := (x0 + h_total)%B in
      let violated := ((x <? lb) ||| (x >? ub))%B in
      let fitting := (vabs h_total <=? vmaximum lower_dist upper_dist)%B in
      let h_adjusted :=
        Np.where_ (violated & fitting)%B (h_adjusted *^ (-1)%float)%B
                  h_adjusted in
      let forward := ((upper_dist >=? lower_dist) & vnot fitting)%B in
      let h_adjusted :=
        Np.where_ forward (upper_dist /^ n_steps)%B h_adjusted in
      let backward := ((upper_dist <? lower_dist) & vnot fitting)%B in
      let h_adjusted :=
        Np.where_ backward (vopp lower_dist /^ n_steps)%B h_adjusted in
      Ok (h_adjusted, use_one_sided)
    else (* scheme == '2-sided' *)
      let central :=
        ((lower_dist >=? h_total) & (upper_dist >=? h_total))%B in
      let forward := ((upper_dist >=? lower_dist) & vnot central)%B in
      let h_adjusted :=
        Np.where_ forward
          (vminimum h (0.5%float ^* upper_dist /^ n_steps)%B) h_adjusted in
      let use_one_sided :=
        Np.where_ forward (Np.ones_like_bool h) use_one_sided in
      let backward := ((upper_dist <? lower_dist) & vnot central)%B in
      let h_adjusted :=
        Np.where_ backward
          (vopp (vminimum h (0.5%float ^* lower_dist /^ n_steps)%B))
          h_adjusted in
      let use_one_sided :=
        Np.where_ backward (Np.ones_like_bool h) use_one_sided in
      let min_dist := (vminimum upper_dist lower_dist /^ n_steps)%B in
      let adjusted_central :=
        (vnot central & (vabs h_adjusted <=? min_dist))%B in
      let h_adjusted := Np.where_ adjusted_central min_dist h_adjusted in
      let use_one_sided :=
        Np.where_ adjusted_central (Np.zeros_like_bool h) use_one_sided in
      Ok (h_adjusted, use_one_sided)).

(** [np.diag(h)[i]]. *)
Definition diag_row (h : fvec) (i : nat) : fvec :=
  map (fun k => if (k =? i)%nat then nth i h nan else 0%float)
      (seq 0 (length h)).

(** The points at which [_dense_difference] evaluates the function for
    variable [i], in the order of the calls; none when the mask is read
    beyond its end. *)
Definition points_of_variable (method : string) (x0 h : fvec)
  (use_one_sided : mask) (i : nat) : list fvec :=
  if method =? "2-point" then [(x0 + diag_row h i)%B]
  else match nth_error use_one_sided i with
       | Some true =>
           [(x0 + diag_row h i)%B; (x0 + 2%float ^* diag_row h i)%B]
       | Some false =>
           [(x0 - diag_row h i)%B; (x0 + diag_row h i)%B]
       | None => []
       end.

Definition evaluation_points (method : string) (x0 h : fvec)
  (use_one_sided : mask) : list fvec :=
  flat_map (points_of_variable method x0 h use_one_sided)
           (seq 0 (length h)).

(** [lb <= p <= ub] in every coordinate. *)
Definition in_box (lb ub p : fvec) : bool :=
  Np.all ((lb <=? p) & (p <=? ub))%B.

End Binary64.

(* ================================================================== *)
(** * Arithmetic of the extended reals *)
(* ================================================================== *)

Module XrFacts.

Lemma this_plus (x y : Qc) : (this (x + y)%Qc == this x + this y)%Q.
Proof. exact (Qred_correct _). Qed.

Lemma this_mult (x y : Qc) : (this (x * y)%Qc == this x * this y)%Q.
Proof. exact (Qred_correct _). Qed.

Lemma this_opp (x : Qc) : (this (- x)%Qc == - this x)%Q.
Proof. exact (Qred_correct _). Qed.

Lemma this_minus (x y : Qc) : (this (x - y)%Qc == this x - this y)%Q.
Proof. unfold Qcminus. rewrite this_plus, this_opp. reflexivity. Qed.

Lemma this_inv (x : Qc) : (this (/ x)%Qc == / this x)%Q.
Proof. exact (Qred_correct _). Qed.

Lemma this_div (x y : Qc) : (this (x / y)%Qc == this x / this y)%Q.
Proof. unfold Qcdiv. rewrite this_mult, this_inv. reflexivity. Qed.

Lemma this_Q2Qc (q : Q) : (this (Q2Qc q) == q)%Q.
Proof. exact (Qred_correct _). Qed.

Lemma this_abs (x : Qc) : this (Qcabs x) = Qabs.Qabs (this x).
Proof. reflexivity. Qed.

Lemma leb_fin_cases (p q : Qc) :
  ((Fin p <=? Fin q)%X = true /\ (this p <= this q)%Q) \/
  ((Fin p <=? Fin q)%X = false /\ (this q < this p)%Q).
Proof.
  unfold Xr.leb, Xr.compare, Qccompare.
  destruct (Qcompare_spec (this p) (this q)) as [H|H|H]; [left|left|right];
    split; auto; lra.
Qed.

Lemma ltb_fin_cases (p q : Qc) :
  ((Fin p <? Fin q)%X = true /\ (this p < this q)%Q) \/
  ((Fin p <? Fin q)%X = false /\ (this q <= this p)%Q).
Proof.
  unfold Xr.ltb, Xr.compare, Qccompare.
  destruct (Qcompare_spec (this p) (this q)) as [H|H|H]; [right|left|right];
    split; auto; lra.
Qed.

Lemma mul_one (a : xreal) : (a * one)%X = a.
Proof.
  destruct a; try reflexivity. unfold one, of_Z; cbn [Xr.mul].
  f_equal. apply Qcmult_1_r.
Qed.

Lemma div_one (a : xreal) : (a / one)%X = a.
Proof.
  destruct a; try reflexivity. unfold one, of_Z; cbn [Xr.div].
  change ((Q2Qc (inject_Z 1) ?= 0)%Qc) with Gt. cbv iota.
  f_equal. unfold Qcdiv. change (/ Q2Qc (inject_Z 1))%Qc with 1%Qc.
  apply Qcmult_1_r.
Qed.

Lemma mul_minus_one (a : xreal) : (a * minus_one)%X = (- a)%X.
Proof.
  destruct a; try reflexivity. unfold minus_one, of_Z; cbn [Xr.mul Xr.opp].
  f_equal. apply Qc_is_canon.
  rewrite this_mult, this_opp, this_Q2Qc. unfold inject_Z. lra.
Qed.

Lemma add_zero_r (x : Qc) : (Fin x + zero)%X = Fin x.
Proof. unfold zero; cbn [Xr.add]. f_equal. apply Qcplus_0_r. Qed.

Lemma sub_zero_r (x : Qc) : (Fin x - zero)%X = Fin x.
Proof.
  unfold zero; cbn [Xr.sub Xr.add Xr.opp]. f_equal. apply Qc_is_canon.
  rewrite this_plus, this_opp. change (this 0%Qc) with 0%Q. lra.
Qed.

Lemma mul_zero_r (x : Qc) : (Fin x * zero)%X = zero.
Proof. unfold zero; cbn [Xr.mul]. f_equal. apply Qcmult_0_r. Qed.

Lemma leb_refl_fin (x : Qc) : (Fin x <=? Fin x)%X = true.
Proof. destruct (leb_fin_cases x x) as [[E _]|[_ H]]; [exact E | lra]. Qed.

Lemma geb_ltb_excl (a b : xreal) :
  (a >=? b)%X = true -> (a <? b)%X = true -> False.
Proof.
  unfold Xr.geb. destruct a as [| |p|], b as [| |q|]; try discriminate.
  destruct (leb_fin_cases q p) as [[-> H1]|[-> H1]];
    destruct (ltb_fin_cases p q) as [[-> H2]|[-> H2]];
    try discriminate. lra.
Qed.

Lemma eqb_NInf (a : xreal) : (a ==? NInf)%X = true -> a = NInf.
Proof. destruct a; cbn; congruence. Qed.

Lemma eqb_PInf (a : xreal) : (a ==? PInf)%X = true -> a = PInf.
Proof. destruct a; cbn; congruence. Qed.

Lemma is_finite_inv (a : xreal) : is_finite a = true -> exists q, a = Fin q.
Proof. destruct a; try discriminate. eauto. Qed.

End XrFacts.
Import XrFacts.

(** Rewriting of an order fact on [Qc] into one on [Q]. *)
Ltac q_norm_in H :=
  repeat first
    [ rewrite this_plus in H | rewrite this_minus in H | rewrite this_mult in H
    | rewrite this_opp in H | rewrite this_div in H | rewrite this_inv in H
    | rewrite this_Q2Qc in H | rewrite this_abs in H ];
  unfold inject_Z in H.

Ltac split_abs :=
  repeat match goal with
  | H : context [Qabs.Qabs ?q] |- _ =>
      let Hs := fresh "Hs" in
      destruct (Qlt_le_dec q 0) as [Hs|Hs];
      [ rewrite (Qabs.Qabs_neg q) in * by (apply Qlt_le_weak; exact Hs)
      | rewrite (Qabs.Qabs_pos q) in * by exact Hs ]
  end.

Ltac xr_cbn :=
  unfold Xr.geb, Xr.gtb in * ;
  cbn [Xr.add Xr.sub Xr.opp Xr.mul Xr.abs Xr.maximum Xr.minimum
       negb andb orb fst snd] in * ;
  repeat match goal with
  | |- context [Xr.sgn (Fin (Q2Qc ?c))] =>
      let r := eval vm_compute in (Xr.sgn (Fin (Q2Qc c))) in
      change (Xr.sgn (Fin (Q2Qc c))) with r in * ;
      cbn [Xr.sgn Xr.sgn_mul Xr.inf_of Xr.add Xr.sub Xr.opp Xr.mul Xr.abs
           Xr.maximum Xr.minimum negb andb orb fst snd] in *
  end.

Ltac is_val a :=
  lazymatch a with
  | NaN => idtac | NInf => idtac | PInf => idtac | Fin _ => idtac
  end.

(** One comparison of two values is decided: between finite values by
    cases on the order of the rationals, otherwise by computation. *)
Ltac cmp_in t a b cases :=
  is_val a; is_val b;
  lazymatch a with
  | Fin ?p =>
      lazymatch b with
      | Fin ?q =>
          let E := fresh "E" in let Hc := fresh "Hc" in
          destruct (cases p q) as [[E Hc]|[E Hc]];
          rewrite E in * ; clear E; q_norm_in Hc; xr_cbn
      | _ => let r := eval cbv [Xr.leb Xr.ltb Xr.compare] in t in
             change t with r in * ; xr_cbn
      end
  | _ => let r := eval cbv [Xr.leb Xr.ltb Xr.compare] in t in
         change t with r in * ; xr_cbn
  end.

Ltac cmp_step :=
  match goal with
  | H : context [Xr.leb ?a ?b] |- _ => cmp_in (Xr.leb a b) a b leb_fin_cases
  | H : context [Xr.ltb ?a ?b] |- _ => cmp_in (Xr.ltb a b) a b ltb_fin_cases
  | |- context [Xr.leb ?a ?b] => cmp_in (Xr.leb a b) a b leb_fin_cases
  | |- context [Xr.ltb ?a ?b] => cmp_in (Xr.ltb a b) a b ltb_fin_cases
  end.

Ltac q_lra := unfold Qdiv in * ; split_abs; lra.

Ltac finish :=
  first [ discriminate
        | exfalso; q_lra
        | repeat split; reflexivity ].

(** Evaluation of a closed term; canonical rationals are compared by
    their value. *)
Ltac xr_compute :=
  vm_compute;
  first [ reflexivity
        | repeat (f_equal; try (apply Qc_is_canon; reflexivity)) ].

(* ================================================================== *)
(** * The step planner stays inside the bounds *)
(* ================================================================== *)

Section StepInBounds.

Variables (x h : Qc) (l u : xreal).
Hypothesis Hl : (l <=? Fin x)%X = true.
Hypothesis Hu : (Fin x <=? u)%X = true.

Lemma one_sided_in_bounds :
  in_bounds l u (Fin x + one_sided_step one (Fin x) (Fin h) l u)%X.
Proof.
  revert Hl Hu; intros Hl' Hu'.
  unfold in_bounds, one_sided_step. rewrite ?mul_one, ?div_one.
  destruct l as [| |l'|]; try discriminate;
    destruct u as [| |u'|]; try discriminate;
    unfold minus_one, of_Z in * ; xr_cbn.
  all: repeat (cmp_step; try finish).
  all: try finish.
Qed.

Lemma two_sided_in_bounds :
  let r := two_sided_step one (Fin x) (Fin h) l u in
  if snd r
  then in_bounds l u (Fin x + fst r)%X /\
       in_bounds l u (Fin x + two * fst r)%X
  else in_bounds l u (Fin x - fst r)%X /\
       in_bounds l u (Fin x + fst r)%X.
Proof.
  revert Hl Hu; intros Hl' Hu'.
  unfold in_bounds, two_sided_step. rewrite ?mul_one, ?div_one.
  destruct l as [| |l'|]; try discriminate;
    destruct u as [| |u'|]; try discriminate;
    unfold two, half, of_Q, of_Z in * ; xr_cbn.
  all: repeat (cmp_step; try finish).
  all: try finish.
Qed.

End StepInBounds.

(* ================================================================== *)
(** * Arrays entry by entry *)
(* ================================================================== *)

Lemma nth_error_combine_both {A B} (a : list A) (b : list B) i :
  nth_error (combine a b) i =
  match nth_error a i, nth_error b i with
  | Some x, Some y => Some (x, y)
  | _, _ => None
  end.
Proof.
  revert b i.
  induction a as [|x a IH]; intros [|y b] [|i]; simpl; auto.
  destruct (nth_error a i); reflexivity.
Qed.

Lemma nth_error_zip_with {A B C} (f : A -> B -> C) a b i :
  nth_error (Np.zip_with f a b) i =
  match nth_error a i, nth_error b i with
  | Some x, Some y => Some (f x y)
  | _, _ => None
  end.
Proof.
  unfold Np.zip_with. rewrite nth_error_map, nth_error_combine_both.
  destruct (nth_error a i), (nth_error b i); reflexivity.
Qed.

Lemma nth_error_where {A} m (a b : list A) i :
  nth_error (Np.where_ m a b) i =
  match nth_error m i, nth_error a i, nth_error b i with
  | Some c, Some x, Some y => Some (if c then x else y)
  | _, _, _ => None
  end.
Proof.
  unfold Np.where_. rewrite nth_error_zip_with, nth_error_combine_both.
  destruct (nth_error m i), (nth_error a i), (nth_error b i); reflexivity.
Qed.

Lemma length_zip_with {A B C} (f : A -> B -> C) a b :
  length (Np.zip_with f a b) = Nat.min (length a) (length b).
Proof. unfold Np.zip_with. now rewrite length_map, length_combine. Qed.

Lemma nth_error_diag_row h i k :
  nth_error (NpB.diag_row h i) k =
  if (k <? length h)%nat
  then Some (if (k =? i)%nat then nth i h NaN else zero)
  else None.
Proof.
  unfold NpB.diag_row. rewrite nth_error_map.
  destruct (Nat.ltb_spec k (length h)) as [H|H].
  - rewrite nth_error_seq. apply Nat.ltb_lt in H. rewrite H. reflexivity.
  - rewrite (proj2 (nth_error_None _ _)); [reflexivity|].
    now rewrite length_seq.
Qed.

Lemma length_diag_row h i : length (NpB.diag_row h i) = length h.
Proof. unfold NpB.diag_row. now rewrite length_map, length_seq. Qed.

Ltac nth_simpl :=
  repeat (rewrite ?nth_error_where, ?nth_error_zip_with, ?nth_error_map;
          unfold vabs, vopp, vnot, vmaximum, vminimum,
                 Np.ones_like_bool, Np.zeros_like_bool).

Lemma length_where {A} m (a b : list A) :
  length (Np.where_ m a b)
  = Nat.min (length m) (Nat.min (length a) (length b)).
Proof. unfold Np.where_. now rewrite length_zip_with, length_combine. Qed.

Ltac len_simpl :=
  unfold vabs, vopp, vnot, vmaximum, vminimum,
         Np.ones_like_bool, Np.zeros_like_bool;
  repeat (rewrite ?length_where, ?length_zip_with, ?length_map,
                  ?length_diag_row).

(** The entry of one variable in what [_adjust_scheme_to_bounds] returns
    when some bound is finite. *)
Lemma adjust_one_sided_nth x0 h num_steps lb ub i x hi l u :
  Np.all ((lb ==^ NInf) & (ub ==^ PInf))%V = false ->
  nth_error x0 i = Some x -> nth_error h i = Some hi ->
  nth_error lb i = Some l -> nth_error ub i = Some u ->
  exists h' o',
    _adjust_scheme_to_bounds x0 h num_steps "1-sided" lb ub = Ok (h', o') /\
    nth_error h' i = Some (one_sided_step (of_Z num_steps) x hi l u) /\
    nth_error o' i = Some true.
Proof.
  intros Hall Hx Hh Hl Hu.
  unfold _adjust_scheme_to_bounds. simpl String.eqb. cbv iota. unfold bind.
  rewrite Hall. eexists _, _. split; [reflexivity|].
  nth_simpl. rewrite Hx, Hh, Hl, Hu. simpl. split; reflexivity.
Qed.

Lemma adjust_two_sided_nth x0 h num_steps lb ub i x hi l u :
  Np.all ((lb ==^ NInf) & (ub ==^ PInf))%V = false ->
  nth_error x0 i = Some x -> nth_error h i = Some hi ->
  nth_error lb i = Some l -> nth_error ub i = Some u ->
  exists h' o',
    _adjust_scheme_to_bounds x0 h num_steps "2-sided" lb ub = Ok (h', o') /\
    nth_error h' i = Some (fst (two_sided_step (of_Z num_steps) x hi l u)) /\
    nth_error o' i = Some (snd (two_sided_step (of_Z num_steps) x hi l u)).
Proof.
  intros Hall Hx Hh Hl Hu.
  unfold _adjust_scheme_to_bounds. simpl String.eqb. cbv iota. unfold bind.
  rewrite Hall. eexists _, _. split; [reflexivity|].
  nth_simpl. rewrite Hx, Hh, Hl, Hu. simpl. split.
  - unfold two_sided_step. simpl. destruct (_ && _); reflexivity.
  - unfold two_sided_step. simpl. reflexivity.
Qed.

(** Shapes are preserved by the planner. *)
Lemma adjust_lengths x0 h num_steps scheme lb ub h' o' n :
  length x0 = n -> length h = n -> length lb = n -> length ub = n ->
  _adjust_scheme_to_bounds x0 h num_steps scheme lb ub = Ok (h', o') ->
  length h' = n /\ length o' = n.
Proof.
  intros Hx Hh Hl Hu. unfold _adjust_scheme_to_bounds, bind.
  destruct (scheme =? "1-sided") eqn:E1.
  - destruct (Np.all _).
    + intros [= <- <-]. len_simpl. split; lia.
    + intros [= <- <-]. len_simpl. rewrite ?Hx, ?Hh, ?Hl, ?Hu. split; lia.
  - destruct (scheme =? "2-sided") eqn:E2; [|discriminate].
    destruct (Np.all _).
    + intros [= <- <-]. len_simpl. split; lia.
    + intros [= <- <-]. len_simpl. rewrite ?Hx, ?Hh, ?Hl, ?Hu. split; lia.
Qed.

(** When every variable is unbounded the step is returned as it is. *)
Lemma all_unbounded_nth lb ub i l u :
  Np.all ((lb ==^ NInf) & (ub ==^ PInf))%V = true ->
  nth_error lb i = Some l -> nth_error ub i = Some u ->
  l = NInf /\ u = PInf.
Proof.
  unfold Np.all. rewrite forallb_forall. intros H Hl Hu.
  assert (Hin : In ((l ==? NInf)%X && (u ==? PInf)%X)
                   ((lb ==^ NInf) & (ub ==^ PInf))%V).
  { eapply nth_error_In with (n := i).
    rewrite nth_error_zip_with, !nth_error_map, Hl, Hu. reflexivity. }
  apply H in Hin. apply andb_true_iff in Hin as [H1 H2].
  split; [now apply eqb_NInf | now apply eqb_PInf].
Qed.

(* ================================================================== *)
(** * One-sided adjustment (C5) *)
(* ================================================================== *)

(** C5, as stated, fails: at [x0 = 0], [h = 1/2], [lb = -1], [ub = 1]
    the step [x0 + h] stays inside the interval and fits, and the source
    returns [h] unchanged, where the claim's "otherwise" branch clamps
    it to [(ub - x0) / num_steps = 1]. *)
Lemma one_sided_unchanged_counterexample :
  exists h',
    _adjust_scheme_to_bounds [zero] [half] 1 "1-sided" [minus_one] [one]
      = Ok ([h'], [true]) /\
    h' = half /\
    claimed_one_sided_step one zero half minus_one one = one /\
    h' <> claimed_one_sided_step one zero half minus_one one.
Proof.
  exists half. split; [|split; [|split]].
  - xr_compute.
  - reflexivity.
  - xr_compute.
  - intros H. vm_compute in H. inversion H.
Qed.

(** C5 (amended): in the one-sided adjustment with at least one finite
    bound, for each variable: when the step fits
    ([|h*num_steps| <= max(x0-lb, ub-x0)]) its sign is flipped if
    [x0 + h*num_steps] leaves the interval and it is left unchanged if
    not; when the step does not fit, [h] becomes [(ub-x0)/num_steps] if
    [ub-x0 >= x0-lb] and [-(x0-lb)/num_steps] if [ub-x0 < x0-lb]. *)
Theorem one_sided_adjustment :
  forall x0 h num_steps lb ub i x hi l u,
    Np.all ((lb ==^ NInf) & (ub ==^ PInf))%V = false ->
    nth_error x0 i = Some x -> nth_error h i = Some hi ->
    nth_error lb i = Some l -> nth_error ub i = Some u ->
    let n := of_Z num_steps in
    let lower_dist := (x - l)%X in
    let upper_dist := (u - x)%X in
    let x' := (x + hi * n)%X in
    let violated := ((x' <? l) || (x' >? u))%X in
    let fitting := (Xr.abs (hi * n) <=? Xr.maximum lower_dist upper_dist)%X in
    exists h' o',
      _adjust_scheme_to_bounds x0 h num_steps "1-sided" lb ub = Ok (h', o') /\
      exists hi',
        nth_error h' i = Some hi' /\
        (fitting = true -> violated = true -> hi' = (- hi)%X) /\
        (fitting = true -> violated = false -> hi' = hi) /\
        (fitting = false -> (upper_dist >=? lower_dist)%X = true ->
           hi' = (upper_dist / n)%X) /\
        (fitting = false -> (upper_dist <? lower_dist)%X = true ->
           hi' = (- lower_dist / n)%X).
Proof.
  intros x0 h num_steps lb ub i x hi l u Hall Hx Hh Hl Hu
         n lower_dist upper_dist x' violated fitting.
  destruct (@adjust_one_sided_nth _ _ num_steps _ _ _ _ _ _ _ Hall Hx Hh Hl Hu)
    as (h' & o' & Heq & Hn & _).
  exists h', o'. split; [exact Heq|].
  eexists. split; [exact Hn|].
  subst n lower_dist upper_dist x' violated fitting.
  unfold one_sided_step. cbv zeta.
  repeat split; intros Hf Hv; rewrite Hf; try rewrite Hv; cbn [negb andb].
  - rewrite ?andb_false_r, ?andb_true_r. apply mul_minus_one.
  - rewrite ?andb_false_r, ?andb_true_r. reflexivity.
  - rewrite ?andb_false_r, ?andb_true_r.
    destruct (u - x <? x - l)%X eqn:E; [|reflexivity].
    exfalso. exact (geb_ltb_excl _ _ Hv E).
  - rewrite ?andb_false_r, ?andb_true_r. reflexivity.
Qed.

Lemma one_sided_adjustment_witness :
  exists h' o',
    _adjust_scheme_to_bounds [one] [half] 1 "1-sided" [NInf] [one]
      = Ok (h', o') /\
    exists hi',
      nth_error h' 0 = Some hi' /\ hi' = (- half)%X.
Proof.
  destruct (@one_sided_adjustment [one] [half] 1%Z [NInf] [one] 0%nat
              one half NInf one)
    as (h' & o' & Heq & hi' & Hn & Hflip & _);
    try reflexivity.
  exists h', o'. split; [exact Heq|]. exists hi'. split; [exact Hn|].
  apply Hflip; reflexivity.
Defined.

(* ================================================================== *)
(** * Evaluation points stay in the box (C1) *)
(* ================================================================== *)

Lemma all_finite_nth a k v :
  all_finite a -> nth_error a k = Some v -> exists q, v = Fin q.
Proof.
  intros Ha Hk. apply is_finite_inv.
  unfold all_finite in Ha. rewrite Forall_forall in Ha.
  apply Ha. eapply nth_error_In; eauto.
Qed.

Lemma two_mul_zero : (two * zero)%X = zero.
Proof. xr_compute. Qed.

Section PointsInBox.

Variables (method : string) (x0 h' lb ub : vec) (o' : mask).
Hypothesis Hfin : all_finite x0.
Hypothesis Hlh : length h' = length x0.
Hypothesis Hlo : length o' = length x0.
Hypothesis Hllb : length lb = length x0.
Hypothesis Hlub : length ub = length x0.
Hypothesis Hx0 : in_box lb ub x0.
Hypothesis Hvar :
  forall k x hk ok l u,
    nth_error x0 k = Some x -> nth_error h' k = Some hk ->
    nth_error o' k = Some ok ->
    nth_error lb k = Some l -> nth_error ub k = Some u ->
    variable_ok method l u x hk ok.

(** A perturbed point [x0 (+) c * diag(h')[i]] is in the box as soon as
    its coordinate [i] is between the bounds. *)
Lemma perturbed_in_box (op : xreal -> xreal -> xreal) (c : xreal -> xreal) i :
  (forall q, op (Fin q) (c zero) = Fin q) ->
  (i < length h')%nat ->
  (forall x hk l u,
      nth_error x0 i = Some x -> nth_error h' i = Some hk ->
      nth_error lb i = Some l -> nth_error ub i = Some u ->
      in_bounds l u (op x (c hk))) ->
  in_box lb ub (Np.zip_with op x0 (map c (NpB.diag_row h' i))).
Proof.
  intros Hzero Hi Hcoord. split.
  - rewrite length_zip_with, length_map, length_diag_row. lia.
  - intros k l u pk Hl Hu.
    rewrite nth_error_zip_with, nth_error_map, nth_error_diag_row.
    destruct (nth_error x0 k) as [xk|] eqn:Hxk; [|discriminate].
    destruct (Nat.ltb_spec k (length h')) as [Hk|Hk]; [|discriminate].
    cbn [option_map]. intros [= <-].
    destruct (Nat.eqb_spec k i) as [->|Hne].
    + apply Hcoord; auto.
      apply nth_error_nth'. exact Hi.
    + destruct (all_finite_nth _ Hfin Hxk) as [q ->].
      rewrite Hzero. destruct Hx0 as [_ Hb]. eapply Hb; eauto.
Qed.

Lemma points_in_box :
  method = "2-point" \/ method = "3-point" ->
  forall p, In p (evaluation_points method x0 h' o') -> in_box lb ub p.
Proof.
  intros Hm p Hp. unfold evaluation_points in Hp.
  apply in_flat_map in Hp as (i & Hi & Hp).
  apply in_seq in Hi. destruct Hi as [_ Hi]. cbn in Hi.
  assert (Hoi : exists ok, nth_error o' i = Some ok).
  { destruct (nth_error o' i) eqn:E; [eauto|].
    apply nth_error_None in E. lia. }
  destruct Hoi as [ok Hok].
  assert (Hnth : nth i o' false = ok) by (now apply nth_error_nth).
  unfold points_of_variable in Hp. rewrite Hnth in Hp.
  assert (Hid : forall d : vec, d = map (fun v => v) d)
    by (intros; now rewrite map_id).
  destruct Hm as [-> | ->]; cbn [String.eqb Ascii.eqb Bool.eqb] in Hp.
  - destruct Hp as [<- | []].
    rewrite (Hid (NpB.diag_row h' i)).
    apply perturbed_in_box; auto using add_zero_r.
    intros x hk l u Hx Hh Hl Hu.
    exact (Hvar _ Hx Hh Hok Hl Hu).
  - destruct ok.
    + destruct Hp as [<- | [<- | []]].
      * rewrite (Hid (NpB.diag_row h' i)).
        apply perturbed_in_box; auto using add_zero_r.
        intros x hk l u Hx Hh Hl Hu.
        exact (proj1 (Hvar _ Hx Hh Hok Hl Hu)).
      * apply perturbed_in_box; auto.
        -- intros q. rewrite two_mul_zero. apply add_zero_r.
        -- intros x hk l u Hx Hh Hl Hu.
           exact (proj2 (Hvar _ Hx Hh Hok Hl Hu)).
    + destruct Hp as [<- | [<- | []]].
      * rewrite (Hid (NpB.diag_row h' i)).
        apply perturbed_in_box; auto using sub_zero_r.
        intros x hk l u Hx Hh Hl Hu.
        exact (proj1 (Hvar _ Hx Hh Hok Hl Hu)).
      * rewrite (Hid (NpB.diag_row h' i)).
        apply perturbed_in_box; auto using add_zero_r.
        intros x hk l u Hx Hh Hl Hu.
        exact (proj2 (Hvar _ Hx Hh Hok Hl Hu)).
Qed.

End PointsInBox.

Lemma in_bounds_unbounded (q : Qc) : in_bounds NInf PInf (Fin q).
Proof. split; reflexivity. Qed.

(** The planner in exact arithmetic.  For every finite starting point
    inside the bounds, the step vector and the one-sided mask returned by
    [_adjust_scheme_to_bounds] (one step, with the scheme of the method)
    are such that every point of the scheme -- [x0 + h e_i] for the
    2-point method; [x0 + h e_i] and [x0 + 2 h e_i] for a one-sided
    variable, [x0 - h e_i] and [x0 + h e_i] for a central variable of
    the 3-point method -- lies between the bounds in every coordinate,
    whatever bounds are finite or infinite.  This is what the planner is
    built for; it is a statement on rationals, where no operation
    rounds, and [binary64_clamped_step_leaves_bounds] below shows that
    it does not carry over to the binary64 numbers of the source. *)
Theorem exact_planner_respects_bounds :
  forall method x0 h lb ub,
    method = "2-point" \/ method = "3-point" ->
    all_finite x0 -> all_finite h ->
    length h = length x0 -> length lb = length x0 ->
    length ub = length x0 ->
    in_box lb ub x0 ->
    exists h' o',
      _adjust_scheme_to_bounds x0 h 1 (scheme_of method) lb ub
        = Ok (h', o') /\
      forall p, In p (evaluation_points method x0 h' o') -> in_box lb ub p.
Proof.
  intros method x0 h lb ub Hm Hfx Hfh Hlh Hllb Hlub Hbox.
  assert (Hex : exists h' o',
             _adjust_scheme_to_bounds x0 h 1 (scheme_of method) lb ub
             = Ok (h', o')).
  { destruct Hm as [-> | ->]; unfold _adjust_scheme_to_bounds, scheme_of;
      cbn [String.eqb Ascii.eqb Bool.eqb bind];
      destruct (Np.all _); eauto. }
  destruct Hex as (h' & o' & Heq). exists h', o'. split; [exact Heq|].
  destruct (adjust_lengths _ _ _ _ _ _ eq_refl Hlh Hllb Hlub Heq)
    as [Hlh' Hlo'].
  apply points_in_box; auto.
  intros k x hk ok l u Hx Hh Ho Hl Hu.
  destruct (all_finite_nth _ Hfx Hx) as [qx ->].
  assert (Hhk0 : exists q, nth_error h k = Some (Fin q)).
  { destruct (nth_error h k) as [v|] eqn:E.
    - destruct (all_finite_nth _ Hfh E) as [q ->]. eauto.
    - apply nth_error_None in E.
      assert (k < length x0)%nat by (apply nth_error_Some; congruence). lia. }
  destruct Hhk0 as [qh Hh0].
  destruct Hbox as [_ Hb]. destruct (Hb _ _ _ _ Hl Hu Hx) as [Hlx Hxu].
  destruct (Np.all ((lb ==^ NInf) & (ub ==^ PInf))%V) eqn:Hall.
  - (* every variable unbounded: the step is returned as it is *)
    destruct (all_unbounded_nth _ _ _ Hall Hl Hu) as [-> ->].
    revert Heq. destruct Hm as [-> | ->];
      unfold _adjust_scheme_to_bounds, scheme_of, variable_ok;
      cbn [String.eqb Ascii.eqb Bool.eqb bind]; rewrite Hall;
      intros [= <- <-].
    + rewrite Hh0 in Hh. injection Hh as <-. apply in_bounds_unbounded.
    + unfold vabs, Np.zeros_like_bool in Hh, Ho.
      rewrite !nth_error_map, Hh0 in Ho. injection Ho as <-.
      rewrite nth_error_map, Hh0 in Hh. injection Hh as <-.
      split; apply in_bounds_unbounded.
  - destruct Hm as [-> | ->]; unfold scheme_of, variable_ok in *;
      cbn [String.eqb Ascii.eqb Bool.eqb] in * .
    + destruct (@adjust_one_sided_nth _ _ 1%Z _ _ _ _ _ _ _ Hall Hx Hh0 Hl Hu)
        as (h'' & o'' & Heq' & Hn & _).
      rewrite Heq in Heq'. injection Heq' as <- <-.
      rewrite Hh in Hn. injection Hn as ->.
      apply one_sided_in_bounds; assumption.
    + destruct (@adjust_two_sided_nth _ _ 1%Z _ _ _ _ _ _ _ Hall Hx Hh0 Hl Hu)
        as (h'' & o'' & Heq' & Hn & Hn').
      rewrite Heq in Heq'. injection Heq' as <- <-.
      rewrite Hh in Hn. injection Hn as ->.
      rewrite Ho in Hn'. injection Hn' as ->.
      apply two_sided_in_bounds; assumption.
Qed.

Lemma exact_planner_respects_bounds_witness :
  exists h' o',
    _adjust_scheme_to_bounds [one; zero] [half; half] 1 "2-sided"
                             [zero; NInf] [PInf; zero]
      = Ok (h', o') /\
    forall p, In p (evaluation_points "3-point" [one; zero] h' o') ->
              in_box [zero; NInf] [PInf; zero] p.
Proof.
  apply (@exact_planner_respects_bounds "3-point" [one; zero] [half; half]
           [zero; NInf] [PInf; zero]).
  - right; reflexivity.
  - repeat constructor.
  - repeat constructor.
  - reflexivity.
  - reflexivity.
  - reflexivity.
  - split; [reflexivity|].
    intros [|[|i]] l u pi Hl Hu Hp; cbn in Hl, Hu, Hp;
      [ | | destruct i; discriminate ];
      injection Hl as <-; injection Hu as <-; injection Hp as <-;
      split; reflexivity.
Defined.

(* ================================================================== *)
(** * The absolute step (C7) *)
(* ================================================================== *)

Lemma zip_with_map_map {A B C D} (f : B -> C -> D) (g : A -> B) (k : A -> C) l :
  Np.zip_with f (map g l) (map k l) = map (fun x => f (g x) (k x)) l.
Proof.
  unfold Np.zip_with. induction l as [|a l IH]; simpl; [reflexivity|].
  now rewrite IH.
Qed.

Lemma broadcast_scalar {A} (f : A -> A -> A) (r : A) (b : list A) :
  NpB.broadcast f [r] b = Ok (map (f r) b).
Proof.
  unfold NpB.broadcast. destruct b as [|y [|z b]]; reflexivity.
Qed.

Lemma broadcast_same_length {A} (f : A -> A -> A) (a b : list A) :
  length a = length b -> NpB.broadcast f a b = Ok (Np.zip_with f a b).
Proof.
  intros H. unfold NpB.broadcast. rewrite H, Nat.eqb_refl. reflexivity.
Qed.

Lemma sign_from_mask (x : xreal) :
  (astype_float (x >=? zero) * two - one)%X = sign_of x.
Proof.
  unfold sign_of. destruct (x >=? zero)%X; xr_compute.
Qed.

Lemma absolute_step_of (r : xreal) (x0 : vec) :
  bind (NpB.broadcast Xr.mul [r]
          (map (fun b => (astype_float b * two - one)%X)
               (map (fun x => (x >=? zero)%X) x0)))
       (fun rs => NpB.broadcast Xr.mul rs (map (Xr.maximum one) (vabs x0)))
  = Ok (map (fun x => (r * sign_of x * Xr.maximum one (Xr.abs x))%X) x0).
Proof.
  rewrite broadcast_scalar. cbn [bind].
  rewrite broadcast_same_length by (unfold vabs; now rewrite !length_map).
  f_equal. unfold vabs. rewrite !map_map.
  rewrite zip_with_map_map.
  apply map_ext. intros x. now rewrite sign_from_mask.
Qed.

(** C7: when no relative step is supplied, the relative step is
    [EPS ** 0.5] for the 2-point method and [EPS ** (1/3)] for the 3-point
    method, and the absolute step of variable [i] is
    [rel_step * sign(x0_i) * max(1, |x0_i|)] with [sign(x0_i) = +1] if
    [x0_i >= 0] and [-1] otherwise. *)
Theorem default_absolute_step :
  forall (float_pow : xreal -> xreal -> xreal) (x0 : vec),
    _compute_absolute_step float_pow None x0 "2-point"
    = Ok (map (fun x => (float_pow EPS half * sign_of x
                         * Xr.maximum one (Xr.abs x))%X) x0)
    /\
    _compute_absolute_step float_pow None x0 "3-point"
    = Ok (map (fun x => (float_pow EPS (one / three) * sign_of x
                         * Xr.maximum one (Xr.abs x))%X) x0).
Proof.
  intros float_pow x0. unfold _compute_absolute_step.
  cbn [String.eqb Ascii.eqb Bool.eqb bind].
  split; apply absolute_step_of.
Qed.

(* ================================================================== *)
(** * Column grouping (C4, C9) *)
(* ================================================================== *)

Module Greedy.

Lemma filter_above_shrinks g used :
  In g used ->
  (length (filter (fun x => S g <=? x)%nat used)
   < length (filter (fun x => g <=? x)%nat used))%nat.
Proof.
  induction used as [|a used IH]; [intros []|].
  assert (Hle : (length (filter (fun x => S g <=? x)%nat used)
                 <= length (filter (fun x => g <=? x)%nat used))%nat).
  { clear. induction used as [|b used IH]; cbn [filter length]; [lia|].
    destruct (Nat.leb_spec (S g) b), (Nat.leb_spec g b);
      cbn [length]; lia. }
  intros [-> | Hin]; cbn [filter length].
  - rewrite Nat.leb_refl.
    destruct (Nat.leb_spec (S g) g); [lia|]. cbn [length]. lia.
  - specialize (IH Hin).
    destruct (Nat.leb_spec (S g) a), (Nat.leb_spec g a);
      cbn [length]; lia.
Qed.

Lemma existsb_eqb_In g used :
  existsb (Nat.eqb g) used = true <-> In g used.
Proof.
  rewrite existsb_exists. split.
  - intros (x & Hx & E). apply Nat.eqb_eq in E. now subst.
  - intros H. exists g. split; [exact H | apply Nat.eqb_refl].
Qed.

(** The search returns the lowest id from [g] on that [used] lacks. *)
Lemma lowest_absent_spec fuel : forall g used,
  (length (filter (fun x => g <=? x)%nat used) <= fuel)%nat ->
  let r := lowest_absent fuel g used in
  (g <= r)%nat /\ ~ In r used /\
  forall k, (g <= k < r)%nat -> In k used.
Proof.
  induction fuel as [|fuel IH]; intros g used Hlen; cbn [lowest_absent].
  - repeat split; [lia | | intros k Hk; lia].
    intros Hin.
    assert (In g (filter (fun x => g <=? x)%nat used)).
    { apply filter_In. split; [exact Hin | apply Nat.leb_refl]. }
    destruct (filter (fun x => g <=? x)%nat used); [contradiction|].
    simpl in Hlen. lia.
  - destruct (existsb (Nat.eqb g) used) eqn:E.
    + apply existsb_eqb_In in E.
      pose proof (@filter_above_shrinks _ _ E) as Hlt.
      destruct (@IH (S g) used ltac:(lia)) as (H1 & H2 & H3).
      repeat split; [lia | exact H2 |].
      intros k Hk. destruct (Nat.eq_dec k g) as [-> | Hne]; [exact E|].
      apply H3. lia.
    + repeat split; [lia | | intros k Hk; lia].
      intros Hin. apply existsb_eqb_In in Hin. congruence.
Qed.

Lemma lowest_absent_from_zero used :
  let r := lowest_absent (length used) 0 used in
  ~ In r used /\ forall k, (k < r)%nat -> In k used.
Proof.
  destruct (@lowest_absent_spec (length used) 0%nat used) as (_ & H2 & H3).
  - apply filter_length_le.
  - split; [exact H2|]. intros k Hk. apply H3. lia.
Qed.

Lemma in_combine_seq {A} (l : list A) k v :
  In (k, v) (combine (seq 0 (length l)) l) <-> nth_error l k = Some v.
Proof.
  split.
  - intros H. apply In_nth_error in H as [i Hi].
    rewrite nth_error_combine_both in Hi.
    destruct (nth_error (seq 0 (length l)) i) as [k'|] eqn:Es; [|discriminate].
    destruct (nth_error l i) as [v'|] eqn:El; [|discriminate].
    injection Hi as -> ->.
    rewrite nth_error_seq in Es.
    destruct (i <? length l)%nat; [|discriminate].
    injection Es as <-. exact El.
  - intros H. apply nth_error_In with (n := k).
    rewrite nth_error_combine_both, H, nth_error_seq.
    assert (k < length l)%nat by (apply nth_error_Some; congruence).
    apply Nat.ltb_lt in H0. rewrite H0. reflexivity.
Qed.

Lemma greedy_groups_S conflict n :
  greedy_groups conflict (S n)
  = greedy_step conflict (greedy_groups conflict n) n.
Proof.
  unfold greedy_groups. rewrite seq_S, fold_left_app. reflexivity.
Qed.

Lemma greedy_coloured conflict n :
  coloured conflict n (greedy_groups conflict n).
Proof.
  induction n as [|n IH].
  - repeat split; intros; lia.
  - rewrite greedy_groups_S. destruct IH as (Hlen & Hproper & Hdown).
    set (gs := greedy_groups conflict n) in *.
    unfold greedy_step.
    set (used := map snd (filter (fun kg => conflict (fst kg) n)
                                 (combine (seq 0 n) gs))).
    assert (Hused : forall g, In g used <->
              exists k, (k < n)%nat /\ conflict k n = true /\
                        nth k gs 0%nat = g).
    { intros g. unfold used. rewrite in_map_iff. split.
      - intros ([k v] & Hv & Hin). cbn in Hv. subst v.
        apply filter_In in Hin as [Hin Hc]. cbn in Hc.
        rewrite <- Hlen in Hin. apply in_combine_seq in Hin.
        exists k. repeat split; auto.
        + rewrite <- Hlen. apply nth_error_Some. congruence.
        + now apply nth_error_nth.
      - intros (k & Hk & Hc & Hg). exists (k, g). split; [reflexivity|].
        apply filter_In. split; [|exact Hc].
        rewrite <- Hlen. apply in_combine_seq.
        rewrite <- Hg. apply nth_error_nth'. lia. }
    destruct (lowest_absent_from_zero used) as [Habs Hlow].
    set (g := lowest_absent (length used) 0 used) in *.
    assert (Hnth_old : forall k, (k < n)%nat ->
              nth k (gs ++ [g]) 0%nat = nth k gs 0%nat).
    { intros k Hk. apply app_nth1. lia. }
    assert (Hnth_new : nth n (gs ++ [g]) 0%nat = g).
    { rewrite app_nth2 by lia. rewrite Hlen, Nat.sub_diag. reflexivity. }
    repeat split.
    + rewrite length_app, Hlen. simpl. lia.
    + intros k j Hkj Hc.
      destruct (Nat.eq_dec j n) as [-> | Hne].
      * rewrite Hnth_new, Hnth_old by lia. intros E.
        apply Habs. apply Hused. exists k. repeat split; auto. lia.
      * rewrite !Hnth_old by lia. apply Hproper; auto. lia.
    + intros j g' Hj Hg'.
      destruct (Nat.eq_dec j n) as [-> | Hne].
      * rewrite Hnth_new in Hg'.
        apply Hlow in Hg'. apply Hused in Hg' as (k & Hk & _ & Hg').
        exists k. split; [exact Hk|]. now rewrite Hnth_old.
      * rewrite Hnth_old in Hg' by lia.
        destruct (Hdown j g' ltac:(lia) Hg') as (k & Hk & Hg'').
        exists k. split; [exact Hk|]. rewrite Hnth_old by lia. exact Hg''.
Qed.

End Greedy.

Module Scatter.

Lemma length_set_nth {A} (a : list A) i v :
  length (NpB.set_nth a i v) = length a.
Proof.
  revert i. induction a as [|x a IH]; intros [|i]; simpl; auto.
Qed.

Lemma nth_set_nth_eq {A} (a : list A) i v d :
  (i < length a)%nat -> nth i (NpB.set_nth a i v) d = v.
Proof.
  revert i. induction a as [|x a IH]; intros [|i] H; simpl in *; try lia.
  - reflexivity.
  - apply IH. lia.
Qed.

Lemma nth_set_nth_neq {A} (a : list A) i j v d :
  i <> j -> nth j (NpB.set_nth a i v) d = nth j a d.
Proof.
  revert i j. induction a as [|x a IH]; intros [|i] [|j] H; simpl; auto.
  congruence.
Qed.

Lemma length_scatter {A} (order : list nat) : forall (a values : list A),
  length (scatter a order values) = length a.
Proof.
  unfold scatter.
  induction order as [|o order IH]; intros a [|v values]; simpl; auto.
  rewrite IH. apply length_set_nth.
Qed.

Lemma nth_scatter_other {A} (order : list nat) :
  forall (a values : list A) j d,
    ~ In j order -> nth j (scatter a order values) d = nth j a d.
Proof.
  unfold scatter.
  induction order as [|o order IH]; intros a [|v values] j d Hj; simpl; auto.
  rewrite IH by (intros H; apply Hj; now right).
  apply nth_set_nth_neq. intros ->. apply Hj. now left.
Qed.

(** After [a[order] = values] with distinct indices, cell [order[k]]
    holds [values[k]]. *)
Lemma nth_scatter {A} (order : list nat) :
  forall (a values : list A) k d,
    NoDup order -> length values = length order ->
    (forall o, In o order -> (o < length a)%nat) ->
    (k < length order)%nat ->
    nth (nth k order 0%nat) (scatter a order values) d = nth k values d.
Proof.
  induction order as [|o order IH]; intros a values k d Hnd Hlen Hin Hk;
    [simpl in Hk; lia|].
  destruct values as [|v values]; [discriminate|].
  inversion Hnd as [|? ? Hno Hnd']; subst.
  change (scatter a (o :: order) (v :: values))
    with (scatter (NpB.set_nth a o v) order values).
  destruct k as [|k]; cbn [nth].
  - rewrite nth_scatter_other by exact Hno.
    apply nth_set_nth_eq. apply Hin. now left.
  - apply IH;
      [ exact Hnd' | simpl in Hlen; lia
      | intros o' Ho'; rewrite length_set_nth; apply Hin; now right
      | simpl in Hk; lia ].
Qed.

End Scatter.

Module GroupCount.

Lemma fold_max_ge t : forall x,
  (x <= fold_left Nat.max t x)%nat /\
  (forall y, In y t -> (y <= fold_left Nat.max t x)%nat).
Proof.
  induction t as [|a t IH]; intros x; simpl.
  - split; [lia | intros y []].
  - destruct (IH (Nat.max x a)) as [H1 H2]. split; [lia|].
    intros y [-> | Hy]; [lia | now apply H2].
Qed.

Lemma fold_max_in t : forall x, In (fold_left Nat.max t x) (x :: t).
Proof.
  induction t as [|a t IH]; intros x; simpl; [now left|].
  destruct (IH (Nat.max x a)) as [H | H].
  - revert H. generalize (fold_left Nat.max t (Nat.max x a)). intros v H.
    destruct (Nat.max_spec x a) as [[_ E] | [_ E]].
    + right; left. congruence.
    + left. congruence.
  - right; right. exact H.
Qed.

Lemma n_groups_bound l j :
  (j < length l)%nat -> (nth j l 0 < n_groups l)%nat.
Proof.
  destruct l as [|x t]; [simpl; lia|]. intros Hj.
  destruct (fold_max_ge t x) as [H1 H2]. cbn [n_groups].
  destruct j as [|j]; cbn [nth]; [lia|].
  assert (In (nth j t 0%nat) t) by (apply nth_In; simpl in Hj; lia).
  specialize (H2 _ H). lia.
Qed.

Lemma n_groups_attained l :
  l <> [] -> exists j, (j < length l)%nat /\ S (nth j l 0%nat) = n_groups l.
Proof.
  destruct l as [|x t]; [congruence|]. intros _.
  destruct (In_nth _ _ 0%nat (fold_max_in t x)) as (j & Hj & E).
  exists j. split; [exact Hj|]. cbn [n_groups]. now rewrite E.
Qed.

End GroupCount.

Section GroupingOfPermutation.

Variables (conflict : nat -> nat -> bool) (n : nat) (order gs : list nat).
Variable shared : nat -> nat -> Prop.
Hypothesis Hperm : Permutation order (seq 0 n).
Hypothesis Hcol : coloured conflict n gs.
Hypothesis Hsym : forall a b, shared a b -> shared b a.
Hypothesis Hconf :
  forall ka kb, (ka < n)%nat -> (kb < n)%nat ->
    shared (nth ka order 0%nat) (nth kb order 0%nat) ->
    conflict ka kb = true.

Let groups := scatter gs order gs.

Lemma order_length : length order = n.
Proof. rewrite (Permutation_length Hperm). apply length_seq. Qed.

Lemma order_nodup : NoDup order.
Proof.
  apply (Permutation_NoDup (Permutation_sym Hperm)). apply seq_NoDup.
Qed.

Lemma order_range o : In o order -> (o < n)%nat.
Proof.
  intros H. apply (Permutation_in _ Hperm) in H. apply in_seq in H. lia.
Qed.

Lemma order_onto j : (j < n)%nat ->
  exists k, (k < n)%nat /\ nth k order 0%nat = j.
Proof.
  intros Hj.
  assert (In j order).
  { apply (Permutation_in _ (Permutation_sym Hperm)). apply in_seq. lia. }
  destruct (In_nth _ _ 0%nat H) as (k & Hk & E).
  exists k. rewrite order_length in Hk. auto.
Qed.

Lemma groups_at k : (k < n)%nat ->
  nth (nth k order 0%nat) groups 0%nat = nth k gs 0%nat.
Proof.
  intros Hk. destruct Hcol as (Hlen & _). unfold groups.
  apply Scatter.nth_scatter.
  - exact order_nodup.
  - now rewrite order_length.
  - intros o Ho. rewrite Hlen. now apply order_range.
  - now rewrite order_length.
Qed.

Lemma groups_length : length groups = n.
Proof.
  unfold groups. rewrite Scatter.length_scatter. apply Hcol.
Qed.

Lemma grouping_of_permutation :
  length groups = n /\
  (forall j, (j < n)%nat -> (nth j groups 0 < n_groups groups)%nat) /\
  (forall g, (g < n_groups groups)%nat ->
             exists j, (j < n)%nat /\ nth j groups 0%nat = g) /\
  (forall a b, (a < n)%nat -> (b < n)%nat -> a <> b ->
               nth a groups 0%nat = nth b groups 0%nat -> ~ shared a b).
Proof.
  destruct Hcol as (Hlen & Hproper & Hdown).
  split; [exact groups_length|]. split; [|split].
  - intros j Hj. apply GroupCount.n_groups_bound.
    now rewrite groups_length.
  - intros g Hg.
    assert (Hne : groups <> []).
    { intros E. rewrite E in Hg. simpl in Hg. lia. }
    destruct (GroupCount.n_groups_attained Hne) as (j & Hj & E).
    rewrite groups_length in Hj.
    destruct (order_onto Hj) as (k & Hk & Ek). subst j.
    rewrite groups_at in E by exact Hk.
    destruct (Nat.eq_dec g (nth k gs 0%nat)) as [-> | Hneq].
    + exists (nth k order 0%nat). split.
      * apply order_range. apply nth_In. now rewrite order_length.
      * now apply groups_at.
    + destruct (Hdown k g Hk ltac:(lia)) as (k' & Hk' & Eg).
      exists (nth k' order 0%nat). split.
      * apply order_range. apply nth_In. rewrite order_length. lia.
      * rewrite groups_at by lia. exact Eg.
  - intros a b Ha Hb Hab Heq Hsh.
    destruct (order_onto Ha) as (ka & Hka & Ea).
    destruct (order_onto Hb) as (kb & Hkb & Eb). subst a b.
    rewrite !groups_at in Heq by assumption.
    assert (Hk : ka <> kb) by congruence.
    destruct (Nat.lt_total ka kb) as [Hlt | [-> | Hlt]]; [|congruence|].
    + apply (Hproper ka kb); auto.
    + apply (Hproper kb ka); auto.
Qed.

End GroupingOfPermutation.

Lemma take_columns_permutation {T} (A : matrix T) order :
  Permutation order (seq 0 (n_cols A)) ->
  take_columns A order
  = Ok (Matrix (n_rows A) (length order)
               (fun r k => cell A r (nth k order 0%nat))).
Proof.
  intros Hperm. unfold take_columns.
  replace (forallb (fun c => (c <? n_cols A)%nat) order) with true;
    [reflexivity|].
  symmetry. apply forallb_forall. intros c Hc. apply Nat.ltb_lt.
  apply (Permutation_in _ Hperm) in Hc. apply in_seq in Hc. lia.
Qed.

Lemma nth_csc_columns (A : smatrix) k :
  (k < n_cols A)%nat ->
  nth k (csc_columns A) []
  = filter (fun r => match cell A r k with Some _ => true | None => false end)
           (seq 0 (n_rows A)).
Proof.
  intros Hk. unfold csc_columns.
  erewrite nth_error_nth; [reflexivity|].
  rewrite nth_error_map, nth_error_seq.
  apply Nat.ltb_lt in Hk. rewrite Hk. reflexivity.
Qed.

(** C4: for every sparsity pattern and every permutation given as
    [order], [group_columns] returns a vector that gives each column one
    group id below the number [G] of groups, uses every id below [G], and
    never puts in one group two columns that both have a structurally
    nonzero entry in some row.  (The kernels are the greedy colouring the
    specification describes.) *)
Theorem group_columns_invariant :
  forall (shuffle : list nat -> list nat) (A : matrix_like)
         (order : list nat),
    is_2d A = true ->
    Permutation order (seq 0 (pattern_cols A)) ->
    exists groups,
      group_columns shuffle A (Some order) = Ok groups /\
      length groups = pattern_cols A /\
      (forall j, (j < pattern_cols A)%nat ->
                 (nth j groups 0 < n_groups groups)%nat) /\
      (forall g, (g < n_groups groups)%nat ->
                 exists j, (j < pattern_cols A)%nat /\ nth j groups 0%nat = g) /\
      (forall a b r,
          (a < pattern_cols A)%nat -> (b < pattern_cols A)%nat -> a <> b ->
          (r < pattern_rows A)%nat ->
          nth a groups 0%nat = nth b groups 0%nat ->
          structurally_nonzero A r a = true ->
          structurally_nonzero A r b = true -> False).
Proof.
  intros shuffle A order H2d Hperm.
  assert (Hlen : length order = pattern_cols A).
  { rewrite (Permutation_length Hperm). apply length_seq. }
  destruct A as [A | A | k]; [| |discriminate]; cbn [pattern_cols pattern_rows] in * .
  - (* dense pattern *)
    unfold group_columns.
    rewrite take_columns_permutation by exact Hperm.
    cbn [bind pattern_int32 n_cols n_rows].
    rewrite Hlen, Nat.eqb_refl. cbn [negb].
    eexists. split; [reflexivity|].
    unfold group_dense.
    match goal with |- context [greedy_groups ?c ?n] =>
      pose proof (Greedy.greedy_coloured c n) as Hcol;
      destruct (@grouping_of_permutation c n order (greedy_groups c n)
                  (fun a b => exists r, (r < n_rows A)%nat /\
                                nonzero (cell A r a) = true /\
                                nonzero (cell A r b) = true)
                  Hperm Hcol) as (H1 & H2 & H3 & H4)
    end.
    + intros a b (r & Hr & Ha & Hb). exists r. auto.
    + intros ka kb Hka Hkb (r & Hr & Ha & Hb).
      apply existsb_exists. exists r. split; [apply in_seq; lia|].
      unfold pattern_int32. cbn [cell]. rewrite Ha, Hb. reflexivity.
    + repeat split; auto.
      intros a b r Ha Hb Hab Hr Heq Hza Hzb.
      apply (H4 a b Ha Hb Hab Heq). exists r. auto.
  - (* sparse pattern *)
    unfold group_columns.
    rewrite take_columns_permutation by exact Hperm.
    cbn [bind n_cols n_rows].
    rewrite Hlen, Nat.eqb_refl. cbn [negb].
    eexists. split; [reflexivity|].
    unfold group_sparse.
    match goal with |- context [greedy_groups ?c ?n] =>
      pose proof (Greedy.greedy_coloured c n) as Hcol;
      destruct (@grouping_of_permutation c n order (greedy_groups c n)
                  (fun a b => exists r, (r < n_rows A)%nat /\
                                cell A r a <> None /\ cell A r b <> None)
                  Hperm Hcol) as (H1 & H2 & H3 & H4)
    end.
    + intros a b (r & Hr & Ha & Hb). exists r. auto.
    + intros ka kb Hka Hkb (r & Hr & Ha & Hb).
      rewrite !nth_csc_columns by (cbn [n_cols]; lia).
      cbn [n_rows cell].
      apply existsb_exists. exists r. split.
      * apply filter_In. split; [apply in_seq; lia|].
        destruct (cell A r (nth ka order 0%nat)); congruence.
      * apply Greedy.existsb_eqb_In. apply filter_In.
        split; [apply in_seq; lia|].
        destruct (cell A r (nth kb order 0%nat)); congruence.
    + repeat split; auto.
      intros a b r Ha Hb Hab Hr Heq Hza Hzb.
      apply (H4 a b Ha Hb Hab Heq). exists r.
      cbn [structurally_nonzero] in Hza, Hzb.
      repeat split; [exact Hr | |].
      * destruct (cell A r a); congruence.
      * destruct (cell A r b); congruence.
Qed.

Lemma group_columns_invariant_witness :
  exists groups,
    group_columns (fun l => l)
      (DenseM (of_rows zero 2 3 [[one; zero; one]; [one; one; zero]]))
      (Some [2; 0; 1]%nat) = Ok groups /\
    length groups = 3%nat /\
    (forall a b r, (a < 3)%nat -> (b < 3)%nat -> a <> b -> (r < 2)%nat ->
       nth a groups 0%nat = nth b groups 0%nat ->
       structurally_nonzero
         (DenseM (of_rows zero 2 3 [[one; zero; one]; [one; one; zero]]))
         r a = true ->
       structurally_nonzero
         (DenseM (of_rows zero 2 3 [[one; zero; one]; [one; one; zero]]))
         r b = true -> False).
Proof.
  destruct (@group_columns_invariant (fun l => l)
              (DenseM (of_rows zero 2 3 [[one; zero; one]; [one; one; zero]]))
              [2; 0; 1]%nat)
    as (groups & Heq & Hlen & _ & _ & Hfree).
  - reflexivity.
  - cbn [pattern_cols of_rows n_cols seq].
    apply Permutation_sym.
    change [2; 0; 1]%nat with ([2]%nat ++ [0; 1]%nat).
    change [0; 1; 2]%nat with ([0; 1]%nat ++ [2]%nat).
    apply Permutation_app_comm.
  - exists groups. repeat split; [exact Heq | exact Hlen | exact Hfree].
Defined.

(** C9: with an explicit order, what [group_columns] returns does not
    depend on the random source: two calls with the same matrix and the
    same order return the same vector. *)
Theorem group_columns_deterministic :
  forall (shuffle1 shuffle2 : list nat -> list nat) (A : matrix_like)
         (order : list nat),
    group_columns shuffle1 A (Some order)
    = group_columns shuffle2 A (Some order).
Proof.
  intros shuffle1 shuffle2 [A | A | k] order; reflexivity.
Qed.

(* ================================================================== *)
(** * Validation in approx_derivative (C2) *)
(* ================================================================== *)

(** C2, as stated, fails for a point outside the bounds when [f0] is not
    supplied: [f0 = fun(x0)] is evaluated before the bounds are checked.
    With [x0 = 1] and bounds [(2, 3)] the function is called once, at
    [x0], and only then the bound violation is raised. *)
Lemma bound_check_after_first_call :
  let run :=
    approx_derivative (fun _ _ => half) (fun _ => Ok (Scalar zero))
      (Scalar one) "3-point" None None (Scalar two, Scalar three) None in
  calls run = [[one]] /\
  outcome run = Raise (ValueError "`x0` violates bound constraints.").
Proof. split; reflexivity. Qed.

Lemma method_not_recognised method :
  method <> "2-point" -> method <> "3-point" ->
  existsb (String.eqb method) ["2-point"; "3-point"] = false.
Proof.
  intros H2 H3. cbn [existsb].
  apply String.eqb_neq in H2, H3. now rewrite H2, H3.
Qed.

Lemma method_recognised method :
  method = "2-point" \/ method = "3-point" ->
  existsb (String.eqb method) ["2-point"; "3-point"] = true.
Proof. intros [-> | ->]; reflexivity. Qed.

(** C2 (amended): a malformed method, a point of more than one dimension
    and a shape mismatch between bounds and point raise a validation
    error before the user function is called at all; so does a point
    outside the bounds when [f0] is supplied.  When [f0] is not supplied,
    a point outside the bounds is reported after the single evaluation
    [f0 = fun(x0)], provided that evaluation returns an array of at most
    one dimension (otherwise its own failure is what is raised). *)
Theorem approx_derivative_validation :
  forall (float_pow : xreal -> xreal -> xreal) (fun_ : user_fun)
         (x0 : array_like) (method : string) (rel_step : option vec)
         (f0 : option array_like) (bounds : array_like * array_like)
         (sparsity : option (matrix_like * list nat)) (tr : list vec),
    let run :=
      approx_derivative float_pow fun_ x0 method rel_step f0 bounds sparsity
                        tr in
    (method <> "2-point" -> method <> "3-point" ->
     run = (tr, Raise (ValueError "`method` must be '2-point' or '3-point'.")))
    /\
    (method = "2-point" \/ method = "3-point" ->
     (as_1d x0 = None ->
      run = (tr, Raise (ValueError "`x0` must have at most 1 dimension.")))
     /\
     (forall x, as_1d x0 = Some x ->
        (with_shape_of x (fst (_prepare_bounds bounds x)) = None \/
         with_shape_of x (snd (_prepare_bounds bounds x)) = None) ->
        run = (tr, Raise (ValueError
                 "Inconsistent shapes between bounds and `x0`.")))
     /\
     (forall x lb ub,
        as_1d x0 = Some x ->
        with_shape_of x (fst (_prepare_bounds bounds x)) = Some lb ->
        with_shape_of x (snd (_prepare_bounds bounds x)) = Some ub ->
        Np.any ((x <? lb) ||| (x >? ub))%V = true ->
        (forall f0v, f0 = Some f0v ->
           exists msg, run = (tr, Raise (ValueError msg)))
        /\
        (f0 = None ->
           run = (tr ++ [x],
                  Raise (match fun_ x with
                         | Raise e => e
                         | Ok f =>
                             match as_1d f with
                             | None => RuntimeError
                                 "`fun` return value has more than 1 dimension."
                             | Some _ => ValueError
                                 "`x0` violates bound constraints."
                             end
                         end))))).
Proof.
  intros float_pow fun_ x0 method rel_step f0 bounds sparsity tr run.
  subst run. unfold approx_derivative. split.
  - intros H2 H3. rewrite (method_not_recognised H2 H3). reflexivity.
  - intros Hm. rewrite (method_recognised Hm). cbn [negb].
    split; [|split].
    + intros ->. reflexivity.
    + intros x -> Hshape.
      destruct (_prepare_bounds bounds x) as [lb ub]. cbn [fst snd] in Hshape.
      destruct Hshape as [-> | ->]; [reflexivity|].
      destruct (with_shape_of x lb); reflexivity.
    + intros x lb ub -> Hlb Hub Hany.
      destruct (_prepare_bounds bounds x) as [lb' ub'].
      cbn [fst snd] in Hlb, Hub. rewrite Hlb, Hub. split.
      * intros f0v ->. unfold mbind, raise, ret.
        destruct (as_1d f0v).
        -- rewrite Hany. eauto.
        -- eauto.
      * intros ->. unfold mbind, fun_wrapped, call, raise, ret, mbind.
        destruct (fun_ x) as [f | e]; [|reflexivity].
        destruct (as_1d f); [|reflexivity].
        rewrite Hany. reflexivity.
Qed.

Lemma approx_derivative_validation_witness :
  approx_derivative (fun _ _ => half) (fun _ => Ok (Scalar zero))
    (Arr1 [one; one]) "3-point" None (Some (Scalar zero))
    (Scalar two, Scalar three) None []
  = ([], Raise (ValueError "`x0` violates bound constraints.")).
Proof.
  destruct (@approx_derivative_validation (fun _ _ => half)
              (fun _ => Ok (Scalar zero)) (Arr1 [one; one]) "3-point" None
              (Some (Scalar zero)) (Scalar two, Scalar three) None [])
    as [_ H].
  destruct (H (or_intror eq_refl)) as (_ & _ & Hb).
  destruct (Hb [one; one] [two; two] [three; three] eq_refl eq_refl eq_refl
               eq_refl) as [Hsup _].
  destruct (Hsup (Scalar zero) eq_refl) as [msg Hmsg].
  rewrite Hmsg. vm_compute in Hmsg. injection Hmsg as <-. reflexivity.
Defined.

(* ================================================================== *)
(** * Running computations *)
(* ================================================================== *)

Lemma mbind_ok {A B} (c : M A) (k : A -> M B) tr tr' a :
  c tr = (tr', Ok a) -> mbind c k tr = k a tr'.
Proof. intros H. unfold mbind. now rewrite H. Qed.

Lemma mbind_raise {A B} (c : M A) (k : A -> M B) tr tr' e :
  c tr = (tr', Raise e) -> mbind c k tr = (tr', Raise e).
Proof. intros H. unfold mbind. now rewrite H. Qed.

Lemma mbind_lift_ok {A B} (a : A) (k : A -> M B) tr :
  mbind (lift (Ok a)) k tr = k a tr.
Proof. reflexivity. Qed.

Lemma fun_wrapped_pure (f : vec -> vec) x tr :
  fun_wrapped (pure_fun f) x tr = (tr ++ [x], Ok (f x)).
Proof. reflexivity. Qed.

Lemma mapM_pure {A B} (fM : A -> M B) (pts : A -> list vec) (g : A -> B) l :
  (forall a tr, In a l -> fM a tr = (tr ++ pts a, Ok (g a))) ->
  forall tr, mapM fM l tr = (tr ++ flat_map pts l, Ok (map g l)).
Proof.
  induction l as [|a l IH]; intros H tr; cbn [mapM flat_map map].
  - unfold ret. now rewrite app_nil_r.
  - rewrite (@mbind_ok _ _ _ _ _ _ _ (H a tr (or_introl eq_refl))).
    rewrite (@mbind_ok _ _ _ _ _ _ _ (IH (fun a' tr' Hin => H a' tr' (or_intror Hin)) _)).
    unfold ret. now rewrite app_assoc.
Qed.

(* ================================================================== *)
(** * The dense differencer on a function without failure *)
(* ================================================================== *)

Section DenseRun.

Variables (f : vec -> vec) (m : nat) (x0 f0 h : vec) (o : mask).
Variable method : string.
Hypothesis Hmethod : method = "2-point" \/ method = "3-point".
Hypothesis Hf0 : length f0 = m.
Hypothesis Hf : forall x, length (f x) = m.
Hypothesis Ho : length o = length h.

Lemma getitem_in_range {T} (a : list T) (i : nat) (d : T) :
  (i < length a)%nat -> getitem a i = Ok (nth i a d).
Proof.
  intros Hi. unfold getitem. now rewrite (nth_error_nth' a d Hi).
Qed.

Lemma dense_step_run c tr :
  (c < length h)%nat ->
  _dense_difference_step (fun_wrapped (pure_fun f)) x0 f0 h o method c tr
  = (tr ++ points_of_variable method x0 h o c,
     Ok (difference_quotient method f x0 f0 h o c)).
Proof.
  intros Hc.
  unfold _dense_difference_step, points_of_variable, difference_quotient.
  unfold mbind, lift, ret, raise, vsub_b, vadd_b.
  destruct Hmethod as [-> | ->]; cbn [String.eqb Ascii.eqb Bool.eqb andb].
  - rewrite fun_wrapped_pure. cbv beta iota.
    rewrite broadcast_same_length by (now rewrite Hf, Hf0).
    cbv beta iota. unfold NpB.broadcast_to.
    rewrite length_map, length_zip_with, Hf, Hf0, Nat.min_id, Nat.eqb_refl.
    reflexivity.
  - rewrite (@getitem_in_range _ o c false) by (now rewrite Ho).
    cbv beta iota.
    destruct (nth c o false); cbn [negb].
    + rewrite fun_wrapped_pure. cbv beta iota.
      rewrite fun_wrapped_pure. cbv beta iota.
      rewrite broadcast_same_length by (now rewrite !length_map, Hf, Hf0).
      cbv beta iota.
      rewrite broadcast_same_length
        by (now rewrite length_zip_with, !length_map, !Hf, Hf0, Nat.min_id).
      cbv beta iota. unfold NpB.broadcast_to.
      rewrite !length_map, !length_zip_with, !length_map, !Hf, Hf0,
              !Nat.min_id, Nat.eqb_refl.
      rewrite <- app_assoc. reflexivity.
    + rewrite fun_wrapped_pure. cbv beta iota.
      rewrite fun_wrapped_pure. cbv beta iota.
      rewrite broadcast_same_length by (now rewrite !Hf).
      cbv beta iota. unfold NpB.broadcast_to.
      rewrite !length_map, !length_zip_with, !Hf, Hf0, !Nat.min_id,
              Nat.eqb_refl.
      rewrite <- app_assoc. reflexivity.
Qed.

(** The calls the dense differencer makes are the evaluation points of
    the scheme, in order, and its rows are the difference quotients. *)
Lemma dense_difference_run tr :
  _dense_difference (fun_wrapped (pure_fun f)) x0 f0 h o method tr
  = (tr ++ evaluation_points method x0 h o,
     Ok (let rows := map (difference_quotient method f x0 f0 h o)
                         (seq 0 (length h)) in
         if (m =? 1)%nat then JVec (concat rows)
         else JDense (Matrix m (length x0)
                        (fun i j => nth i (nth j rows []) NaN)))).
Proof.
  unfold _dense_difference, evaluation_points.
  erewrite mbind_ok;
    [| apply mapM_pure with
         (pts := points_of_variable method x0 h o)
         (g := difference_quotient method f x0 f0 h o);
       intros c tr' Hin; apply dense_step_run;
       apply in_seq in Hin; lia].
  rewrite Hf0. cbv zeta. destruct (m =? 1)%nat; reflexivity.
Qed.

End DenseRun.

(* ================================================================== *)
(** * Arrays as functions of the index *)
(* ================================================================== *)

Module Indexed.

Lemma list_as_map {A} (l : list A) (d : A) :
  l = map (fun k => nth k l d) (seq 0 (length l)).
Proof.
  apply nth_error_ext. intros k. rewrite nth_error_map, nth_error_seq.
  destruct (Nat.ltb_spec k (length l)) as [H|H]; cbn [option_map].
  - now apply nth_error_nth'.
  - now apply nth_error_None.
Qed.

Lemma combine_map_map {A B C} (g : A -> B) (k : A -> C) l :
  combine (map g l) (map k l) = map (fun x => (g x, k x)) l.
Proof. induction l as [|a l IH]; simpl; [reflexivity | now rewrite IH]. Qed.

Lemma where_map_map {A B} (p : A -> bool) (g k : A -> B) l :
  Np.where_ (map p l) (map g l) (map k l)
  = map (fun x => if p x then g x else k x) l.
Proof.
  unfold Np.where_. rewrite combine_map_map, zip_with_map_map. reflexivity.
Qed.

Lemma zeros_as_map n : Np.zeros n = map (fun _ => zero) (seq 0 n).
Proof.
  unfold Np.zeros. generalize 0%nat.
  induction n as [|n IH]; intros s; simpl; [reflexivity|].
  now rewrite <- IH.
Qed.

Lemma repeat_as_map {A} (v : A) n : repeat v n = map (fun _ => v) (seq 0 n).
Proof.
  generalize 0%nat. induction n as [|n IH]; intros s; simpl; [reflexivity|].
  now rewrite <- IH.
Qed.

Lemma nth_map_seq {A} (g : nat -> A) n c d :
  (c < n)%nat -> nth c (map g (seq 0 n)) d = g c.
Proof.
  intros H. apply nth_error_nth.
  rewrite nth_error_map, nth_error_seq.
  apply Nat.ltb_lt in H. now rewrite H.
Qed.

Lemma nth_error_map_seq {A} (g : nat -> A) n c :
  (c < n)%nat -> nth_error (map g (seq 0 n)) c = Some (g c).
Proof.
  intros H. rewrite nth_error_map, nth_error_seq.
  apply Nat.ltb_lt in H. now rewrite H.
Qed.

Lemma where_true_map (p : nat -> bool) n :
  NpB.where_true (map p (seq 0 n)) = filter p (seq 0 n).
Proof.
  unfold NpB.where_true. rewrite length_map, length_seq.
  rewrite <- (map_id (seq 0 n)) at 1.
  rewrite combine_map_map.
  induction (seq 0 n) as [|a l IH]; cbn [map filter snd]; [reflexivity|].
  destruct (p a); cbn [map fst]; now rewrite IH.
Qed.

Lemma filter_eqb_seq c n :
  filter (Nat.eqb c) (seq 0 n) = if (c <? n)%nat then [c] else [].
Proof.
  induction n as [|n IH]; [reflexivity|].
  rewrite seq_S, filter_app, IH. cbn [filter Nat.add].
  destruct (Nat.eqb_spec c n) as [-> | Hne].
  - rewrite Nat.ltb_irrefl.
    destruct (Nat.ltb_spec n (S n)); [reflexivity | lia].
  - destruct (Nat.ltb_spec c n), (Nat.ltb_spec c (S n));
      try lia; now rewrite ?app_nil_r.
Qed.

Lemma filter_none {A} (l : list A) : filter (fun _ => false) l = [].
Proof. induction l; simpl; auto. Qed.

Lemma filter_all {A} (p : A -> bool) (l : list A) :
  (forall a, In a l -> p a = true) -> filter p l = l.
Proof.
  induction l as [|a l IH]; intros H; simpl; [reflexivity|].
  rewrite (H a (or_introl eq_refl)). f_equal. apply IH.
  intros b Hb. apply H. now right.
Qed.

Lemma list_prod_single {A B} (l : list A) (b : B) :
  list_prod l [b] = map (fun a => (a, b)) l.
Proof. induction l as [|a l IH]; simpl; [reflexivity | now rewrite IH]. Qed.

Lemma list_prod_nil {A B} (l : list A) : list_prod l (@nil B) = [].
Proof. induction l; simpl; auto. Qed.

Lemma mask_select_const {A} (b : bool) (g : nat -> A) (l : list nat) :
  mask_select (map (fun _ => b) l) (map g l)
  = if b then map g l else [].
Proof.
  unfold mask_select. rewrite combine_map_map.
  induction l as [|a l IH]; cbn [map filter fst]; [now destruct b|].
  destruct b; cbn [map snd]; [now rewrite IH | exact IH].
Qed.

Lemma take_map {T} (a : list T) (g : nat -> nat) (l : list nat) (d : T) :
  (forall k, In k l -> (g k < length a)%nat) ->
  take a (map g l) = Ok (map (fun k => nth (g k) a d) l).
Proof.
  unfold take. induction l as [|k l IH]; intros H; cbn [map fold_right];
    [reflexivity|].
  rewrite IH by (intros k' Hk'; apply H; now right). cbn [bind].
  rewrite (nth_error_nth' a d (H k (or_introl eq_refl))). reflexivity.
Qed.

Lemma take_all {T} (a : list T) :
  take a (seq 0 (length a)) = Ok a.
Proof.
  destruct a as [|d a']; [reflexivity|].
  set (a := d :: a').
  rewrite <- (map_id (seq 0 (length a))).
  rewrite (take_map a (fun k => k) (seq 0 (length a)) d).
  - f_equal. symmetry. apply list_as_map.
  - intros k Hk. apply in_seq in Hk. lia.
Qed.

Lemma put_nil {T} (a values : list T) : put a [] values = Ok a.
Proof. reflexivity. Qed.

Lemma put_all {T} (a values : list T) :
  length values = length a ->
  put a (seq 0 (length a)) values = Ok values.
Proof.
  intros Hlen. unfold put.
  replace (forallb (fun k => (k <? length a)%nat) (seq 0 (length a)))
    with true.
  2:{ symmetry. apply forallb_forall. intros k Hk. apply in_seq in Hk.
      apply Nat.ltb_lt. lia. }
  f_equal. destruct values as [|d values'].
  { destruct a; [reflexivity | discriminate]. }
  set (values := d :: values') in * .
  apply nth_ext with (d := d) (d' := d).
  - rewrite Scatter.length_scatter. now symmetry.
  - intros k Hk. rewrite Scatter.length_scatter in Hk.
    rewrite <- (@seq_nth (length a) 0%nat k 0%nat Hk) at 1. cbn [Nat.add].
    apply Scatter.nth_scatter.
    + apply seq_NoDup.
    + now rewrite length_seq.
    + intros o' Ho. apply in_seq in Ho. lia.
    + now rewrite length_seq.
Qed.

End Indexed.

(* ================================================================== *)
(** * Writing a column of the sparse result *)
(* ================================================================== *)

Lemma nonzero_false_zero v : nonzero v = false -> v = zero.
Proof.
  unfold nonzero, Xr.eqb, zero. destruct v as [| |q|]; cbn; try discriminate.
  destruct (q ?= 0)%Qc eqn:E; try discriminate. intros _.
  apply Qceq_alt in E. now subst.
Qed.

Lemma value_stored v : value (stored v) = v.
Proof.
  unfold stored. destruct (nonzero v) eqn:E; [reflexivity|].
  cbn [value]. symmetry. now apply nonzero_false_zero.
Qed.

(** [J[rows, c] = v(rows)]: the cells of column [c] in the rows written
    hold what was assigned, every other cell is as before. *)
Lemma lil_set_column (c : nat) (v : nat -> xreal) (rs : list nat) :
  forall J : smatrix,
    (c < n_cols J)%nat ->
    (forall r, In r rs -> (r < n_rows J)%nat) ->
    exists J',
      lil_set_all J (map (fun r => (r, c, v r)) rs) = Ok J' /\
      n_rows J' = n_rows J /\ n_cols J' = n_cols J /\
      forall r' c',
        cell J' r' c'
        = if (c' =? c)%nat && existsb (Nat.eqb r') rs
          then stored (v r') else cell J r' c'.
Proof.
  unfold lil_set_all.
  induction rs as [|r rs IH]; intros J Hc Hr; cbn [map fold_left].
  - exists J. repeat split. intros r' c'. cbn [existsb].
    now rewrite andb_false_r.
  - cbn [bind fst snd]. unfold lil_set at 2.
    assert (Hr0 : (r <? n_rows J)%nat = true)
      by (apply Nat.ltb_lt, Hr; now left).
    assert (Hc0 : (c <? n_cols J)%nat = true) by now apply Nat.ltb_lt.
    rewrite Hr0, Hc0. cbn [andb].
    match goal with |- context [Ok ?J1] => set (J1' := J1) end.
    destruct (IH J1') as (J' & Heq & Hrows & Hcols & Hcell).
    + exact Hc.
    + intros r' Hr'. cbn [J1' n_rows]. apply Hr. now right.
    + exists J'. split; [exact Heq|]. split; [exact Hrows|].
      split; [exact Hcols|].
      intros r' c'. rewrite Hcell. cbn [J1' cell existsb].
      destruct (Nat.eqb_spec c' c) as [-> | Hne]; cbn [andb].
      * destruct (existsb (Nat.eqb r') rs) eqn:E.
        -- now rewrite orb_true_r.
        -- rewrite orb_false_r.
           destruct (Nat.eqb_spec r' r) as [-> | Hne']; reflexivity.
      * now rewrite andb_false_r.
Qed.

(* ================================================================== *)
(** * The sparse differencer on a function without failure *)
(* ================================================================== *)

Lemma max_int_ok (l : list nat) :
  l <> [] -> exists mx, NpB.max_int l = Ok mx /\ n_groups l = S mx.
Proof. destruct l as [|x t]; [congruence|]. intros _. eexists. now split. Qed.

Section SparseRun.

Variables (f : vec -> vec) (m n : nat).
Variables (X H : nat -> xreal) (O : nat -> bool).
Variables (f0 : vec) (method : string).
Variables (structure : matrix xreal) (groups : list nat).

Let x0 : vec := map X (seq 0 n).
Let h : vec := map H (seq 0 n).
Let o : mask := map O (seq 0 n).

Hypothesis Hmethod : method = "2-point" \/ method = "3-point".
Hypothesis Hf0 : length f0 = m.
Hypothesis Hf : forall x, length (f x) = m.
Hypothesis HX : forall k, (k < n)%nat -> exists q, X k = Fin q.
Hypothesis HH : forall k, (k < n)%nat -> exists q, H k = Fin q.
Hypothesis Hg : length groups = n.
Hypothesis Hnd : NoDup groups.
Hypothesis Hsr : n_rows structure = m.
Hypothesis Hsc : n_cols structure = n.
Hypothesis Hnz :
  forall r c, (r < m)%nat -> (c < n)%nat -> nonzero (cell structure r c) = true.

Lemma length_x0 : length x0 = n.
Proof. unfold x0. now rewrite length_map, length_seq. Qed.

Lemma length_h : length h = n.
Proof. unfold h. now rewrite length_map, length_seq. Qed.

(** The mask of a group that holds column [c], and of a group that holds
    no column. *)
Lemma unit_mask g c :
  nth_error groups c = Some g ->
  map (Nat.eqb g) groups = map (Nat.eqb c) (seq 0 n).
Proof.
  intros Hc. apply nth_error_ext. intros k.
  rewrite !nth_error_map, nth_error_seq.
  destruct (Nat.ltb_spec k n) as [Hk | Hk]; cbn [option_map Nat.add].
  - destruct (nth_error groups k) as [gk|] eqn:Ek.
    2:{ apply nth_error_None in Ek. lia. }
    cbn [option_map]. f_equal.
    destruct (Nat.eqb_spec c k) as [-> | Hne].
    + rewrite Hc in Ek. injection Ek as <-. apply Nat.eqb_refl.
    + apply Nat.eqb_neq. intros ->. apply Hne.
      rewrite <- Ek in Hc.
      apply (proj1 (NoDup_nth_error groups) Hnd); [|exact Hc].
      apply nth_error_Some. congruence.
  - rewrite (proj2 (nth_error_None groups k)) by lia. reflexivity.
Qed.

Lemma empty_mask g :
  ~ In g groups ->
  map (Nat.eqb g) groups = map (fun _ => false) (seq 0 n).
Proof.
  intros Hno. apply nth_error_ext. intros k.
  rewrite !nth_error_map, nth_error_seq.
  destruct (Nat.ltb_spec k n) as [Hk | Hk]; cbn [option_map].
  - destruct (nth_error groups k) as [gk|] eqn:Ek.
    2:{ apply nth_error_None in Ek. lia. }
    cbn [option_map]. f_equal. apply Nat.eqb_neq. intros ->.
    apply Hno. eapply nth_error_In; eauto.
  - rewrite (proj2 (nth_error_None groups k)) by lia. reflexivity.
Qed.

Lemma diag_row_as_map c :
  NpB.diag_row h c
  = map (fun k => if (k =? c)%nat then nth c h NaN else zero) (seq 0 n).
Proof. unfold NpB.diag_row. now rewrite length_h. Qed.

Lemma find_columns_single c :
  (c < n)%nat ->
  find_columns structure [c] = Ok (map (fun r => (r, 0%nat)) (seq 0 m)).
Proof.
  intros Hc. unfold find_columns, take_columns. cbn [forallb].
  rewrite Hsc. apply Nat.ltb_lt in Hc. rewrite Hc. cbn [andb bind].
  cbn [n_rows n_cols length]. rewrite Hsr. f_equal.
  change (seq 0 1) with [0%nat]. rewrite Indexed.list_prod_single.
  apply Indexed.filter_all. intros [r z] Hin.
  apply in_map_iff in Hin as (r' & [= <- <-] & Hr'). apply in_seq in Hr'.
  cbn [fst snd cell nth]. apply Hnz; [lia | now apply Nat.ltb_lt].
Qed.

Lemma find_columns_none : find_columns structure [] = Ok [].
Proof.
  unfold find_columns, take_columns. cbn [forallb bind n_rows n_cols length].
  f_equal. cbn [seq]. now rewrite Indexed.list_prod_nil.
Qed.

Lemma existsb_eqb_seq r len :
  existsb (Nat.eqb r) (seq 0 len) = (r <? len)%nat.
Proof.
  destruct (Nat.ltb_spec r len) as [Hlt | Hge].
  - apply existsb_exists. exists r. split; [apply in_seq; lia|].
    apply Nat.eqb_refl.
  - destruct (existsb (Nat.eqb r) (seq 0 len)) eqn:E; [|reflexivity].
    apply existsb_exists in E as (k & Hk & Ek).
    apply in_seq in Hk. apply Nat.eqb_eq in Ek. lia.
Qed.

Lemma h_vec_unit c :
  (c < n)%nat ->
  (h * map astype_float (map (Nat.eqb c) (seq 0 n)))%V = NpB.diag_row h c.
Proof.
  intros Hc. rewrite diag_row_as_map. unfold h at 1.
  rewrite map_map, zip_with_map_map.
  apply map_ext_in. intros k Hk. apply in_seq in Hk.
  unfold h. rewrite Indexed.nth_map_seq by exact Hc.
  destruct (Nat.eqb_spec c k) as [-> | Hne].
  - rewrite Nat.eqb_refl. apply mul_one.
  - destruct (Nat.eqb_spec k c) as [-> | _]; [congruence|].
    destruct (@HH k ltac:(lia)) as [q ->]. apply mul_zero_r.
Qed.

Lemma h_vec_empty :
  (h * map astype_float (map (fun _ : nat => false) (seq 0 n)))%V
  = map (fun _ => zero) (seq 0 n).
Proof.
  unfold h. rewrite map_map, zip_with_map_map.
  apply map_ext_in. intros k Hk. apply in_seq in Hk.
  destruct (@HH k ltac:(lia)) as [q ->]. apply mul_zero_r.
Qed.

(** The end of an iteration, [J[i, j] = df[i] / dx[j]], for the rows
    [0 .. m-1] of a single column [c]. *)
Lemma step_tail (J : smatrix) c (df dx : vec) tr :
  (c < n)%nat -> length df = m -> (c < length dx)%nat ->
  n_rows J = m -> n_cols J = n ->
  exists J',
    mbind (lift (take df (map (fun r : nat => r) (seq 0 m)))) (fun dfi =>
    mbind (lift (take dx (map (fun _ : nat => c) (seq 0 m)))) (fun dxj =>
    lift (lil_set_all J
            (combine (combine (map (fun r : nat => r) (seq 0 m))
                              (map (fun _ : nat => c) (seq 0 m)))
                     (dfi / dxj)%V)))) tr
    = (tr, Ok J') /\
    n_rows J' = m /\ n_cols J' = n /\
    forall r' c',
      cell J' r' c'
      = if (c' =? c)%nat && (r' <? m)%nat
        then stored (nth r' df NaN / nth c dx NaN)%X
        else cell J r' c'.
Proof.
  intros Hc Hdf Hdx Hr Hcn.
  rewrite (Indexed.take_map df (fun r => r) (seq 0 m) NaN)
    by (intros k Hk; apply in_seq in Hk; lia).
  rewrite mbind_lift_ok.
  rewrite (Indexed.take_map dx (fun _ => c) (seq 0 m) NaN) by (intros; exact Hdx).
  rewrite mbind_lift_ok.
  rewrite zip_with_map_map, !Indexed.combine_map_map.
  destruct (@lil_set_column c (fun r => (nth r df NaN / nth c dx NaN)%X)
              (seq 0 m) J) as (J' & Heq & Hrows & Hcols & Hcell).
  - lia.
  - intros r Hin. apply in_seq in Hin. lia.
  - exists J'. unfold lift. rewrite Heq.
    split; [reflexivity|]. split; [lia|]. split; [lia|].
    intros r' c'. rewrite Hcell, existsb_eqb_seq. reflexivity.
Qed.

Lemma nth_zip_with_in_range (g : xreal -> xreal -> xreal) (a b : vec) k :
  (k < length a)%nat -> (k < length b)%nat ->
  nth k (Np.zip_with g a b) NaN = g (nth k a NaN) (nth k b NaN).
Proof.
  intros Ha Hb. apply nth_error_nth.
  rewrite nth_error_zip_with.
  rewrite (nth_error_nth' a NaN Ha), (nth_error_nth' b NaN Hb). reflexivity.
Qed.

Lemma nth_div_scalar (a : vec) (d : xreal) k :
  nth k (a /^ d)%V NaN = (nth k a NaN / d)%X.
Proof.
  change NaN with ((fun x => x / d)%X NaN) at 1. apply map_nth.
Qed.

Lemma nth_o c : (c < n)%nat -> nth c o false = O c.
Proof. intros Hc. unfold o. now apply Indexed.nth_map_seq. Qed.

Lemma nth_h c : (c < n)%nat -> nth c h NaN = H c.
Proof. intros Hc. unfold h. now apply Indexed.nth_map_seq. Qed.

(** The two points of the 3-point scheme, as the sparse differencer
    builds them for a group of the single column [c]. *)
Lemma sparse_x1 c :
  (c < n)%nat ->
  let e := map (Nat.eqb c) (seq 0 n) in
  let h_vec := NpB.diag_row h c in
  Np.where_ (vnot o & e)%V
            (Np.where_ (o & e)%V (x0 + h_vec)%V x0 - h_vec)%V
            (Np.where_ (o & e)%V (x0 + h_vec)%V x0)
  = if O c then (x0 + NpB.diag_row h c)%V else (x0 - NpB.diag_row h c)%V.
Proof.
  intros Hc e h_vec. subst e h_vec. rewrite diag_row_as_map, nth_h by exact Hc.
  unfold x0, o, vnot.
  repeat (rewrite ?map_map, ?zip_with_map_map, ?Indexed.where_map_map).
  destruct (O c) eqn:EO; rewrite ?zip_with_map_map;
    apply map_ext_in; intros k Hk; apply in_seq in Hk;
    destruct (@HX k ltac:(lia)) as [q ->];
    (destruct (Nat.eqb_spec c k) as [<- | Hne];
     [ rewrite Nat.eqb_refl, EO; cbn [negb andb]; reflexivity
     | destruct (Nat.eqb_spec k c) as [-> | _]; [congruence|];
       rewrite !andb_false_r ]).
  - symmetry. apply add_zero_r.
  - symmetry. apply sub_zero_r.
Qed.

Lemma sparse_x2 c :
  (c < n)%nat ->
  let e := map (Nat.eqb c) (seq 0 n) in
  let h_vec := NpB.diag_row h c in
  Np.where_ (vnot o & e)%V
            (Np.where_ (o & e)%V (x0 + two ^* h_vec)%V x0 + h_vec)%V
            (Np.where_ (o & e)%V (x0 + two ^* h_vec)%V x0)
  = if O c then (x0 + two ^* NpB.diag_row h c)%V
    else (x0 + NpB.diag_row h c)%V.
Proof.
  intros Hc e h_vec. subst e h_vec. rewrite diag_row_as_map, nth_h by exact Hc.
  unfold x0, o, vnot.
  repeat (rewrite ?map_map, ?zip_with_map_map, ?Indexed.where_map_map).
  destruct (O c) eqn:EO;
    repeat (rewrite ?map_map, ?zip_with_map_map);
    apply map_ext_in; intros k Hk; apply in_seq in Hk;
    destruct (@HX k ltac:(lia)) as [q ->];
    (destruct (Nat.eqb_spec c k) as [<- | Hne];
     [ rewrite Nat.eqb_refl, EO; cbn [negb andb]; reflexivity
     | destruct (Nat.eqb_spec k c) as [-> | _]; [congruence|];
       rewrite !andb_false_r ]).
  - rewrite two_mul_zero. symmetry. apply add_zero_r.
  - symmetry. apply add_zero_r.
Qed.

Lemma sparse_dx c (x1 x2 : vec) :
  (c < n)%nat -> length x1 = n -> length x2 = n ->
  let e := map (Nat.eqb c) (seq 0 n) in
  let dx := Np.where_ (vnot o & e)%V (x2 - x1)%V
              (Np.where_ (o & e)%V (x2 - x0)%V (Np.zeros n)) in
  (c < length dx)%nat /\
  nth c dx NaN
  = if O c then (nth c x2 NaN - nth c x0 NaN)%X
    else (nth c x2 NaN - nth c x1 NaN)%X.
Proof.
  intros Hc H1 H2 e dx.
  assert (Hlen : length dx = n).
  { subst dx e. unfold vnot, o, x0, Np.zeros.
    repeat rewrite ?length_where, ?length_zip_with, ?length_map, ?length_seq,
                   ?repeat_length.
    rewrite H1, H2. lia. }
  split; [lia|].
  apply nth_error_nth. subst dx e. unfold vnot.
  rewrite !nth_error_where, !nth_error_zip_with, !nth_error_map.
  unfold o. rewrite !nth_error_map, nth_error_seq.
  apply Nat.ltb_lt in Hc. rewrite Hc. apply Nat.ltb_lt in Hc.
  cbn [option_map].
  rewrite (nth_error_nth' x1 NaN) by lia.
  rewrite (nth_error_nth' x2 NaN) by lia.
  rewrite (nth_error_nth' x0 NaN) by (rewrite length_x0; lia).
  rewrite Indexed.zeros_as_map, Indexed.nth_error_map_seq by exact Hc.
  rewrite Nat.eqb_refl. cbn [Nat.add]. destruct (O c); reflexivity.
Qed.

Lemma where_true_unit c :
  (c < n)%nat -> NpB.where_true (map (Nat.eqb c) (seq 0 n)) = [c].
Proof.
  intros Hc. rewrite Indexed.where_true_map, Indexed.filter_eqb_seq.
  apply Nat.ltb_lt in Hc. now rewrite Hc.
Qed.

Lemma take_const_zero (c : nat) :
  take [c] (map snd (map (fun r : nat => (r, 0%nat)) (seq 0 m)))
  = Ok (map (fun _ : nat => c) (seq 0 m)).
Proof.
  rewrite map_map. cbn [snd].
  rewrite (Indexed.take_map [c] (fun _ => 0%nat) (seq 0 m) 0%nat)
    by (intros; cbn; lia).
  reflexivity.
Qed.

Lemma rows_of_find :
  map fst (map (fun r : nat => (r, 0%nat)) (seq 0 m))
  = map (fun r : nat => r) (seq 0 m).
Proof. now rewrite map_map. Qed.

Lemma take_all_m {T} (a : list T) : length a = m -> take a (seq 0 m) = Ok a.
Proof. intros <-. apply Indexed.take_all. Qed.

Lemma put_all_m {T} (a values : list T) :
  length a = m -> length values = m -> put a (seq 0 m) values = Ok values.
Proof. intros <- Hv. now apply Indexed.put_all. Qed.

Lemma take_nil {T} (a : list T) : take a [] = Ok [].
Proof. reflexivity. Qed.

Lemma take_mask c :
  (c < n)%nat ->
  take o (map (fun _ : nat => c) (seq 0 m))
  = Ok (map (fun _ : nat => O c) (seq 0 m)).
Proof.
  intros Hc.
  rewrite (Indexed.take_map o (fun _ => c) (seq 0 m) false)
    by (intros; unfold o; rewrite length_map, length_seq; exact Hc).
  now rewrite nth_o.
Qed.

Ltac run_call :=
  rewrite fun_wrapped_pure; cbv beta iota.

Ltac run_sub_same Hlen :=
  unfold vsub_b, vadd_b;
  rewrite broadcast_same_length by Hlen; cbv beta iota.

(** One iteration of the sparse loop for the group of column [c]: column
    [c] of the result receives the difference quotients of variable
    [c]. *)
Lemma step_column g c (J : smatrix) tr :
  nth_error groups c = Some g ->
  n_rows J = m -> n_cols J = n ->
  exists J' tr',
    _sparse_difference_step (fun_wrapped (pure_fun f)) x0 f0 h o
                            structure groups method J g tr
    = (tr', Ok J') /\
    n_rows J' = m /\ n_cols J' = n /\
    forall r' c',
      cell J' r' c'
      = if (c' =? c)%nat && (r' <? m)%nat
        then stored (nth r' (difference_quotient method f x0 f0 h o c) NaN)
        else cell J r' c'.
Proof.
  intros Hgc Hr Hcn.
  assert (Hc : (c < n)%nat).
  { rewrite <- Hg. apply nth_error_Some. congruence. }
  unfold _sparse_difference_step. cbv zeta.
  rewrite (@unit_mask g c Hgc), (@h_vec_unit c Hc), (@where_true_unit c Hc),
          length_x0.
  unfold difference_quotient.
  destruct Hmethod as [-> | ->]; cbn [String.eqb Ascii.eqb Bool.eqb].
  - (* 2-point *)
    erewrite mbind_ok.
    2:{ unfold mbind, lift, ret. run_call.
        run_sub_same ltac:(now rewrite Hf, Hf0).
        rewrite (@find_columns_single c Hc). cbv beta iota.
        rewrite take_const_zero, rows_of_find. reflexivity. }
    cbv beta iota.
    set (x := (x0 + NpB.diag_row h c)%V).
    assert (Hlx : length x = n).
    { subst x. rewrite length_zip_with, length_diag_row, length_x0, length_h.
      lia. }
    destruct (@step_tail J c (f x - f0)%V (x - x0)%V (tr ++ [x]))
      as (J' & Heq & Hrows & Hcols & Hcell); auto.
    + now rewrite length_zip_with, Hf, Hf0, Nat.min_id.
    + rewrite length_zip_with, Hlx, length_x0. lia.
    + exists J', (tr ++ [x]). split; [exact Heq|].
      split; [exact Hrows|]. split; [exact Hcols|].
      intros r' c'. rewrite Hcell.
      rewrite nth_div_scalar.
      rewrite (@nth_zip_with_in_range Xr.sub x x0 c)
        by (rewrite ?Hlx, ?length_x0; lia).
      reflexivity.
  - (* 3-point *)
    pose proof (@sparse_x1 c Hc) as E1. cbv zeta in E1. rewrite E1.
    pose proof (@sparse_x2 c Hc) as E2. cbv zeta in E2. rewrite E2.
    rewrite (@nth_o c Hc). clear E1 E2.
    set (x1 := if O c then (x0 + NpB.diag_row h c)%V
               else (x0 - NpB.diag_row h c)%V).
    set (x2 := if O c then (x0 + two ^* NpB.diag_row h c)%V
               else (x0 + NpB.diag_row h c)%V).
    assert (Hl1 : length x1 = n).
    { subst x1. destruct (O c);
        rewrite length_zip_with, length_diag_row, length_x0, length_h; lia. }
    assert (Hl2 : length x2 = n).
    { subst x2. destruct (O c);
        rewrite length_zip_with, ?length_map, length_diag_row, length_x0,
                length_h; lia. }
    set (df := if O c then ((of_Z (-3) ^* f0 + four ^* f x1) - f x2)%V
               else (f x2 - f x1)%V).
    assert (Hldf : length df = m).
    { subst df. destruct (O c);
        rewrite ?length_zip_with, ?length_map, ?Hf, ?Hf0; lia. }
    erewrite mbind_ok with (a := (map (fun r : nat => r) (seq 0 m),
                                  map (fun _ : nat => c) (seq 0 m), df, _)).
    2:{ unfold mbind, lift, ret. run_call. run_call.
        rewrite (@find_columns_single c Hc). cbv beta iota.
        rewrite take_const_zero, rows_of_find. cbv beta iota.
        rewrite (@take_mask c Hc). cbv beta iota.
        unfold vnot. rewrite map_map.
        rewrite !Indexed.mask_select_const. rewrite Hf0.
        subst df. destruct (O c); cbn [negb].
        - rewrite map_id.
          rewrite !take_all_m by (rewrite ?Hf, ?Hf0; reflexivity).
          cbv beta iota.
          rewrite put_all_m;
            [| now rewrite repeat_length
             | rewrite ?length_zip_with, ?length_map, ?Hf, ?Hf0; lia ].
          cbv beta iota. rewrite !take_nil. cbv beta iota.
          rewrite Indexed.put_nil. rewrite <- app_assoc. reflexivity.
        - rewrite !take_nil. cbv beta iota. rewrite Indexed.put_nil.
          cbv beta iota. rewrite map_id.
          rewrite !take_all_m by (rewrite ?Hf, ?Hf0; reflexivity).
          cbv beta iota.
          rewrite put_all_m;
            [| now rewrite repeat_length
             | rewrite ?length_zip_with, ?length_map, ?Hf, ?Hf0; lia ].
          rewrite <- app_assoc. reflexivity. }
    cbv beta iota.
    destruct (@sparse_dx c x1 x2 Hc Hl1 Hl2) as [Hdxl Hdx].
    cbv zeta in Hdxl, Hdx. unfold vnot in Hdxl, Hdx.
    match goal with
    | |- context [lift (take ?dx (map (fun _ : nat => c) (seq 0 m)))] =>
        destruct (@step_tail J c df dx (tr ++ [x1; x2]))
          as (J' & Heq & Hrows & Hcols & Hcell); auto
    end.
    exists J', (tr ++ [x1; x2]). split; [exact Heq|].
    split; [exact Hrows|]. split; [exact Hcols|].
    intros r' c'. rewrite Hcell, Hdx.
    subst df x1 x2. destruct (O c); now rewrite nth_div_scalar.
Qed.

(** An iteration for a group id that no column carries leaves the matrix
    as it is. *)
Lemma step_empty g (J : smatrix) tr :
  ~ In g groups ->
  exists tr',
    _sparse_difference_step (fun_wrapped (pure_fun f)) x0 f0 h o
                            structure groups method J g tr
    = (tr', Ok J).
Proof.
  intros Hno. unfold _sparse_difference_step. cbv zeta.
  rewrite (@empty_mask g Hno), Indexed.where_true_map, Indexed.filter_none.
  destruct Hmethod as [-> | ->]; cbn [String.eqb Ascii.eqb Bool.eqb];
    unfold mbind, lift, ret.
  - run_call. run_sub_same ltac:(now rewrite Hf, Hf0).
    rewrite find_columns_none. cbv beta iota.
    eexists. reflexivity.
  - run_call. run_call. rewrite find_columns_none. cbv beta iota.
    eexists. reflexivity.
Qed.

(** The loop over a list of group ids: the columns whose group occurs in
    the list are written, the others are untouched. *)
Lemma sparse_loop (ids : list nat) : forall (J : smatrix) tr,
  n_rows J = m -> n_cols J = n ->
  exists J' tr',
    foldM (_sparse_difference_step (fun_wrapped (pure_fun f)) x0 f0 h o
                                   structure groups method) ids J tr
    = (tr', Ok J') /\
    n_rows J' = m /\ n_cols J' = n /\
    forall r' c',
      (r' < m)%nat -> (c' < n)%nat ->
      cell J' r' c'
      = if existsb (Nat.eqb (nth c' groups 0%nat)) ids
        then stored
               (nth r' (difference_quotient method f x0 f0 h o c') NaN)
        else cell J r' c'.
Proof.
  induction ids as [|g ids IH]; intros J tr Hr Hcn; cbn [foldM].
  - exists J, tr. repeat split; auto.
  - destruct (in_dec Nat.eq_dec g groups) as [Hin | Hno].
    + apply In_nth_error in Hin as [c Hgc].
      destruct (@step_column g c J tr Hgc Hr Hcn)
        as (J1 & tr1 & Heq1 & Hr1 & Hc1 & Hcell1).
      destruct (IH J1 tr1 Hr1 Hc1) as (J' & tr' & Heq & Hr' & Hc' & Hcell).
      exists J', tr'. rewrite (@mbind_ok _ _ _ _ _ _ _ Heq1).
      split; [exact Heq|]. split; [exact Hr'|]. split; [exact Hc'|].
      intros r' c' Hlr Hlc. rewrite (Hcell r' c' Hlr Hlc), Hcell1.
      cbn [existsb].
      destruct (existsb (Nat.eqb (nth c' groups 0%nat)) ids);
        [now rewrite orb_true_r|]. rewrite orb_false_r.
      apply Nat.ltb_lt in Hlr. rewrite Hlr, andb_true_r.
      assert (Hgc' : nth_error groups c' = Some (nth c' groups 0%nat))
        by (apply nth_error_nth'; lia).
      destruct (Nat.eqb_spec c' c) as [-> | Hne].
      * rewrite (nth_error_nth _ _ 0%nat Hgc), Nat.eqb_refl. reflexivity.
      * destruct (Nat.eqb_spec (nth c' groups 0%nat) g) as [E | _];
          [|reflexivity].
        exfalso. apply Hne. rewrite E, <- Hgc in Hgc'.
        apply (proj1 (NoDup_nth_error groups) Hnd); [|exact Hgc'].
        lia.
    + destruct (@step_empty g J tr Hno) as (tr1 & Heq1).
      destruct (IH J tr1 Hr Hcn) as (J' & tr' & Heq & Hr' & Hc' & Hcell).
      exists J', tr'. rewrite (@mbind_ok _ _ _ _ _ _ _ Heq1).
      split; [exact Heq|]. split; [exact Hr'|]. split; [exact Hc'|].
      intros r' c' Hlr Hlc. rewrite (Hcell r' c' Hlr Hlc).
      cbn [existsb].
      destruct (Nat.eqb_spec (nth c' groups 0%nat) g) as [E | _];
        [|reflexivity].
      exfalso. apply Hno. rewrite <- E. apply nth_In. lia.
Qed.

(** On a fully dense structure with every column in a group of its own,
    the sparse differencer returns an [(m, n)] matrix, and each cell of
    its result is the difference quotient of its column. *)
Lemma sparse_difference_shape tr :
  (0 < n)%nat ->
  exists J tr',
    _sparse_difference (fun_wrapped (pure_fun f)) x0 f0 h o structure
                       groups method tr
    = (tr', Ok (JSparse J)) /\
    n_rows J = m /\ n_cols J = n /\
    forall r c,
      (r < m)%nat -> (c < n)%nat ->
      value (cell J r c)
      = nth r (difference_quotient method f x0 f0 h o c) NaN.
Proof.
  intros Hn. unfold _sparse_difference.
  destruct (@max_int_ok groups) as (mx & Hmax & HG).
  { intros E. rewrite E in Hg. simpl in Hg. lia. }
  rewrite Hmax, mbind_lift_ok. cbv zeta.
  destruct (@sparse_loop (seq 0 (mx + 1))
              (Matrix (length f0) (length x0) (fun _ _ => None)) tr)
    as (J' & tr' & Heq & Hr' & Hc' & Hcell).
  { exact Hf0. }
  { apply length_x0. }
  exists J', tr'. rewrite (@mbind_ok _ _ _ _ _ _ _ Heq). split; [reflexivity|].
  split; [exact Hr'|]. split; [exact Hc'|].
  intros r c Hr Hc. rewrite (Hcell r c Hr Hc).
  replace (existsb _ _) with true; [apply value_stored|].
  symmetry. rewrite existsb_eqb_seq. apply Nat.ltb_lt.
  pose proof (@GroupCount.n_groups_bound groups c ltac:(lia)) as Hb.
  lia.
Qed.

Lemma sparse_difference_run tr :
  (0 < n)%nat ->
  exists J tr',
    _sparse_difference (fun_wrapped (pure_fun f)) x0 f0 h o structure
                       groups method tr
    = (tr', Ok (JSparse J)) /\
    forall r c,
      (r < m)%nat -> (c < n)%nat ->
      value (cell J r c)
      = nth r (difference_quotient method f x0 f0 h o c) NaN.
Proof.
  intros Hn.
  destruct (sparse_difference_shape tr Hn) as (J & tr' & Heq & _ & _ & Hcell).
  exists J, tr'. split; assumption.
Qed.

End SparseRun.

(* ================================================================== *)
(** * Dense and sparse differencing agree (C8) *)
(* ================================================================== *)

Lemma concat_singletons {A} (rows : list (list A)) (d : A) :
  (forall row, In row rows -> length row = 1%nat) ->
  forall j, (j < length rows)%nat ->
            nth j (concat rows) d = nth 0 (nth j rows []) d.
Proof.
  induction rows as [|row rows IH]; intros Hrow j Hj; [simpl in Hj; lia|].
  assert (Hl : length row = 1%nat) by (apply Hrow; now left).
  destruct row as [|a [|b row']]; try discriminate.
  cbn [concat app]. destruct j as [|j]; [reflexivity|].
  cbn [nth]. apply IH.
  - intros r Hr. apply Hrow. now right.
  - simpl in Hj. lia.
Qed.

Lemma length_difference_quotient method (f : vec -> vec) m x0 f0 h o c :
  length f0 = m -> (forall x, length (f x) = m) ->
  length (difference_quotient method f x0 f0 h o c) = m.
Proof.
  intros Hf0 Hf. unfold difference_quotient.
  destruct (method =? "2-point"); [|destruct (nth c o false)];
    cbv zeta;
    rewrite ?length_map, ?length_zip_with, ?length_map, ?Hf, ?Hf0; lia.
Qed.

(** The entries of the dense result are the difference quotients. *)
Lemma dense_entry method (f : vec -> vec) m n x0 f0 h o i j :
  length f0 = m -> (forall x, length (f x) = m) -> length h = n ->
  (i < m)%nat -> (j < n)%nat ->
  let rows := map (difference_quotient method f x0 f0 h o)
                  (seq 0 (length h)) in
  jacobian_entry
    (if (m =? 1)%nat then JVec (concat rows)
     else JDense (Matrix m (length x0)
                    (fun i j => nth i (nth j rows []) NaN))) i j
  = nth i (difference_quotient method f x0 f0 h o j) NaN.
Proof.
  intros Hf0 Hf Hh Hi Hj rows. subst rows.
  assert (Hrow : nth j (map (difference_quotient method f x0 f0 h o)
                            (seq 0 (length h))) []
                 = difference_quotient method f x0 f0 h o j).
  { rewrite Hh. now apply Indexed.nth_map_seq. }
  unfold vec in * .
  destruct (Nat.eqb_spec m 1) as [-> | Hne]; cbn [jacobian_entry cell].
  - rewrite concat_singletons.
    + rewrite Hrow. replace i with 0%nat by lia. reflexivity.
    + intros row Hin. apply in_map_iff in Hin as (k & <- & _).
      now apply length_difference_quotient.
    + rewrite length_map, length_seq. lia.
  - now rewrite Hrow.
Qed.

(** C8: for a function that returns, a point, a method and a step vector
    (all finite), when the structure is fully dense and every column is
    in a group of its own, the Jacobian assembled by the sparse
    differencer equals entry by entry the Jacobian assembled by the dense
    differencer; and with at least one variable both are assembled.
    (Exact arithmetic.) *)
Theorem dense_sparse_equivalence :
  forall (f : vec -> vec) (m n : nat) (x0 f0 h : vec) (o : mask)
         (method : string) (structure : matrix xreal) (groups : list nat),
    method = "2-point" \/ method = "3-point" ->
    length x0 = n -> length h = n -> length o = n ->
    all_finite x0 -> all_finite h ->
    length f0 = m -> (forall x, length (f x) = m) ->
    n_rows structure = m -> n_cols structure = n ->
    (forall r c, (r < m)%nat -> (c < n)%nat ->
                 nonzero (cell structure r c) = true) ->
    length groups = n -> NoDup groups ->
    let dense :=
      outcome (_dense_difference (fun_wrapped (pure_fun f)) x0 f0 h o method) in
    let sparse :=
      outcome (_sparse_difference (fun_wrapped (pure_fun f)) x0 f0 h o
                                  structure groups method) in
    (forall Jd Js,
        dense = Ok Jd -> sparse = Ok Js ->
        forall i j, (i < m)%nat -> (j < n)%nat ->
                    jacobian_entry Jd i j = jacobian_entry Js i j) /\
    ((0 < n)%nat -> exists Jd Js, dense = Ok Jd /\ sparse = Ok Js).
Proof.
  intros f m n x0 f0 h o method structure groups Hm Hx0 Hh Ho Hfx Hfh
         Hf0 Hf Hsr Hsc Hnz Hg Hnd dense sparse.
  destruct (Nat.eq_dec n 0) as [-> | Hn].
  { split; [intros; lia | intros; lia]. }
  assert (Hd : dense = Ok (let rows := map (difference_quotient method f x0 f0 h o)
                                           (seq 0 (length h)) in
                           if (m =? 1)%nat then JVec (concat rows)
                           else JDense (Matrix m (length x0)
                                  (fun i j => nth i (nth j rows []) NaN)))).
  { subst dense. unfold outcome.
    rewrite (@dense_difference_run f m x0 f0 h o method Hm Hf0 Hf
               (eq_trans Ho (eq_sym Hh)) []).
    reflexivity. }
  assert (Hs : exists J, sparse = Ok (JSparse J) /\
             forall r c, (r < m)%nat -> (c < n)%nat ->
               value (cell J r c)
               = nth r (difference_quotient method f x0 f0 h o c) NaN).
  { subst sparse. unfold outcome.
    destruct (@sparse_difference_run f m n
                (fun k => nth k x0 NaN) (fun k => nth k h NaN)
                (fun k => nth k o false) f0 method structure groups
                Hm Hf0 Hf) with (tr := @nil vec)
      as (J & tr' & Heq & Hcell); auto; try lia.
    - intros k Hk. apply (@all_finite_nth x0 k); auto.
      apply nth_error_nth'. lia.
    - intros k Hk. apply (@all_finite_nth h k); auto.
      apply nth_error_nth'. lia.
    - rewrite <- Hx0 in Heq at 1. rewrite <- Hh in Heq at 1.
      rewrite <- Ho in Heq at 1.
      rewrite <- !Indexed.list_as_map in Heq.
      exists J. rewrite Heq. split; [reflexivity|].
      intros r c Hr Hc. rewrite (Hcell r c Hr Hc).
      rewrite <- Hx0 at 1. rewrite <- Hh at 1. rewrite <- Ho at 1.
      now rewrite <- !Indexed.list_as_map. }
  destruct Hs as (J & Hs & Hcell). split.
  - intros Jd Js Ed Es i j Hi Hj.
    rewrite Hd in Ed. injection Ed as <-.
    rewrite Hs in Es. injection Es as <-.
    rewrite (@dense_entry method f m n x0 f0 h o i j) by assumption.
    cbn [jacobian_entry]. now rewrite Hcell.
  - intros _. eexists _, _. split; [exact Hd | exact Hs].
Qed.

Lemma dense_sparse_equivalence_witness :
  exists Jd Js,
    outcome (_dense_difference
               (fun_wrapped (pure_fun (fun x => [(nth 0 x NaN * nth 1 x NaN)%X;
                                                 nth 0 x NaN])))
               [one; two] [two; one] [half; half] [false; true] "3-point")
    = Ok Jd /\
    outcome (_sparse_difference
               (fun_wrapped (pure_fun (fun x => [(nth 0 x NaN * nth 1 x NaN)%X;
                                                 nth 0 x NaN])))
               [one; two] [two; one] [half; half] [false; true]
               (Matrix 2 2 (fun _ _ => one)) [1; 0]%nat "3-point")
    = Ok Js.
Proof.
  refine (proj2 (@dense_sparse_equivalence
            (fun x => [(nth 0 x NaN * nth 1 x NaN)%X; nth 0 x NaN])
            2%nat 2%nat [one; two] [two; one] [half; half] [false; true]
            "3-point" (Matrix 2 2 (fun _ _ => one)) [1; 0]%nat
            _ _ _ _ _ _ _ _ _ _ _ _ _) _).
  - right; reflexivity.
  - reflexivity.
  - reflexivity.
  - reflexivity.
  - repeat constructor.
  - repeat constructor.
  - reflexivity.
  - intros x. reflexivity.
  - reflexivity.
  - reflexivity.
  - intros r c _ _. reflexivity.
  - reflexivity.
  - repeat constructor; simpl; intuition lia.
  - lia.
Defined.

(* ================================================================== *)
(** * The error metric of the checker (C6) *)
(* ================================================================== *)

Lemma abs_cases (e : xreal) :
  Xr.abs e = NaN \/ Xr.abs e = PInf \/ exists q, Xr.abs e = Fin q.
Proof. destruct e; cbn; eauto. Qed.

Lemma sub_nan_r (a : xreal) : (a - NaN)%X = NaN.
Proof. destruct a; reflexivity. Qed.

(** The quotient the source computes is the relative error above one and
    the absolute error up to one. *)
Lemma entry_error_spec (a e : xreal) :
  entry_error (a - e)%X e = relative_or_absolute_error a e.
Proof.
  unfold entry_error, relative_or_absolute_error.
  destruct e as [| |q|].
  - rewrite sub_nan_r. reflexivity.
  - reflexivity.
  - cbn [Xr.abs]. unfold Xr.gtb, Xr.maximum, one, of_Z.
    destruct (leb_fin_cases (Q2Qc (inject_Z 1)) (Qcabs q)) as [[-> H1]|[-> H1]];
      destruct (ltb_fin_cases (Q2Qc (inject_Z 1)) (Qcabs q))
        as [[-> H2]|[-> H2]]; try reflexivity.
    + assert (E : Qcabs q = Q2Qc (inject_Z 1)).
      { apply Qc_is_canon. apply Qle_antisym; assumption. }
      rewrite E. apply (div_one (Xr.abs (a - Fin q)%X)).
    + exfalso. lra.
    + apply (div_one (Xr.abs (a - Fin q)%X)).
  - reflexivity.
Qed.

(** [np.max] returns an element that no other exceeds (when no entry is
    NaN). *)
Lemma fold_maximum_spec (t : vec) : forall x,
  no_nan (x :: t) ->
  is_maximum (fold_left Xr.maximum t x) (x :: t).
Proof.
  assert (Hrefl : forall v, is_nan v = false -> (v <=? v)%X = true).
  { intros [| |q|]; try discriminate; try reflexivity.
    intros _. apply leb_refl_fin. }
  assert (Htrans : forall a b c, (a <=? b)%X = true -> (b <=? c)%X = true ->
                                 (a <=? c)%X = true).
  { intros [| |p|] [| |q|] [| |r|]; try discriminate; try reflexivity.
    intros Hab Hbc.
    destruct (leb_fin_cases p q) as [[_ H1]|[E _]]; [|congruence].
    destruct (leb_fin_cases q r) as [[_ H2]|[E _]]; [|congruence].
    destruct (leb_fin_cases p r) as [[E _]|[_ H3]]; [exact E | lra]. }
  assert (Htotal : forall a b, is_nan a = false -> is_nan b = false ->
                               (a <=? b)%X = false -> (b <=? a)%X = true).
  { intros [| |p|] [| |q|]; try discriminate; try reflexivity.
    intros _ _ Hab.
    destruct (leb_fin_cases p q) as [[E _]|[_ H1]]; [congruence|].
    destruct (leb_fin_cases q p) as [[E _]|[_ H2]]; [exact E | lra]. }
  induction t as [|y t IH]; intros x Hnn.
  - inversion Hnn; subst. split; [now left|].
    intros v [<- | []]. now apply Hrefl.
  - inversion Hnn as [|? ? Hx Hrest]; subst.
    inversion Hrest as [|? ? Hy Ht]; subst.
    cbn [fold_left].
    assert (Hmx : Xr.maximum x y = (if (x <=? y)%X then y else x)).
    { destruct x, y; try discriminate; reflexivity. }
    rewrite Hmx.
    destruct (x <=? y)%X eqn:Exy.
    + destruct (IH y (Forall_cons _ Hy Ht)) as [Hin Hle].
      split; [now right|].
      intros v [<- | Hv]; [|now apply Hle].
      apply Htrans with y; [exact Exy|]. apply Hle. now left.
    + destruct (IH x (Forall_cons _ Hx Ht)) as [Hin Hle].
      split.
      * destruct Hin as [<- | Hin]; [now left | now right; right].
      * intros v [<- | [<- | Hv]].
        -- apply Hle. now left.
        -- apply Htrans with x; [now apply Htotal|]. apply Hle. now left.
        -- apply Hle. now right.
Qed.

Lemma np_max_is_maximum (l : vec) (r : xreal) :
  no_nan l -> Np.max l = Ok r -> is_maximum r l.
Proof.
  destruct l as [|x t]; [discriminate|]. cbn [Np.max].
  intros Hnn [= <-]. now apply fold_maximum_spec.
Qed.

(* ================================================================== *)
(** * Running the checker *)
(* ================================================================== *)

Lemma map_list_prod {A B C} (f : A * B -> C) (l : list A) (l' : list B) :
  map f (list_prod l l')
  = concat (map (fun x => map (fun y => f (x, y)) l') l).
Proof.
  induction l as [|x l IH]; cbn [list_prod map concat]; [reflexivity|].
  now rewrite map_app, map_map, IH.
Qed.

Lemma flatten_as_map {T} (A : matrix T) :
  flatten A
  = map (fun ij => cell A (fst ij) (snd ij))
        (positions (n_rows A) (n_cols A)).
Proof.
  unfold flatten, to_rows, row_of, positions.
  now rewrite map_list_prod.
Qed.

Lemma in_positions m n i j :
  In (i, j) (positions m n) <-> (i < m)%nat /\ (j < n)%nat.
Proof.
  unfold positions. rewrite in_prod_iff, !in_seq. lia.
Qed.

Lemma broadcast2d_same_shape (f : xreal -> xreal -> xreal)
      (A B : matrix xreal) :
  n_rows A = n_rows B -> n_cols A = n_cols B ->
  exists C,
    broadcast2d f A B = Ok C /\
    n_rows C = n_rows A /\ n_cols C = n_cols A /\
    forall i j, (i < n_rows A)%nat -> (j < n_cols A)%nat ->
                cell C i j = f (cell A i j) (cell B i j).
Proof.
  intros Hr Hc. unfold broadcast2d, bok. rewrite <- Hr, <- Hc.
  rewrite !Nat.eqb_refl. cbn [orb andb]. eexists. split; [reflexivity|].
  cbn [n_rows n_cols cell]. unfold bdim, bidx.
  repeat split.
  - now destruct (n_rows A =? 1)%nat.
  - now destruct (n_cols A =? 1)%nat.
  - intros i j Hi Hj.
    destruct (Nat.eqb_spec (n_rows A) 1) as [E1 | _];
      destruct (Nat.eqb_spec (n_cols A) 1) as [E2 | _];
      try (replace i with 0%nat by lia); try (replace j with 0%nat by lia);
      reflexivity.
Qed.

(** The quotient array of the dense comparison, entry by entry. *)
Lemma dense_comparison (T E : matrix xreal) :
  n_rows T = n_rows E -> n_cols T = n_cols E ->
  bind (broadcast2d Xr.sub T E) (fun d =>
  bind (broadcast2d Xr.div (map_matrix Xr.abs d)
          (map_matrix (fun x => Xr.maximum one (Xr.abs x)) E)) (fun q =>
  Np.max (flatten q)))
  = Np.max (map (fun ij => relative_or_absolute_error
                             (cell T (fst ij) (snd ij))
                             (cell E (fst ij) (snd ij)))
                (positions (n_rows E) (n_cols E))).
Proof.
  intros Hr Hc.
  destruct (broadcast2d_same_shape Xr.sub T E Hr Hc)
    as (d & -> & Hdr & Hdc & Hd). cbn [bind].
  destruct (broadcast2d_same_shape Xr.div (map_matrix Xr.abs d)
              (map_matrix (fun x => Xr.maximum one (Xr.abs x)) E))
    as (q & -> & Hqr & Hqc & Hq).
  { cbn [map_matrix n_rows]. congruence. }
  { cbn [map_matrix n_cols]. congruence. }
  cbn [bind]. rewrite flatten_as_map. f_equal.
  cbn [map_matrix n_rows n_cols] in Hqr, Hqc, Hq.
  rewrite Hqr, Hqc, Hdr, Hdc, Hr, Hc.
  apply map_ext_in. intros [i j] Hin. apply in_positions in Hin as [Hi Hj].
  cbn [fst snd]. rewrite Hq by lia. cbn [map_matrix cell].
  rewrite Hd by lia. apply entry_error_spec.
Qed.

(** The value of a cell of the difference of two sparse matrices. *)
Lemma sparse_sub_value (A B S : smatrix) :
  sparse_sub A B = Ok S ->
  n_rows S = n_rows A /\ n_cols S = n_cols A /\
  forall i j, value (cell S i j)
              = (value (cell A i j) - value (cell B i j))%X.
Proof.
  unfold sparse_sub. destruct (_ && _); [|discriminate].
  intros [= <-]. cbn [n_rows n_cols cell]. repeat split.
  intros i j. destruct (cell A i j), (cell B i j); cbn [value]; reflexivity.
Qed.

(** The errors the sparse comparison takes the maximum of. *)
Lemma sparse_comparison (A Jd S : smatrix) :
  sparse_sub A Jd = Ok S ->
  Np.zip_with entry_error (map snd (find S))
    (map (fun e => value (cell Jd (fst (fst e)) (snd (fst e)))) (find S))
  = map (fun ij => entry_error
                     (value (cell A (fst ij) (snd ij))
                      - value (cell Jd (fst ij) (snd ij)))%X
                     (value (cell Jd (fst ij) (snd ij))))
        (differing_positions A Jd).
Proof.
  intros HS. destruct (sparse_sub_value _ _ HS) as (Hr & Hc & Hv).
  rewrite zip_with_map_map. unfold find, differing_positions.
  rewrite map_map. cbn [fst snd]. rewrite Hr, Hc.
  erewrite filter_ext by (intros ij; rewrite Hv; reflexivity).
  apply map_ext. intros ij. now rewrite Hv.
Qed.

Lemma errors_of_selection (l : list (nat * nat * xreal)) (v : nat * nat -> xreal) :
  (vabs (map snd l)
   / map (fun x => Xr.maximum one (Xr.abs x)) (map v (map fst l)))%V
  = Np.zip_with entry_error (map snd l) (map (fun e => v (fst e)) l).
Proof.
  unfold vabs, Np.zip_with.
  induction l as [|e l IH]; [reflexivity|].
  cbn [map combine fst snd]. now rewrite IH.
Qed.

(** The value of the sparse comparison: the maximum of the errors at the
    differing positions, or the error of the empty selection. *)
Lemma sparse_maximum (A Jd S : smatrix) :
  sparse_sub A Jd = Ok S ->
  bind (np_maximum_one_abs (select Jd (map fst (find S))))
       (fun d => Np.max (vabs (map snd (find S)) / d)%V)
  = max_of_compared
      (map (fun ij => entry_error
                        (value (cell A (fst ij) (snd ij))
                         - value (cell Jd (fst ij) (snd ij)))%X
                        (value (cell Jd (fst ij) (snd ij))))
           (differing_positions A Jd)).
Proof.
  intros HS. rewrite <- (sparse_comparison _ _ HS).
  destruct (find S) as [|e l] eqn:E; [reflexivity|].
  change (select Jd (map fst (e :: l)))
    with (Values (map (fun p => value (cell Jd (fst p) (snd p)))
                      (map fst (e :: l)))).
  cbn [np_maximum_one_abs bind].
  rewrite (errors_of_selection (e :: l)
             (fun p => value (cell Jd (fst p) (snd p)))).
  reflexivity.
Qed.

Lemma lift_chain {A B C} (r1 : result A) (r2 : A -> result B)
      (r3 : B -> result C) tr :
  mbind (lift r1) (fun d => mbind (lift (r2 d)) (fun q => lift (r3 q))) tr
  = (tr, bind r1 (fun d => bind (r2 d) r3)).
Proof.
  unfold mbind, lift. destruct r1 as [a|e]; cbn [bind]; [|reflexivity].
  destruct (r2 a); reflexivity.
Qed.

Lemma lift_bind {A B} (r : result A) (k : A -> result B) tr :
  mbind (lift r) (fun d => lift (k d)) tr = (tr, bind r k).
Proof. unfold mbind, lift. destruct r; reflexivity. Qed.

Section CheckerRun.

Variable float_pow : xreal -> xreal -> xreal.
Variable shuffle : list nat -> list nat.
Variables (fun_ : user_fun) (jac : array_like -> result analytic).
Variables (x0 : array_like) (bounds : array_like * array_like).

(** The dense comparison path. *)
Lemma check_dense_run sparse_diff sparsity tr a tr' Jd :
  jac x0 = Ok a ->
  takes_sparse_path a sparse_diff = false ->
  approx_derivative float_pow fun_ x0 "3-point" None None bounds None tr
  = (tr', Ok Jd) ->
  n_rows (analytic_2d a) = n_rows (jacobian_2d Jd) ->
  n_cols (analytic_2d a) = n_cols (jacobian_2d Jd) ->
  check_derivative float_pow shuffle fun_ jac x0 bounds sparse_diff sparsity tr
  = (tr',
     Np.max (map (fun ij => relative_or_absolute_error
                              (cell (analytic_2d a) (fst ij) (snd ij))
                              (cell (jacobian_2d Jd) (fst ij) (snd ij)))
                 (positions (n_rows (jacobian_2d Jd))
                            (n_cols (jacobian_2d Jd))))).
Proof.
  intros Hjac Hpath Happrox Hr Hc.
  unfold check_derivative. rewrite Hjac, mbind_lift_ok.
  destruct a, sparse_diff; try discriminate;
    rewrite (@mbind_ok _ _ _ _ _ _ _ Happrox);
    rewrite lift_chain; f_equal; now apply dense_comparison.
Qed.

(** The sparse comparison path, with the structure and groups that
    [approx_derivative] is given. *)
Lemma check_sparse_run sparsity s tr A tr' Jd :
  jac x0 = Ok (ASparse A) ->
  (sparsity = Some s \/
   sparsity = None /\
   exists g, group_columns shuffle (SparseM A) None = Ok g /\
             s = (SparseM A, g)) ->
  approx_derivative float_pow fun_ x0 "3-point" None None bounds (Some s) tr
  = (tr', Ok (JSparse Jd)) ->
  n_rows A = n_rows Jd -> n_cols A = n_cols Jd ->
  check_derivative float_pow shuffle fun_ jac x0 bounds true sparsity tr
  = (tr',
     max_of_compared
            (map (fun ij => entry_error
                              (value (cell A (fst ij) (snd ij))
                               - value (cell Jd (fst ij) (snd ij)))%X
                              (value (cell Jd (fst ij) (snd ij))))
                 (differing_positions A Jd))).
Proof.
  intros Hjac Hsp Happrox Hr Hc.
  unfold check_derivative. rewrite Hjac, mbind_lift_ok.
  assert (Hs : match sparsity with
               | Some s0 => ret s0
               | None =>
                   mbind (lift (group_columns shuffle (SparseM A) None))
                         (fun groups => ret (SparseM A, groups))
               end tr = (tr, Ok s)).
  { destruct Hsp as [-> | (-> & g & Hg & ->)]; [reflexivity|].
    rewrite Hg. reflexivity. }
  rewrite (@mbind_ok _ _ _ _ _ _ _ Hs).
  rewrite (@mbind_ok _ _ _ _ _ _ _ Happrox).
  assert (HS : exists S, sparse_sub A Jd = Ok S).
  { unfold sparse_sub. rewrite Hr, Hc, !Nat.eqb_refl. cbn [andb]. eauto. }
  destruct HS as [S HS]. rewrite HS, mbind_lift_ok. cbv zeta.
  rewrite lift_bind. f_equal. now apply sparse_maximum.
Qed.

End CheckerRun.

(* ================================================================== *)
(** * An estimate that agrees exactly with the analytic Jacobian *)
(* ================================================================== *)

Lemma div_self (d : Qc) : d <> 0%Qc -> (Fin d / Fin d)%X = one.
Proof.
  intros Hd. cbn [Xr.div].
  destruct (d ?= 0)%Qc eqn:E;
    [apply Qceq_alt in E; contradiction| |];
    unfold one, of_Z; f_equal; unfold Qcdiv;
    rewrite (Qcmult_inv_r d Hd); apply Qc_is_canon; reflexivity.
Qed.

Lemma double_zero (a : Qc) : (a + a)%Qc = 0%Qc -> a = 0%Qc.
Proof.
  intros E. replace (a + a)%Qc with (a * (1 + 1))%Qc in E by ring.
  apply Qcmult_integral in E as [E | E]; [exact E|].
  apply (f_equal this) in E. vm_compute in E. discriminate.
Qed.

(** The estimate of the Jacobian of [fun(x) = [x[0]]] at [0] is the
    matrix [[1]], whatever the default relative step. *)
Lemma exact_agreement_estimate (float_pow : xreal -> xreal -> xreal)
      (q : Qc) tr :
    float_pow EPS (one / three)%X = Fin q ->
    q <> 0%Qc ->
    exists J tr',
      approx_derivative float_pow ExactAgreement.fun_ ExactAgreement.x0
        "3-point" None None ExactAgreement.unbounded
        (Some ExactAgreement.sparsity) tr = (tr', Ok (JSparse J)) /\
      n_rows J = 1%nat /\ n_cols J = 1%nat /\
      value (cell J 0 0) = one.
Proof.
  intros Hpow Hq.
  unfold approx_derivative.
  change (negb (existsb (String.eqb "3-point") ["2-point"; "3-point"]))
    with false. cbv iota.
  change (as_1d ExactAgreement.x0) with (Some [zero]). cbv iota.
  change (_prepare_bounds ExactAgreement.unbounded [zero])
    with (Arr1 [NInf], Arr1 [PInf]). cbv iota beta.
  change (with_shape_of [zero] (Arr1 [NInf])) with (Some [NInf]).
  change (with_shape_of [zero] (Arr1 [PInf])) with (Some [PInf]).
  cbv iota beta.
  unfold ExactAgreement.fun_ at 1. unfold mbind at 1.
  rewrite fun_wrapped_pure. cbv iota beta.
  change (Np.any (([zero] <? [NInf]) ||| ([zero] >? [PInf]))%V) with false.
  cbv iota.
  unfold _compute_absolute_step.
  change ("3-point" =? "2-point") with false.
  change ("3-point" =? "3-point") with true. cbv iota. cbn [bind].
  rewrite absolute_step_of.
  rewrite mbind_lift_ok. cbn [map length Nat.eqb negb].
  rewrite Hpow.
  change (sign_of zero) with one. change (Xr.maximum one (Xr.abs zero)) with one.
  rewrite !mul_one.
  change (_adjust_scheme_to_bounds [zero] [Fin q] 1 "2-sided" [NInf] [PInf])
    with (Ok ([Fin (Qcabs q)], [false])).
  rewrite mbind_lift_ok. cbv iota beta.
  unfold ExactAgreement.sparsity, ExactAgreement.fun_.
  destruct (@sparse_difference_shape (fun x => [nth 0 x NaN]) 1 1
              (fun _ => zero) (fun _ => Fin (Qcabs q)) (fun _ => false)
              [zero] "3-point" (values_of ExactAgreement.J_analytic) [0%nat])
    with (tr := tr ++ [[zero]])
    as (J & tr' & Heq & Hr & Hc & Hcell);
    [now right | reflexivity | reflexivity | intros; now eexists
    | intros; now eexists | reflexivity
    | repeat constructor; intros [] | reflexivity | reflexivity
    | intros [|r] [|c] Hr Hc; [reflexivity | lia | lia | lia] | lia | ].
  exists J, tr'. cbn [map seq] in Heq, Hcell.
  split; [exact Heq|]. split; [exact Hr|]. split; [exact Hc|].
  rewrite (Hcell 0%nat 0%nat) by lia.
  unfold difference_quotient.
  change ("3-point" =? "2-point") with false. cbv iota. cbn [nth].
  cbn -[Xr.div]. apply div_self.
  intros E. apply Hq. revert E.
  apply (Qcabs_case q
           (fun a => (Q2Qc 0 + a + - (Q2Qc 0 + - a))%Qc = 0%Qc -> q = 0%Qc));
    intros _ E.
  - apply double_zero. rewrite <- E. ring.
  - assert (H : (- q)%Qc = 0%Qc) by (apply double_zero; rewrite <- E; ring).
    rewrite <- (Qcopp_involutive q), H. ring.
Qed.

(* ================================================================== *)
(** * The derivative checker (C3, C6, C10) *)
(* ================================================================== *)

Lemma in_differing_positions (A Jd : smatrix) i j :
  In (i, j) (differing_positions A Jd)
  <-> (i < n_rows A)%nat /\ (j < n_cols A)%nat /\
      nonzero (value (cell A i j) - value (cell Jd i j))%X = true.
Proof.
  unfold differing_positions. rewrite filter_In, in_positions.
  cbn [fst snd]. tauto.
Qed.

Lemma differing_is_stored (A Jd : smatrix) i j :
  nonzero (value (cell A i j) - value (cell Jd i j))%X = true ->
  cell A i j <> None \/ cell Jd i j <> None.
Proof.
  destruct (cell A i j); [left; discriminate|].
  destruct (cell Jd i j); [right; discriminate|].
  intros H. vm_compute in H. discriminate.
Qed.

(** C3, as stated, fails: for [fun(x) = [x, x]] with an analytic Jacobian
    that stores the entry [(0, 0)] only and a supplied structure that
    marks both entries, the estimate is [[1], [1]]; the error over the
    stored positions of the analytic Jacobian is [0], and the checker
    returns [1], the error at the position [(1, 0)] outside them. *)
Lemma wider_structure_counterexample :
  exists Jd,
    outcome (approx_derivative WiderStructure.pow WiderStructure.fun_
               WiderStructure.x0 "3-point" None None WiderStructure.unbounded
               (Some WiderStructure.sparsity))
    = Ok (JSparse Jd) /\
    stored_positions WiderStructure.J_analytic = [(0%nat, 0%nat)] /\
    Np.max (map (fun ij => relative_or_absolute_error
                   (value (cell WiderStructure.J_analytic (fst ij) (snd ij)))
                   (value (cell Jd (fst ij) (snd ij))))
                (stored_positions WiderStructure.J_analytic))
    = Ok zero /\
    differing_positions WiderStructure.J_analytic Jd = [(1%nat, 0%nat)] /\
    outcome (check_derivative WiderStructure.pow (fun order => order)
               WiderStructure.fun_ WiderStructure.jac WiderStructure.x0
               WiderStructure.unbounded true (Some WiderStructure.sparsity))
    = Ok one.
Proof.
  eexists. split; [lazy; reflexivity|].
  split; [reflexivity|]. split; [xr_compute|].
  split; [vm_compute; reflexivity|]. xr_compute.
Qed.

(** C3, amended: in the sparse comparison path of [check_derivative] the
    error is computed exactly at the positions where the difference
    [J_to_test - J_diff] has a nonzero value: the result is the maximum of
    the errors at these positions (the checker fails when there is none),
    a position is among them exactly when it lies in the matrix and the
    difference is nonzero there, and each of them is stored in the
    analytic Jacobian or in the estimate. *)
Theorem sparse_check_compares_differing_positions :
  forall (float_pow : xreal -> xreal -> xreal)
         (shuffle : list nat -> list nat)
         (fun_ : user_fun) (jac : array_like -> result analytic)
         (x0 : array_like) (bounds : array_like * array_like)
         (sparsity : option (matrix_like * list nat))
         (s : matrix_like * list nat) (tr tr' : list vec) (A Jd : smatrix),
    jac x0 = Ok (ASparse A) ->
    (sparsity = Some s \/
     sparsity = None /\
     exists g, group_columns shuffle (SparseM A) None = Ok g /\
               s = (SparseM A, g)) ->
    approx_derivative float_pow fun_ x0 "3-point" None None bounds (Some s) tr
    = (tr', Ok (JSparse Jd)) ->
    n_rows A = n_rows Jd -> n_cols A = n_cols Jd ->
    check_derivative float_pow shuffle fun_ jac x0 bounds true sparsity tr
    = (tr',
       max_of_compared
         (map (fun ij => entry_error
                           (value (cell A (fst ij) (snd ij))
                            - value (cell Jd (fst ij) (snd ij)))%X
                           (value (cell Jd (fst ij) (snd ij))))
              (differing_positions A Jd))) /\
    (forall i j,
        In (i, j) (differing_positions A Jd)
        <-> (i < n_rows A)%nat /\ (j < n_cols A)%nat /\
            nonzero (value (cell A i j) - value (cell Jd i j))%X = true) /\
    (forall i j,
        In (i, j) (differing_positions A Jd) ->
        cell A i j <> None \/ cell Jd i j <> None).
Proof.
  intros float_pow shuffle fun_ jac x0 bounds sparsity s tr tr' A Jd
         Hjac Hsp Happrox Hr Hc.
  split; [|split].
  - now apply check_sparse_run with (s := s).
  - intros i j. apply in_differing_positions.
  - intros i j Hin. apply in_differing_positions in Hin as (_ & _ & Hnz).
    now apply differing_is_stored.
Qed.

Lemma sparse_check_compares_differing_positions_witness :
  exists Jd,
    outcome (check_derivative WiderStructure.pow (fun order => order)
               WiderStructure.fun_ WiderStructure.jac WiderStructure.x0
               WiderStructure.unbounded true (Some WiderStructure.sparsity))
    = max_of_compared
        (map (fun ij => entry_error
                (value (cell WiderStructure.J_analytic (fst ij) (snd ij))
                 - value (cell Jd (fst ij) (snd ij)))%X
                (value (cell Jd (fst ij) (snd ij))))
             (differing_positions WiderStructure.J_analytic Jd)) /\
    In (1%nat, 0%nat) (differing_positions WiderStructure.J_analytic Jd).
Proof.
  pose (run := approx_derivative WiderStructure.pow WiderStructure.fun_
                 WiderStructure.x0 "3-point" None None
                 WiderStructure.unbounded (Some WiderStructure.sparsity) []).
  pose (Jd := match snd run with
              | Ok (JSparse J) => J
              | _ => WiderStructure.J_analytic
              end).
  assert (Hrun : run = (fst run, Ok (JSparse Jd))) by (vm_compute; reflexivity).
  exists Jd.
  destruct (@sparse_check_compares_differing_positions
              WiderStructure.pow (fun order => order)
              WiderStructure.fun_ WiderStructure.jac WiderStructure.x0
              WiderStructure.unbounded (Some WiderStructure.sparsity)
              WiderStructure.sparsity [] (fst run)
              WiderStructure.J_analytic Jd)
    as (Hcheck & Hin & _).
  - reflexivity.
  - left. reflexivity.
  - exact Hrun.
  - vm_compute. reflexivity.
  - vm_compute. reflexivity.
  - split.
    + unfold outcome. rewrite Hcheck. reflexivity.
    + apply Hin. split; [vm_compute; lia|]. split; [vm_compute; lia|].
      vm_compute. reflexivity.
Defined.

(** C6: [check_derivative] returns the maximum over the compared entries
    of [|analytic - estimate| / max(1, |estimate|)], which is the relative
    error [|analytic - estimate| / |estimate|] when [|estimate| > 1] and
    the absolute error [|analytic - estimate|] otherwise, in the dense
    comparison path (every entry of the arrays is compared) and in the
    sparse one (the entries at which the two matrices differ; with no
    such entry the sparse path fails before a maximum is taken). *)
Theorem check_derivative_error_metric :
  forall (float_pow : xreal -> xreal -> xreal)
         (shuffle : list nat -> list nat)
         (fun_ : user_fun) (jac : array_like -> result analytic)
         (x0 : array_like) (bounds : array_like * array_like)
         (sparse_diff : bool) (sparsity : option (matrix_like * list nat))
         (tr : list vec) (a : analytic),
    jac x0 = Ok a ->
    (forall analytic_v estimate,
        relative_or_absolute_error analytic_v estimate
        = (Xr.abs (analytic_v - estimate)
           / Xr.maximum one (Xr.abs estimate))%X) /\
    (takes_sparse_path a sparse_diff = false ->
     forall tr' Jd,
       approx_derivative float_pow fun_ x0 "3-point" None None bounds None tr
       = (tr', Ok Jd) ->
       n_rows (analytic_2d a) = n_rows (jacobian_2d Jd) ->
       n_cols (analytic_2d a) = n_cols (jacobian_2d Jd) ->
       let errors :=
         map (fun ij => relative_or_absolute_error
                          (cell (analytic_2d a) (fst ij) (snd ij))
                          (cell (jacobian_2d Jd) (fst ij) (snd ij)))
             (positions (n_rows (jacobian_2d Jd)) (n_cols (jacobian_2d Jd))) in
       check_derivative float_pow shuffle fun_ jac x0 bounds sparse_diff
                        sparsity tr
       = (tr', Np.max errors) /\
       forall r, Np.max errors = Ok r -> no_nan errors ->
                 is_maximum r errors) /\
    (forall A s tr' Jd,
       a = ASparse A -> sparse_diff = true ->
       (sparsity = Some s \/
        sparsity = None /\
        exists g, group_columns shuffle (SparseM A) None = Ok g /\
                  s = (SparseM A, g)) ->
       approx_derivative float_pow fun_ x0 "3-point" None None bounds
                         (Some s) tr
       = (tr', Ok (JSparse Jd)) ->
       n_rows A = n_rows Jd -> n_cols A = n_cols Jd ->
       let errors :=
         map (fun ij => relative_or_absolute_error
                          (value (cell A (fst ij) (snd ij)))
                          (value (cell Jd (fst ij) (snd ij))))
             (differing_positions A Jd) in
       check_derivative float_pow shuffle fun_ jac x0 bounds sparse_diff
                        sparsity tr
       = (tr', max_of_compared errors) /\
       forall r, max_of_compared errors = Ok r -> no_nan errors ->
                 is_maximum r errors).
Proof.
  intros float_pow shuffle fun_ jac x0 bounds sparse_diff sparsity tr a Hjac.
  split; [|split].
  - intros v e. symmetry. apply entry_error_spec.
  - intros Hpath tr' Jd Happrox Hr Hc errors. split.
    + now apply check_dense_run.
    + intros r Hmax Hnn. now apply np_max_is_maximum.
  - intros A s tr' Jd -> -> Hsp Happrox Hr Hc errors. split.
    + rewrite (@check_sparse_run float_pow shuffle fun_ jac x0 bounds
                 sparsity s tr A tr' Jd Hjac Hsp Happrox Hr Hc).
      f_equal. f_equal. apply map_ext. intros ij. apply entry_error_spec.
    + intros r Hmax Hnn. apply np_max_is_maximum; [exact Hnn|].
      destruct errors; [discriminate | exact Hmax].
Qed.

Lemma check_derivative_error_metric_witness :
  outcome (check_derivative WiderStructure.pow (fun order => order)
             WiderStructure.fun_ WiderStructure.jac WiderStructure.x0
             WiderStructure.unbounded false None)
  = Ok one /\
  is_maximum one [zero; one].
Proof.
  pose (run := approx_derivative WiderStructure.pow WiderStructure.fun_
                 WiderStructure.x0 "3-point" None None
                 WiderStructure.unbounded None []).
  pose (Jd := match snd run with
              | Ok J => J
              | _ => JVec []
              end).
  assert (Hrun : run = (fst run, Ok Jd)) by (vm_compute; reflexivity).
  destruct (@check_derivative_error_metric
              WiderStructure.pow (fun order => order)
              WiderStructure.fun_ WiderStructure.jac WiderStructure.x0
              WiderStructure.unbounded false None []
              (ASparse WiderStructure.J_analytic) eq_refl)
    as (_ & Hdense & _).
  destruct (Hdense eq_refl (fst run) Jd Hrun) as (Hcheck & Hmax).
  - vm_compute. reflexivity.
  - vm_compute. reflexivity.
  - assert (Herrors :
      map (fun ij => relative_or_absolute_error
             (cell (analytic_2d (ASparse WiderStructure.J_analytic))
                   (fst ij) (snd ij))
             (cell (jacobian_2d Jd) (fst ij) (snd ij)))
          (positions (n_rows (jacobian_2d Jd)) (n_cols (jacobian_2d Jd)))
      = [zero; one]) by xr_compute.
    rewrite Herrors in Hcheck, Hmax. split.
    + unfold outcome. rewrite Hcheck. xr_compute.
    + apply Hmax; [xr_compute|]. repeat constructor.
Defined.

(** C10: for [fun(x) = [x[0]]] at [x0 = [0]] with the analytic Jacobian
    the sparse matrix [[1]], the estimate is [[1]] as well (whatever
    finite nonzero value the default relative step has), so the difference
    of the two has no nonzero value and nothing is left to take the
    maximum over: [check_derivative] with [sparse_diff=True] fails with a
    [ValueError] instead of returning [0].  The error is that of the
    empty selection [J_diff[i, j]], an empty sparse matrix on which
    [np.maximum] fails; [np.max] is not reached. *)
Theorem check_derivative_exact_agreement_fails :
  forall (float_pow : xreal -> xreal -> xreal)
         (shuffle : list nat -> list nat) (q : Qc),
    float_pow EPS (one / three)%X = Fin q ->
    q <> 0%Qc ->
    (exists Jd,
        outcome (approx_derivative float_pow ExactAgreement.fun_
                   ExactAgreement.x0 "3-point" None None
                   ExactAgreement.unbounded (Some ExactAgreement.sparsity))
        = Ok (JSparse Jd) /\
        n_rows Jd = 1%nat /\ n_cols Jd = 1%nat /\
        value (cell Jd 0 0) = value (cell ExactAgreement.J_analytic 0 0) /\
        differing_positions ExactAgreement.J_analytic Jd = [] /\
        select Jd (differing_positions ExactAgreement.J_analytic Jd)
        = EmptySparse) /\
    outcome (check_derivative float_pow shuffle ExactAgreement.fun_
               ExactAgreement.jac ExactAgreement.x0 ExactAgreement.unbounded
               true (Some ExactAgreement.sparsity))
    = Raise (ValueError ambiguous_truth_value).
Proof.
  intros float_pow shuffle q Hpow Hq.
  destruct (@exact_agreement_estimate float_pow q [] Hpow Hq)
    as (Jd & tr' & Happrox & Hr & Hc & Hv).
  assert (Hdiff : differing_positions ExactAgreement.J_analytic Jd = []).
  { unfold differing_positions. cbn [ExactAgreement.J_analytic n_rows n_cols
      positions seq list_prod map app filter fst snd cell value].
    rewrite Hv. reflexivity. }
  split.
  - exists Jd. unfold outcome. rewrite Happrox, Hdiff.
    repeat split; try assumption.
  - unfold outcome.
    rewrite (@check_sparse_run float_pow shuffle ExactAgreement.fun_
               ExactAgreement.jac ExactAgreement.x0 ExactAgreement.unbounded
               (Some ExactAgreement.sparsity) ExactAgreement.sparsity []
               ExactAgreement.J_analytic tr' Jd eq_refl
               (or_introl eq_refl) Happrox);
      [|now rewrite Hr|now rewrite Hc].
    rewrite Hdiff. reflexivity.
Qed.

Lemma check_derivative_exact_agreement_fails_witness :
  outcome (check_derivative WiderStructure.pow (fun order => order)
             ExactAgreement.fun_ ExactAgreement.jac ExactAgreement.x0
             ExactAgreement.unbounded true (Some ExactAgreement.sparsity))
  = Raise (ValueError ambiguous_truth_value).
Proof.
  apply (@check_derivative_exact_agreement_fails
           WiderStructure.pow (fun order => order)
           (Q2Qc (1 # 2))).
  - xr_compute.
  - intros E. apply (f_equal this) in E. vm_compute in E. discriminate.
Defined.

(* ================================================================== *)
(** * More on the step planner *)
(* ================================================================== *)

Lemma all_unbounded_repeat n :
  Np.all ((repeat NInf n ==^ NInf) & (repeat PInf n ==^ PInf))%V = true.
Proof.
  unfold Np.all, Np.zip_with. induction n as [|n IH]; [reflexivity|].
  cbn. exact IH.
Qed.

Lemma map_constant {A B} (b : B) (l : list A) :
  map (fun _ => b) l = repeat b (length l).
Proof. induction l as [|a l IH]; cbn; [reflexivity | now rewrite IH]. Qed.

(** When no variable is bounded the planner returns the step as it is
    for the one-sided scheme, and its absolute value for the two-sided
    one, with every variable one-sided resp. central; [x0] and
    [num_steps] play no part. *)
Theorem unbounded_step_unchanged :
  forall (x0 h : vec) (num_steps : Z) (n : nat),
    _adjust_scheme_to_bounds x0 h num_steps "1-sided"
                             (repeat NInf n) (repeat PInf n)
    = Ok (h, repeat true (length h)) /\
    _adjust_scheme_to_bounds x0 h num_steps "2-sided"
                             (repeat NInf n) (repeat PInf n)
    = Ok (vabs h, repeat false (length h)).
Proof.
  intros x0 h num_steps n. unfold _adjust_scheme_to_bounds.
  cbn [String.eqb Ascii.eqb Bool.eqb bind].
  rewrite all_unbounded_repeat.
  unfold Np.ones_like_bool, Np.zeros_like_bool, vabs.
  rewrite !map_constant, length_map. split; reflexivity.
Qed.

Section StepFacts.

Variables (x h : Qc) (l u : xreal).
Hypothesis Hl : (l <=? Fin x)%X = true.
Hypothesis Hu : (Fin x <=? u)%X = true.

Lemma one_sided_not_larger :
  (Xr.abs (one_sided_step one (Fin x) (Fin h) l u) <=? Xr.abs (Fin h))%X
  = true.
Proof.
  revert Hl Hu; intros Hl' Hu'.
  unfold one_sided_step. rewrite ?mul_one, ?div_one.
  destruct l as [| |l'|]; try discriminate;
    destruct u as [| |u'|]; try discriminate;
    unfold minus_one, of_Z in * ; xr_cbn.
  all: repeat (cmp_step; try finish).
  all: try finish.
Qed.

Lemma two_sided_not_larger :
  (Xr.abs (fst (two_sided_step one (Fin x) (Fin h) l u)) <=? Xr.abs (Fin h))%X
  = true.
Proof.
  revert Hl Hu; intros Hl' Hu'.
  unfold two_sided_step. rewrite ?mul_one, ?div_one.
  destruct l as [| |l'|]; try discriminate;
    destruct u as [| |u'|]; try discriminate;
    unfold two, half, of_Q, of_Z in * ; xr_cbn.
  all: repeat (cmp_step; try finish).
  all: try finish.
Qed.

End StepFacts.

(** The planner entry by entry, as [approx_derivative] calls it (one
    step, the scheme of the method), on finite points and steps. *)
Lemma adjusted_entries method x0 h lb ub :
  method = "2-point" \/ method = "3-point" ->
  all_finite x0 -> all_finite h ->
  length h = length x0 -> length lb = length x0 -> length ub = length x0 ->
  exists h' o',
    _adjust_scheme_to_bounds x0 h 1 (scheme_of method) lb ub = Ok (h', o') /\
    length h' = length x0 /\ length o' = length x0 /\
    forall i x hi l u,
      nth_error x0 i = Some x -> nth_error h i = Some hi ->
      nth_error lb i = Some l -> nth_error ub i = Some u ->
      nth_error h' i
      = Some (if method =? "2-point" then one_sided_step one x hi l u
              else fst (two_sided_step one x hi l u)) /\
      nth_error o' i
      = Some (if method =? "2-point" then true
              else snd (two_sided_step one x hi l u)).
Proof.
  intros Hm Hfx Hfh Hlh Hllb Hlub.
  assert (Hex : exists h' o',
             _adjust_scheme_to_bounds x0 h 1 (scheme_of method) lb ub
             = Ok (h', o')).
  { destruct Hm as [-> | ->]; unfold _adjust_scheme_to_bounds, scheme_of;
      cbn [String.eqb Ascii.eqb Bool.eqb bind];
      destruct (Np.all _); eauto. }
  destruct Hex as (h' & o' & Heq). exists h', o'. split; [exact Heq|].
  destruct (adjust_lengths _ _ _ _ _ _ eq_refl Hlh Hllb Hlub Heq)
    as [Hlh' Hlo'].
  split; [exact Hlh'|]. split; [exact Hlo'|].
  intros i x hi l u Hx Hh Hl Hu.
  destruct (all_finite_nth _ Hfx Hx) as [qx ->].
  destruct (all_finite_nth _ Hfh Hh) as [qh ->].
  destruct (Np.all ((lb ==^ NInf) & (ub ==^ PInf))%V) eqn:Hall.
  - destruct (all_unbounded_nth _ _ _ Hall Hl Hu) as [-> ->].
    revert Heq. destruct Hm as [-> | ->];
      unfold _adjust_scheme_to_bounds, scheme_of;
      cbn [String.eqb Ascii.eqb Bool.eqb bind]; rewrite Hall;
      intros [= <- <-].
    + unfold Np.ones_like_bool. rewrite nth_error_map, Hh.
      split; reflexivity.
    + unfold vabs, Np.zeros_like_bool. rewrite !nth_error_map, Hh.
      split; reflexivity.
  - destruct Hm as [-> | ->]; unfold scheme_of in * ;
      cbn [String.eqb Ascii.eqb Bool.eqb] in * .
    + destruct (@adjust_one_sided_nth _ _ 1%Z _ _ _ _ _ _ _ Hall Hx Hh Hl Hu)
        as (h'' & o'' & Heq' & Hn & Hn').
      rewrite Heq in Heq'. injection Heq' as <- <-. split; assumption.
    + destruct (@adjust_two_sided_nth _ _ 1%Z _ _ _ _ _ _ _ Hall Hx Hh Hl Hu)
        as (h'' & o'' & Heq' & Hn & Hn').
      rewrite Heq in Heq'. injection Heq' as <- <-. split; assumption.
Qed.

(** The planner never enlarges a step: for a finite point inside the
    bounds and a finite step, each entry of the adjusted step is at most
    the entry of the step it was given, in absolute value. *)
Theorem adjusted_step_not_larger :
  forall method x0 h lb ub,
    method = "2-point" \/ method = "3-point" ->
    all_finite x0 -> all_finite h ->
    length h = length x0 -> length lb = length x0 ->
    length ub = length x0 ->
    in_box lb ub x0 ->
    exists h' o',
      _adjust_scheme_to_bounds x0 h 1 (scheme_of method) lb ub
        = Ok (h', o') /\
      length h' = length h /\
      forall i hi hi',
        nth_error h i = Some hi -> nth_error h' i = Some hi' ->
        (Xr.abs hi' <=? Xr.abs hi)%X = true.
Proof.
  intros method x0 h lb ub Hm Hfx Hfh Hlh Hllb Hlub Hbox.
  destruct (@adjusted_entries method x0 h lb ub Hm Hfx Hfh Hlh Hllb Hlub)
    as (h' & o' & Heq & Hlh' & _ & Hent).
  exists h', o'. split; [exact Heq|]. split; [congruence|].
  intros i hi hi' Hh Hh'.
  assert (Hi : (i < length x0)%nat).
  { rewrite <- Hlh. apply nth_error_Some. congruence. }
  destruct (nth_error x0 i) as [x|] eqn:Hx;
    [|apply nth_error_None in Hx; lia].
  destruct (nth_error lb i) as [l|] eqn:Hl;
    [|apply nth_error_None in Hl; lia].
  destruct (nth_error ub i) as [u|] eqn:Hu;
    [|apply nth_error_None in Hu; lia].
  rewrite (proj1 (Hent i x hi l u Hx Hh Hl Hu)) in Hh'. injection Hh' as <-.
  destruct (all_finite_nth _ Hfx Hx) as [qx ->].
  destruct (all_finite_nth _ Hfh Hh) as [qh ->].
  destruct Hbox as [_ Hb]. destruct (Hb _ _ _ _ Hl Hu Hx) as [Hlx Hxu].
  destruct Hm as [-> | ->]; cbn [String.eqb Ascii.eqb Bool.eqb].
  - now apply one_sided_not_larger.
  - now apply two_sided_not_larger.
Qed.

Lemma adjusted_step_not_larger_witness :
  exists h' o',
    _adjust_scheme_to_bounds [zero] [two] 1 "2-sided" [minus_one] [one]
      = Ok (h', o') /\
    length h' = 1%nat /\
    forall i hi hi',
      nth_error [two] i = Some hi -> nth_error h' i = Some hi' ->
      (Xr.abs hi' <=? Xr.abs hi)%X = true.
Proof.
  apply (@adjusted_step_not_larger "3-point" [zero] [two] [minus_one] [one]).
  - right; reflexivity.
  - repeat constructor.
  - repeat constructor.
  - reflexivity.
  - reflexivity.
  - reflexivity.
  - split; [reflexivity|].
    intros [|i] l u pi Hl Hu Hp; cbn in Hl, Hu, Hp;
      [ | destruct i; discriminate ];
      injection Hl as <-; injection Hu as <-; injection Hp as <-;
      split; reflexivity.
Defined.

(* ================================================================== *)
(** * A supplied relative step *)
(* ================================================================== *)

Lemma broadcast_mismatch {A} (f : A -> A -> A) (a b : list A) :
  length a <> length b -> length a <> 1%nat -> length b <> 1%nat ->
  NpB.broadcast f a b
  = Raise (ValueError "operands could not be broadcast together").
Proof.
  intros Hab Ha Hb. unfold NpB.broadcast.
  destruct (Nat.eqb_spec (length a) (length b)) as [E|_]; [contradiction|].
  destruct a as [|x [|x' a]]; [| cbn in Ha; lia |];
    destruct b as [|y [|y' b]]; try reflexivity; cbn in Hb; lia.
Qed.

Lemma absolute_step_of_rel_step_array (float_pow : xreal -> xreal -> xreal)
      (rel_step x0 : vec) (method : string) :
  length rel_step = length x0 ->
  _compute_absolute_step float_pow (Some rel_step) x0 method
  = Ok (Np.zip_with (fun r x => (r * sign_of x
                                 * Xr.maximum one (Xr.abs x))%X)
                    rel_step x0).
Proof.
  intros Hlen. unfold _compute_absolute_step. cbn [bind].
  rewrite broadcast_same_length by (now rewrite !length_map).
  cbn [bind].
  rewrite broadcast_same_length
    by (unfold vabs; rewrite length_zip_with, !length_map; lia).
  f_equal. unfold vabs. rewrite !map_map.
  revert x0 Hlen. induction rel_step as [|r rel IH]; intros [|x x0] Hlen;
    try discriminate; [reflexivity|].
  injection Hlen as Hlen. unfold Np.zip_with in * . cbn [map combine fst snd].
  rewrite sign_from_mask. f_equal. now apply IH.
Qed.

(** With a relative step array of the length of [x0], the absolute step
    of variable [i] is [rel_step_i * sign(x0_i) * max(1, |x0_i|)] and the
    method is not consulted; a relative step of another length (neither
    it nor [x0] of length one) is a broadcasting [ValueError]. *)
Theorem absolute_step_of_supplied_rel_step :
  forall (float_pow : xreal -> xreal -> xreal) (rel_step x0 : vec)
         (method : string),
    (length rel_step = length x0 ->
     _compute_absolute_step float_pow (Some rel_step) x0 method
     = Ok (Np.zip_with (fun r x => (r * sign_of x
                                    * Xr.maximum one (Xr.abs x))%X)
                       rel_step x0)) /\
    (length rel_step <> length x0 -> length rel_step <> 1%nat ->
     length x0 <> 1%nat ->
     _compute_absolute_step float_pow (Some rel_step) x0 method
     = Raise (ValueError "operands could not be broadcast together")).
Proof.
  intros float_pow rel_step x0 method. split.
  - apply absolute_step_of_rel_step_array.
  - intros Hne H1 H2. unfold _compute_absolute_step. cbn [bind].
    rewrite broadcast_mismatch by (rewrite ?length_map; assumption).
    reflexivity.
Qed.

Lemma absolute_step_of_supplied_rel_step_witness :
  _compute_absolute_step (fun _ _ => NaN) (Some [half; one])
                         [minus_one; two] "no method"
  = Ok [(- half)%X; two] /\
  _compute_absolute_step (fun _ _ => NaN) (Some [half; one])
                         [minus_one; two; two] "3-point"
  = Raise (ValueError "operands could not be broadcast together").
Proof.
  destruct (@absolute_step_of_supplied_rel_step (fun _ _ => NaN)
              [half; one] [minus_one; two] "no method") as [H _].
  destruct (@absolute_step_of_supplied_rel_step (fun _ _ => NaN)
              [half; one] [minus_one; two; two] "3-point") as [_ H'].
  split.
  - etransitivity; [exact (H eq_refl)|]. xr_compute.
  - apply H'; cbn; lia.
Defined.

(* ================================================================== *)
(** * The dense differencer: shape and cost *)
(* ================================================================== *)

Lemma length_evaluation_points method x0 h o :
  method = "2-point" \/ method = "3-point" ->
  length (evaluation_points method x0 h o)
  = ((if (method =? "2-point")%string then 1 else 2) * length h)%nat.
Proof.
  intros Hm. unfold evaluation_points.
  assert (H : forall l, length (flat_map (points_of_variable method x0 h o) l)
                        = ((if (method =? "2-point")%string then 1 else 2)
                           * length l)%nat).
  { induction l as [|i l IH]; cbn [flat_map length]; [lia|].
    rewrite length_app, IH. unfold points_of_variable.
    destruct Hm as [-> | ->]; cbn [String.eqb Ascii.eqb Bool.eqb];
      [|destruct (nth i o false)]; cbn [length]; lia. }
  now rewrite H, length_seq.
Qed.

Lemma length_concat_rows {A} (rows : list (list A)) k :
  (forall row, In row rows -> length row = k) ->
  length (concat rows) = (k * length rows)%nat.
Proof.
  induction rows as [|row rows IH]; intros H; cbn [concat length]; [lia|].
  rewrite length_app, IH by (intros r Hr; apply H; now right).
  rewrite (H row) by now left. lia.
Qed.

(** For a function that returns arrays of the length [m] of [f0], a
    step and a mask of the length [n] of [x0], the dense differencer
    returns after one evaluation per variable with the 2-point method
    and two with the 3-point method; its result is an array of shape
    [(n,)] when [m = 1] and of shape [(m, n)] otherwise. *)
Theorem dense_difference_shape_and_cost :
  forall (f : vec -> vec) (m : nat) (x0 f0 h : vec) (o : mask)
         (method : string),
    method = "2-point" \/ method = "3-point" ->
    length f0 = m -> (forall x, length (f x) = m) ->
    length h = length x0 -> length o = length x0 ->
    let run :=
      _dense_difference (fun_wrapped (pure_fun f)) x0 f0 h o method in
    length (calls run)
    = ((if (method =? "2-point")%string then 1 else 2) * length x0)%nat /\
    exists J,
      outcome run = Ok J /\
      match J with
      | JVec v => m = 1%nat /\ length v = length x0
      | JDense J => m <> 1%nat /\ n_rows J = m /\ n_cols J = length x0
      | JSparse _ => False
      end.
Proof.
  intros f m x0 f0 h o method Hm Hf0 Hf Hh Ho run. subst run.
  unfold calls, outcome.
  rewrite (@dense_difference_run f m x0 f0 h o method Hm Hf0 Hf
             (eq_trans Ho (eq_sym Hh)) []).
  cbn [fst snd app]. split.
  - rewrite (length_evaluation_points x0 h o Hm). now rewrite Hh.
  - eexists. split; [reflexivity|]. cbv zeta.
    destruct (Nat.eqb_spec m 1) as [-> | Hne].
    + split; [reflexivity|].
      rewrite (@length_concat_rows _ _ 1%nat).
      * rewrite length_map, length_seq. lia.
      * intros row Hin. apply in_map_iff in Hin as (k & <- & _).
        now apply length_difference_quotient.
    + repeat split. exact Hne.
Qed.

Lemma dense_difference_shape_and_cost_witness :
  let run :=
    _dense_difference (fun_wrapped (pure_fun (fun x => [nth 0 x NaN])))
                      [zero; one] [zero] [half; half] [true; false]
                      "3-point" in
  length (calls run) = 4%nat /\
  exists J,
    outcome run = Ok J /\
    match J with
    | JVec v => length v = 2%nat
    | _ => False
    end.
Proof.
  destruct (@dense_difference_shape_and_cost (fun x => [nth 0 x NaN]) 1
              [zero; one] [zero] [half; half] [true; false] "3-point")
    as (Hc & J & HJ & Hs); try reflexivity; [now right|].
  split; [exact Hc|]. exists J. split; [exact HJ|].
  destruct J as [v | J | J]; [exact (proj2 Hs) | | exact Hs].
  destruct Hs as [Hne _]. now apply Hne.
Defined.

(** With no variable the dense differencer returns an empty result
    without calling the function, and the sparse differencer raises the
    [ValueError] of the maximum of an empty [groups] array. *)
Theorem no_variable_dense_returns_sparse_raises :
  forall (fun_ : vec -> M vec) (x0 f0 h : vec) (o : mask)
         (structure : matrix xreal) (method : string) (tr : list vec),
    (exists J,
        _dense_difference fun_ [] f0 [] o method tr = (tr, Ok J) /\
        match J with
        | JVec v => length f0 = 1%nat /\ v = []
        | JDense J => length f0 <> 1%nat /\
                      n_rows J = length f0 /\ n_cols J = 0%nat
        | JSparse _ => False
        end) /\
    _sparse_difference fun_ x0 f0 h o structure [] method tr
    = (tr, Raise (ValueError
         "zero-size array to reduction operation maximum which has no identity")).
Proof.
  intros fun_ x0 f0 h o structure method tr. split; [|reflexivity].
  unfold _dense_difference. cbn [length seq mapM]. unfold mbind, ret.
  destruct (Nat.eqb_spec (length f0) 1) as [E | Hne]; eexists;
    (split; [reflexivity|]); cbn; auto.
Qed.

(* ================================================================== *)
(** * approx_derivative on the dense path *)
(* ================================================================== *)

Lemma leb_ltb_false (a b : xreal) :
  (a <=? b)%X = true -> (b <? a)%X = false.
Proof.
  destruct a as [| |p|], b as [| |q|]; try discriminate; try reflexivity.
  destruct (leb_fin_cases p q) as [[-> H1]|[-> H1]]; [|discriminate].
  destruct (ltb_fin_cases q p) as [[-> H2]|[-> H2]]; [|reflexivity].
  exfalso. lra.
Qed.

Lemma existsb_nth_false (m : mask) :
  (forall i b, nth_error m i = Some b -> b = false) ->
  existsb (fun b => b) m = false.
Proof.
  induction m as [|b m IH]; intros H; [reflexivity|]. cbn [existsb].
  rewrite (H 0%nat b eq_refl). cbn [orb].
  apply IH. intros i b' Hb. exact (H (S i) b' Hb).
Qed.

Lemma in_box_no_violation (x lb ub : vec) :
  in_box lb ub x ->
  Np.any ((x <? lb) ||| (x >? ub))%V = false.
Proof.
  intros [_ Hb]. unfold Np.any. apply existsb_nth_false. intros i b.
  rewrite !nth_error_zip_with.
  destruct (nth_error x i) as [xi|] eqn:Hx; [|discriminate].
  destruct (nth_error lb i) as [l|] eqn:Hl; [|discriminate].
  destruct (nth_error ub i) as [u|] eqn:Hu; [|discriminate].
  intros [= <-]. destruct (Hb i l u xi Hl Hu Hx) as [H1 H2].
  unfold Xr.gtb. now rewrite (leb_ltb_false _ _ H1), (leb_ltb_false _ _ H2).
Qed.

Lemma mul_finite (a b : xreal) :
  is_finite a = true -> is_finite b = true -> is_finite (a * b)%X = true.
Proof. destruct a, b; try discriminate; reflexivity. Qed.

Lemma sign_of_finite (x : xreal) : is_finite (sign_of x) = true.
Proof. unfold sign_of. destruct (x >=? zero)%X; reflexivity. Qed.

Lemma maximum_one_abs_finite (x : xreal) :
  is_finite x = true -> is_finite (Xr.maximum one (Xr.abs x)) = true.
Proof.
  destruct x as [| |q|]; try discriminate. intros _.
  unfold one, of_Z. cbn [Xr.abs Xr.maximum].
  destruct (Fin _ <=? Fin _)%X; reflexivity.
Qed.

(** The absolute step is finite, one entry per variable, for a finite
    point and a finite relative step. *)
Lemma absolute_step_finite (float_pow : xreal -> xreal -> xreal)
      (rel_step : option vec) (x : vec) (method : string) :
  method = "2-point" \/ method = "3-point" ->
  all_finite x ->
  (rel_step = None ->
   is_finite (float_pow EPS (if method =? "2-point" then half
                             else (one / three)%X)) = true) ->
  (forall r, rel_step = Some r -> all_finite r /\ length r = length x) ->
  exists h,
    _compute_absolute_step float_pow rel_step x method = Ok h /\
    all_finite h /\ length h = length x.
Proof.
  intros Hm Hfx Hnone Hsome.
  assert (Hstep : forall r v,
             is_finite r = true -> is_finite v = true ->
             is_finite (r * sign_of v * Xr.maximum one (Xr.abs v))%X = true).
  { intros r v Hr Hv. apply mul_finite; [apply mul_finite|]; auto.
    - apply sign_of_finite.
    - now apply maximum_one_abs_finite. }
  destruct rel_step as [r|].
  - destruct (Hsome r eq_refl) as [Hfr Hlr].
    rewrite (@absolute_step_of_rel_step_array float_pow r x method Hlr).
    eexists. split; [reflexivity|]. split.
    + unfold all_finite in * . clear Hlr Hsome Hnone.
      revert x Hfx. induction Hfr as [|a r Ha Hr IH]; intros [|v x] Hfx;
        unfold Np.zip_with in * ; cbn [combine map]; constructor.
      * apply Hstep; [exact Ha|]. now inversion Hfx.
      * apply IH. now inversion Hfx.
    + rewrite length_zip_with. lia.
  - pose proof (Hnone eq_refl) as H2.
    unfold _compute_absolute_step.
    destruct Hm as [-> | ->]; cbn [String.eqb Ascii.eqb Bool.eqb bind] in * ;
      rewrite absolute_step_of; (eexists; split; [reflexivity|]);
      (split; [|apply length_map]);
      unfold all_finite in * ; apply Forall_map;
      (eapply Forall_impl; [|exact Hfx]); intros v Hv; now apply Hstep.
Qed.

Section DensePath.

Variable float_pow : xreal -> xreal -> xreal.
Variables (f : vec -> vec) (m : nat) (x : vec) (method : string).
Variables (rel_step : option vec) (f0 : option array_like).
Variables (bounds : array_like * array_like) (lb ub : vec).

Hypothesis Hmethod : method = "2-point" \/ method = "3-point".
Hypothesis Hf : forall v, length (f v) = m.
Hypothesis Hf0 :
  forall a, f0 = Some a -> exists v, as_1d a = Some v /\ length v = m.
Hypothesis Hlb : with_shape_of x (fst (_prepare_bounds bounds x)) = Some lb.
Hypothesis Hub : with_shape_of x (snd (_prepare_bounds bounds x)) = Some ub.
Hypothesis Hfin : all_finite x.
Hypothesis Hbox : in_box lb ub x.
Hypothesis Hnone :
  rel_step = None ->
  is_finite (float_pow EPS (if method =? "2-point" then half
                            else (one / three)%X)) = true.
Hypothesis Hsome :
  forall r, rel_step = Some r -> all_finite r /\ length r = length x.

Lemma with_shape_of_length (a : array_like) (v : vec) :
  with_shape_of x a = Some v -> length v = length x.
Proof.
  destruct a as [s | w | k]; try discriminate. cbn [with_shape_of].
  destruct (Nat.eqb_spec (length w) (length x)); [|discriminate].
  now intros [= <-].
Qed.

(** The run of [approx_derivative] without a sparsity structure: the
    function is evaluated at [x0] when [f0] is not supplied, then at the
    points of the scheme for the adjusted step, and the Jacobian of the
    difference quotients is returned. *)
Lemma approx_derivative_dense_run tr :
  exists h' o' f0v,
    length h' = length x /\ length o' = length x /\
    (f0 = None -> f0v = f x) /\
    length f0v = m /\
    approx_derivative float_pow (pure_fun f) (Arr1 x) method rel_step f0
                      bounds None tr
    = (tr ++ match f0 with None => [x] | Some _ => [] end
          ++ evaluation_points method x h' o',
       Ok (let rows := map (difference_quotient method f x f0v h' o')
                           (seq 0 (length h')) in
           if (m =? 1)%nat then JVec (concat rows)
           else JDense (Matrix m (length x)
                          (fun i j => nth i (nth j rows []) NaN)))).
Proof.
  destruct (@absolute_step_finite float_pow rel_step x method
              Hmethod Hfin Hnone Hsome) as (h & Hh & Hfh & Hlh).
  destruct (@adjusted_entries method x h lb ub Hmethod Hfin Hfh Hlh
              (with_shape_of_length _ Hlb) (with_shape_of_length _ Hub))
    as (h' & o' & Hadj & Hlh' & Hlo' & _).
  exists h', o'.
  assert (Hscheme :
            (if method =? "2-point"
             then _adjust_scheme_to_bounds x h 1 "1-sided" lb ub
             else _adjust_scheme_to_bounds x h 1 "2-sided" lb ub)
            = Ok (h', o')).
  { rewrite <- Hadj. unfold scheme_of.
    destruct (method =? "2-point"); reflexivity. }
  assert (Hmask : length o' = length h') by congruence.
  assert (Hrun : exists f0v,
             (f0 = None -> f0v = f x) /\ length f0v = m /\
             approx_derivative float_pow (pure_fun f) (Arr1 x) method
                               rel_step f0 bounds None tr
             = (tr ++ match f0 with None => [x] | Some _ => [] end
                   ++ evaluation_points method x h' o',
                Ok (let rows := map (difference_quotient method f x f0v h' o')
                                    (seq 0 (length h')) in
                    if (m =? 1)%nat then JVec (concat rows)
                    else JDense (Matrix m (length x)
                                   (fun i j => nth i (nth j rows []) NaN))))).
  { unfold approx_derivative. rewrite (method_recognised Hmethod).
    cbn [negb as_1d atleast_1d].
    destruct (_prepare_bounds bounds x) as [lb0 ub0].
    cbn [fst snd] in Hlb, Hub. rewrite Hlb, Hub.
    destruct f0 as [a|].
    - destruct (Hf0 eq_refl) as (v & Hv & Hlv). rewrite Hv.
      unfold mbind at 1. unfold ret at 1.
      rewrite (in_box_no_violation Hbox).
      rewrite Hh, mbind_lift_ok, Hlh, Nat.eqb_refl. cbn [negb].
      rewrite Hscheme, mbind_lift_ok.
      rewrite (@dense_difference_run f m x v h' o' method Hmethod Hlv Hf
                 Hmask tr).
      exists v. split; [discriminate|]. split; [exact Hlv|]. reflexivity.
    - unfold mbind at 1. rewrite fun_wrapped_pure.
      rewrite (in_box_no_violation Hbox).
      rewrite Hh, mbind_lift_ok, Hlh, Nat.eqb_refl. cbn [negb].
      rewrite Hscheme, mbind_lift_ok.
      rewrite (@dense_difference_run f m x (f x) h' o' method Hmethod
                 (Hf x) Hf Hmask (tr ++ [x])).
      exists (f x). split; [reflexivity|]. split; [apply Hf|].
      now rewrite <- app_assoc. }
  destruct Hrun as (f0v & Hnone' & Hlf0v & Hrun). exists f0v.
  split; [exact Hlh'|]. split; [exact Hlo'|].
  split; [exact Hnone'|]. split; [exact Hlf0v|]. exact Hrun.
Qed.

End DensePath.

(** The cost of [approx_derivative] on the dense path, for a finite
    point inside the bounds, a finite relative step and a function
    returning arrays of one length: one evaluation per variable with the
    2-point method and two with the 3-point method, and one more, the
    first, at [x0] itself when [f0] is not supplied. *)
Theorem approx_derivative_cost :
  forall (float_pow : xreal -> xreal -> xreal) (f : vec -> vec) (m : nat)
         (x : vec) (method : string) (rel_step : option vec)
         (f0 : option array_like) (bounds : array_like * array_like)
         (lb ub : vec),
    method = "2-point" \/ method = "3-point" ->
    (forall v, length (f v) = m) ->
    (forall a, f0 = Some a -> exists v, as_1d a = Some v /\ length v = m) ->
    with_shape_of x (fst (_prepare_bounds bounds x)) = Some lb ->
    with_shape_of x (snd (_prepare_bounds bounds x)) = Some ub ->
    all_finite x -> in_box lb ub x ->
    (rel_step = None ->
     is_finite (float_pow EPS (if (method =? "2-point")%string then half
                               else (one / three)%X)) = true) ->
    (forall r, rel_step = Some r -> all_finite r /\ length r = length x) ->
    let run :=
      approx_derivative float_pow (pure_fun f) (Arr1 x) method rel_step f0
                        bounds None in
    length (calls run)
    = ((match f0 with None => 1 | Some _ => 0 end)
       + (if (method =? "2-point")%string then 1 else 2) * length x)%nat /\
    (f0 = None -> nth_error (calls run) 0 = Some x).
Proof.
  intros float_pow f m x method rel_step f0 bounds lb ub
         Hm Hf Hf0 Hlb Hub Hfin Hbox Hnone Hsome run.
  destruct (@approx_derivative_dense_run float_pow f m x method rel_step f0
              bounds lb ub Hm Hf Hf0 Hlb Hub Hfin Hbox Hnone Hsome [])
    as (h' & o' & f0v & Hlh' & _ & _ & _ & Hrun).
  subst run. unfold calls. rewrite Hrun. cbn [fst app]. split.
  - rewrite length_app, (length_evaluation_points x h' o' Hm), Hlh'.
    destruct f0; reflexivity.
  - intros ->. reflexivity.
Qed.

Lemma approx_derivative_cost_witness :
  let run :=
    approx_derivative (fun _ _ => half)
      (pure_fun (fun v => [nth 0 v NaN; nth 1 v NaN])) (Arr1 [one; zero])
      "3-point" None (Some (Arr1 [one; zero]))
      (Scalar NInf, Arr1 [one; one]) None in
  length (calls run) = 4%nat.
Proof.
  refine (proj1 (@approx_derivative_cost (fun _ _ => half)
           (fun v => [nth 0 v NaN; nth 1 v NaN]) 2 [one; zero] "3-point"
           None (Some (Arr1 [one; zero]))
           (Scalar NInf, Arr1 [one; one]) [NInf; NInf] [one; one]
           _ _ _ _ _ _ _ _ _)).
  - right; reflexivity.
  - reflexivity.
  - intros a [= <-]. exists [one; zero]. split; reflexivity.
  - reflexivity.
  - reflexivity.
  - repeat constructor.
  - split; [reflexivity|].
    intros [|[|i]] l u pi Hl Hu Hp; cbn in Hl, Hu, Hp;
      [ | | destruct i; discriminate ];
      injection Hl as <-; injection Hu as <-; injection Hp as <-;
      split; reflexivity.
  - intros _. reflexivity.
  - discriminate.
Defined.

(* ================================================================== *)
(** * The sparse differencer: one round of evaluations per group *)
(* ================================================================== *)

Lemma take_in_range {T} (a : list T) (idx : list nat) :
  Forall (fun k => (k < length a)%nat) idx ->
  exists t, take a idx = Ok t /\ length t = length idx /\
            forall v, In v t -> In v a.
Proof.
  induction 1 as [|k idx Hk _ IH]; cbn [take fold_right].
  - exists []. repeat split. intros v [].
  - destruct IH as (t & Ht & Hlt & Hin). unfold take in Ht. rewrite Ht.
    cbn [bind]. destruct (nth_error a k) as [v|] eqn:E;
      [|apply nth_error_None in E; lia].
    exists (v :: t). split; [reflexivity|]. split; [cbn; now rewrite Hlt|].
    intros w [<- | Hw]; [eapply nth_error_In; eauto | auto].
Qed.

Lemma take_as_map {T} (a : list T) (idx : list nat) (d : T) :
  Forall (fun k => (k < length a)%nat) idx ->
  take a idx = Ok (map (fun k => nth k a d) idx).
Proof.
  induction 1 as [|k idx Hk _ IH]; cbn [take fold_right map]; [reflexivity|].
  unfold take in IH. rewrite IH. cbn [bind].
  now rewrite (nth_error_nth' a d Hk).
Qed.

Lemma put_in_range {T} (a : list T) (idx : list nat) (values : list T) :
  Forall (fun k => (k < length a)%nat) idx ->
  exists b, put a idx values = Ok b /\ length b = length a.
Proof.
  intros H. unfold put.
  replace (forallb (fun k => (k <? length a)%nat) idx) with true.
  - eexists. split; [reflexivity|]. apply Scatter.length_scatter.
  - symmetry. apply forallb_forall. rewrite Forall_forall in H.
    intros k Hk. apply Nat.ltb_lt. now apply H.
Qed.

Lemma where_true_in_range (e : mask) :
  Forall (fun k => (k < length e)%nat) (NpB.where_true e).
Proof.
  unfold NpB.where_true. apply Forall_forall. intros k Hk.
  apply in_map_iff in Hk as ([k' b] & <- & Hin).
  apply filter_In in Hin as [Hin _]. apply in_combine_l in Hin.
  apply in_seq in Hin. cbn [fst]. lia.
Qed.

Lemma find_columns_in_range (structure : matrix xreal) (cols : list nat) :
  Forall (fun c => (c < n_cols structure)%nat) cols ->
  exists ij,
    find_columns structure cols = Ok ij /\
    Forall (fun p => (fst p < n_rows structure)%nat /\
                     (snd p < length cols)%nat /\
                     nonzero (cell structure (fst p) (nth (snd p) cols 0%nat))
                     = true) ij.
Proof.
  intros H. unfold find_columns, take_columns.
  replace (forallb (fun c => (c <? n_cols structure)%nat) cols) with true.
  - cbn [bind n_rows n_cols]. eexists. split; [reflexivity|].
    apply Forall_forall. intros [r k] Hin.
    apply filter_In in Hin as [Hin Hnz]. apply in_prod_iff in Hin as [Hr Hk].
    apply in_seq in Hr. apply in_seq in Hk. cbn [fst snd cell] in * .
    repeat split; [lia | lia | exact Hnz].
  - symmetry. apply forallb_forall. rewrite Forall_forall in H.
    intros k Hk. apply Nat.ltb_lt. now apply H.
Qed.

Lemma mask_select_in {T} (m : mask) (a : list T) v :
  In v (mask_select m a) -> In v a.
Proof.
  unfold mask_select. intros H. apply in_map_iff in H as ([b w] & <- & Hin).
  apply filter_In in Hin as [Hin _]. now apply in_combine_r in Hin.
Qed.

Lemma lil_set_all_in_range (ijv : list (nat * nat * xreal)) :
  forall J : smatrix,
    Forall (fun e => (fst (fst e) < n_rows J)%nat /\
                     (snd (fst e) < n_cols J)%nat) ijv ->
    exists J', lil_set_all J ijv = Ok J' /\
               n_rows J' = n_rows J /\ n_cols J' = n_cols J /\
               forall r c, cell J' r c <> None ->
                 cell J r c <> None \/ In (r, c) (map fst ijv).
Proof.
  unfold lil_set_all.
  induction ijv as [|e ijv IH]; intros J H; cbn [fold_left].
  - exists J. repeat split. auto.
  - inversion H as [|e' l' [Hr Hc] Hrest]; subst. cbn [bind].
    unfold lil_set at 2.
    apply Nat.ltb_lt in Hr, Hc. rewrite Hr, Hc. cbn [andb].
    match goal with
    | |- context [fold_left _ ijv (Ok ?J1)] =>
        destruct (IH J1) as (J' & HJ' & Hr' & Hc' & Hcell)
    end.
    + cbn [n_rows n_cols]. exact Hrest.
    + exists J'. split; [exact HJ'|]. cbn [n_rows n_cols] in Hr', Hc'.
      split; [assumption|]. split; [assumption|].
      intros r c Hne. destruct (Hcell r c Hne) as [Hold | Hin].
      * cbn [cell] in Hold.
        destruct (Nat.eqb_spec r (fst (fst e)));
          destruct (Nat.eqb_spec c (snd (fst e))); cbn [andb] in Hold;
          auto.
        right. left. subst. now destruct (fst e).
      * right. now right.
Qed.

Lemma forall_in_map {A B} (P : B -> Prop) (g : A -> B) (l : list A) :
  Forall (fun a => P (g a)) l -> Forall P (map g l).
Proof. intros H. now apply Forall_map. Qed.

Lemma length_points_of_groups method (x0 h : vec) (o : mask)
      (groups ids : list nat) :
  method = "2-point" \/ method = "3-point" ->
  length (flat_map (points_of_group method x0 h o groups) ids)
  = ((if (method =? "2-point")%string then 1 else 2) * length ids)%nat.
Proof.
  intros Hmethod.
  induction ids as [|g ids IH]; cbn [flat_map length]; [lia|].
  rewrite length_app, IH. unfold points_of_group.
  destruct Hmethod as [-> | ->]; cbn [String.eqb Ascii.eqb Bool.eqb length];
    lia.
Qed.

Section SparseCost.

Variables (f : vec -> vec) (m n : nat) (x0 f0 h : vec) (o : mask).
Variables (structure : matrix xreal) (groups : list nat) (method : string).

Hypothesis Hmethod : method = "2-point" \/ method = "3-point".
Hypothesis Hf0 : length f0 = m.
Hypothesis Hf : forall x, length (f x) = m.
Hypothesis Hx : length x0 = n.
Hypothesis Hh : length h = n.
Hypothesis Ho : length o = n.
Hypothesis Hg : length groups = n.
Hypothesis Hsr : n_rows structure = m.
Hypothesis Hsc : n_cols structure = n.

(** The assignment [J[i, j] = df[i] / dx[j]] goes through for rows below
    [m] and columns below [n]. *)
Lemma sparse_step_tail (J : smatrix) (i j : list nat) (df dx : vec) tr :
  n_rows J = m -> n_cols J = n ->
  length df = m -> length dx = n ->
  Forall (fun r => (r < m)%nat) i -> Forall (fun c => (c < n)%nat) j ->
  exists J',
    (dfi <- lift (take df i) ;;
     dxj <- lift (take dx j) ;;
     lift (lil_set_all J (combine (combine i j) (dfi / dxj)%V)))%M tr
    = (tr, Ok J') /\
    n_rows J' = m /\ n_cols J' = n /\
    forall r c, cell J' r c <> None ->
      cell J r c <> None \/ In (r, c) (combine i j).
Proof.
  intros Hr Hc Hdf Hdx Hi Hj.
  destruct (@take_in_range _ df i) as (dfi & -> & _ & _);
    [now rewrite Hdf|].
  destruct (@take_in_range _ dx j) as (dxj & -> & _ & _);
    [now rewrite Hdx|].
  rewrite !mbind_lift_ok.
  destruct (@lil_set_all_in_range (combine (combine i j) (dfi / dxj)%V) J)
    as (J' & -> & Hr' & Hc' & Hcell).
  - apply Forall_forall. intros [[r c] v] Hin. cbn [fst snd].
    apply in_combine_l in Hin.
    pose proof (in_combine_l _ _ _ _ Hin) as H1.
    pose proof (in_combine_r _ _ _ _ Hin) as H2.
    rewrite Forall_forall in Hi, Hj. rewrite Hr, Hc. auto.
  - exists J'. split; [reflexivity|]. split; [congruence|].
    split; [congruence|].
    intros r c Hne. destruct (Hcell r c Hne) as [Hold | Hin]; [now left|].
    right. apply in_map_iff in Hin as ([rc v] & E & Hin).
    cbn [fst] in E. subst rc. now apply in_combine_l in Hin.
Qed.

Lemma sparse_step_returns g (J : smatrix) tr :
  n_rows J = m -> n_cols J = n ->
  exists J',
    _sparse_difference_step (fun_wrapped (pure_fun f)) x0 f0 h o
                            structure groups method J g tr
    = (tr ++ points_of_group method x0 h o groups g, Ok J') /\
    n_rows J' = m /\ n_cols J' = n /\
    forall r c, cell J' r c <> None ->
      cell J r c <> None \/ nonzero (cell structure r c) = true.
Proof.
  intros Hr Hc.
  unfold _sparse_difference_step, points_of_group. cbv zeta.
  set (e := map (Nat.eqb g) groups).
  assert (He : length e = n) by (subst e; now rewrite length_map).
  set (cols := NpB.where_true e).
  assert (Hcols : Forall (fun c => (c < n)%nat) cols).
  { subst cols. rewrite <- He. apply where_true_in_range. }
  destruct (@find_columns_in_range structure cols) as (ij & Hij & Hrange);
    [now rewrite Hsc|].
  rewrite Hsr in Hrange.
  assert (Hi : Forall (fun r => (r < m)%nat) (map fst ij)).
  { apply forall_in_map. eapply Forall_impl; [|exact Hrange].
    intros p [H1 _]. exact H1. }
  set (j := map (fun p => nth (snd p) cols 0%nat) ij).
  assert (Hj : take cols (map snd ij) = Ok j).
  { subst j. rewrite (@take_as_map _ cols (map snd ij) 0%nat).
    - now rewrite map_map.
    - apply forall_in_map. eapply Forall_impl; [|exact Hrange].
      intros p (_ & H2 & _). exact H2. }
  assert (Hjn : Forall (fun c => (c < n)%nat) j).
  { subst j. apply forall_in_map. eapply Forall_impl; [|exact Hrange].
    intros p (_ & H2 & _). cbv beta.
    rewrite Forall_forall in Hcols. apply Hcols. now apply nth_In. }
  assert (Hwritten : forall r c, In (r, c) (combine (map fst ij) j) ->
                                 nonzero (cell structure r c) = true).
  { intros r c Hin. subst j.
    assert (E : combine (map fst ij)
                        (map (fun p => nth (snd p) cols 0%nat) ij)
                = map (fun p => (fst p, nth (snd p) cols 0%nat)) ij).
    { clear. induction ij as [|p l IH]; cbn; [reflexivity|].
      now rewrite IH. }
    rewrite E in Hin. apply in_map_iff in Hin as (p & [= <- <-] & Hp).
    rewrite Forall_forall in Hrange. now apply (Hrange p Hp). }
  set (h_vec := (h * map astype_float e)%V).
  assert (Hlhv : length h_vec = n).
  { subst h_vec. rewrite length_zip_with, length_map, Hh, He. lia. }
  destruct Hmethod as [-> | ->]; cbn [String.eqb Ascii.eqb Bool.eqb].
  - (* 2-point *)
    set (x := (x0 + h_vec)%V).
    assert (Hlx : length x = n).
    { subst x. rewrite length_zip_with, Hx, Hlhv. lia. }
    erewrite mbind_ok with (tr' := tr ++ [x])
                           (a := (map fst ij, j, (f x - f0)%V, (x - x0)%V)).
    2:{ unfold mbind, lift, ret. rewrite fun_wrapped_pure. cbv beta iota.
        unfold vsub_b. rewrite broadcast_same_length by (now rewrite Hf, Hf0).
        cbv beta iota. rewrite Hij. cbv beta iota. rewrite Hj. reflexivity. }
    cbv beta iota.
    destruct (@sparse_step_tail J (map fst ij) j (f x - f0)%V (x - x0)%V
                (tr ++ [x])) as (J' & Heq & Hr' & Hc' & Hcell); auto.
    + rewrite length_zip_with, Hf, Hf0. lia.
    + rewrite length_zip_with, Hlx, Hx. lia.
    + exists J'. split; [exact Heq|].
      split; [exact Hr'|]. split; [exact Hc'|].
      intros r c Hne. destruct (Hcell r c Hne); auto.
  - (* 3-point *)
    set (mask_1 := (o & e)%V).
    set (mask_2 := (vnot o & e)%V).
    set (x1 := Np.where_ mask_2
                 (Np.where_ mask_1 (x0 + h_vec)%V x0 - h_vec)%V
                 (Np.where_ mask_1 (x0 + h_vec)%V x0)).
    set (x2 := Np.where_ mask_2
                 (Np.where_ mask_1 (x0 + two ^* h_vec)%V x0 + h_vec)%V
                 (Np.where_ mask_1 (x0 + two ^* h_vec)%V x0)).
    set (dx := Np.where_ mask_2 (x2 - x1)%V
                 (Np.where_ mask_1 (x2 - x0)%V (Np.zeros (length x0)))).
    assert (Hlm1 : length mask_1 = n).
    { subst mask_1. rewrite length_zip_with, Ho, He. lia. }
    assert (Hlm2 : length mask_2 = n).
    { subst mask_2. unfold vnot.
      rewrite length_zip_with, length_map, Ho, He. lia. }
    assert (Hl1 : length x1 = n).
    { subst x1. rewrite !length_where, !length_zip_with, !length_where,
        !length_zip_with, Hlm1, Hlm2, Hx, Hlhv. lia. }
    assert (Hl2 : length x2 = n).
    { subst x2. rewrite !length_where, !length_zip_with, !length_where,
        !length_zip_with, !length_map, Hlm1, Hlm2, Hx, Hlhv. lia. }
    assert (Hldx : length dx = n).
    { subst dx. unfold Np.zeros.
      rewrite !length_where, !length_zip_with, repeat_length,
        Hlm1, Hlm2, Hl1, Hl2, Hx. lia. }
    destruct (@take_in_range _ o j) as (mask & Hmask & _ & _);
      [now rewrite Ho|].
    set (rows1 := mask_select mask (map fst ij)).
    set (rows2 := mask_select (vnot mask) (map fst ij)).
    assert (Hrows1 : Forall (fun r => (r < m)%nat) rows1).
    { apply Forall_forall. intros r Hin. rewrite Forall_forall in Hi.
      apply Hi. eapply mask_select_in. exact Hin. }
    assert (Hrows2 : Forall (fun r => (r < m)%nat) rows2).
    { apply Forall_forall. intros r Hin. rewrite Forall_forall in Hi.
      apply Hi. eapply mask_select_in. exact Hin. }
    destruct (@take_in_range _ f0 rows1) as (f0r & Hf0r & _ & _);
      [now rewrite Hf0|].
    destruct (@take_in_range _ (f x1) rows1) as (f1r & Hf1r & _ & _);
      [now rewrite Hf|].
    destruct (@take_in_range _ (f x2) rows1) as (f2r & Hf2r & _ & _);
      [now rewrite Hf|].
    destruct (@put_in_range _ (repeat uninitialised m) rows1
                ((of_Z (-3) ^* f0r + four ^* f1r) - f2r)%V)
      as (df1 & Hdf1 & Hldf1); [now rewrite repeat_length|].
    rewrite repeat_length in Hldf1.
    destruct (@take_in_range _ (f x1) rows2) as (g1r & Hg1r & _ & _);
      [now rewrite Hf|].
    destruct (@take_in_range _ (f x2) rows2) as (g2r & Hg2r & _ & _);
      [now rewrite Hf|].
    destruct (@put_in_range _ df1 rows2 (g2r - g1r)%V)
      as (df & Hdf & Hldf); [now rewrite Hldf1|].
    rewrite Hldf1 in Hldf.
    erewrite mbind_ok with (tr' := tr ++ [x1; x2])
                           (a := (map fst ij, j, df, dx)).
    2:{ unfold mbind, lift, ret. rewrite fun_wrapped_pure. cbv beta iota.
        rewrite fun_wrapped_pure. cbv beta iota.
        fold e. fold cols. rewrite Hij. cbv beta iota. rewrite Hj.
        cbv beta iota. rewrite Hmask. cbv beta iota.
        fold rows1. rewrite Hf0, Hf0r. cbv beta iota.
        fold x1 x2. rewrite Hf1r. cbv beta iota. rewrite Hf2r.
        cbv beta iota. rewrite Hdf1. cbv beta iota.
        fold rows2. rewrite Hg1r. cbv beta iota. rewrite Hg2r.
        cbv beta iota. rewrite Hdf. rewrite <- app_assoc. reflexivity. }
    cbv beta iota.
    destruct (@sparse_step_tail J (map fst ij) j df dx (tr ++ [x1; x2]))
      as (J' & Heq & Hr' & Hc' & Hcell); auto.
    exists J'. split; [exact Heq|].
    split; [exact Hr'|]. split; [exact Hc'|].
    intros r c Hne. destruct (Hcell r c Hne); auto.
Qed.

Lemma sparse_loop_returns (ids : list nat) :
  forall (J : smatrix) tr,
    n_rows J = m -> n_cols J = n ->
    exists J',
      foldM (_sparse_difference_step (fun_wrapped (pure_fun f)) x0 f0 h o
                                     structure groups method) ids J tr
      = (tr ++ flat_map (points_of_group method x0 h o groups) ids, Ok J') /\
      n_rows J' = m /\ n_cols J' = n /\
      forall r c, cell J' r c <> None ->
        cell J r c <> None \/ nonzero (cell structure r c) = true.
Proof.
  induction ids as [|g ids IH]; intros J tr Hr Hc; cbn [foldM].
  - exists J. unfold ret. cbn [flat_map]. rewrite app_nil_r.
    repeat split; auto.
  - destruct (@sparse_step_returns g J tr Hr Hc)
      as (J1 & Heq1 & Hr1 & Hc1 & Hcell1).
    destruct (IH J1 (tr ++ points_of_group method x0 h o groups g) Hr1 Hc1)
      as (J' & Heq & Hr' & Hc' & Hcell).
    exists J'.
    rewrite (@mbind_ok _ _ _ _ _ _ _ Heq1), Heq. cbn [flat_map].
    rewrite app_assoc.
    split; [reflexivity|]. split; [assumption|]. split; [assumption|].
    intros r c Hne. destruct (Hcell r c Hne) as [H1 | H1]; auto.
Qed.

End SparseCost.

(** The cost of the sparse differencer is counted in groups, not in
    variables: for a function returning arrays of the length [m] of
    [f0], a structure of shape [(m, n)] and a group id for each of the
    [n >= 1] variables, it returns a sparse [(m, n)] matrix after one
    evaluation per group with the 2-point method and two with the
    3-point method, the number of groups being [max(groups) + 1]. *)
Theorem sparse_difference_cost :
  forall (f : vec -> vec) (m n : nat) (x0 f0 h : vec) (o : mask)
         (structure : matrix xreal) (groups : list nat) (method : string),
    method = "2-point" \/ method = "3-point" ->
    length f0 = m -> (forall x, length (f x) = m) ->
    length x0 = n -> length h = n -> length o = n -> length groups = n ->
    n_rows structure = m -> n_cols structure = n ->
    (0 < n)%nat ->
    let run :=
      _sparse_difference (fun_wrapped (pure_fun f)) x0 f0 h o structure
                         groups method in
    length (calls run)
    = ((if (method =? "2-point")%string then 1 else 2)
       * n_groups groups)%nat /\
    exists J,
      outcome run = Ok (JSparse J) /\ n_rows J = m /\ n_cols J = n.
Proof.
  intros f m n x0 f0 h o structure groups method
         Hm Hf0 Hf Hx Hh Ho Hg Hsr Hsc Hn run.
  subst run. unfold calls, outcome, _sparse_difference.
  destruct (@max_int_ok groups) as (mx & Hmax & HG).
  { intros E. rewrite E in Hg. cbn in Hg. lia. }
  rewrite Hmax, mbind_lift_ok. cbv zeta.
  destruct (@sparse_loop_returns f m n x0 f0 h o structure groups method
              Hm Hf0 Hf Hx Hh Ho Hg Hsr Hsc (seq 0 (mx + 1))
              (Matrix (length f0) (length x0) (fun _ _ => None)) [])
    as (J & Heq & Hr & Hc & _); [exact Hf0 | exact Hx |].
  rewrite (@mbind_ok _ _ _ _ _ _ _ Heq). unfold ret. cbn [fst snd app].
  split.
  - rewrite length_points_of_groups by exact Hm.
    rewrite length_seq, HG. f_equal. lia.
  - exists J. repeat split; assumption.
Qed.

Lemma sparse_difference_cost_witness :
  let run :=
    _sparse_difference
      (fun_wrapped (pure_fun (fun x => [nth 0 x NaN; nth 1 x NaN; nth 2 x NaN])))
      [zero; zero; zero] [zero; zero; zero] [half; half; half]
      [false; false; false]
      (Matrix 3 3 (fun r c => if (r =? c)%nat then one else zero))
      [0; 0; 0]%nat "3-point" in
  length (calls run) = 2%nat.
Proof.
  refine (proj1 (@sparse_difference_cost
           (fun x => [nth 0 x NaN; nth 1 x NaN; nth 2 x NaN]) 3 3
           [zero; zero; zero] [zero; zero; zero] [half; half; half]
           [false; false; false]
           (Matrix 3 3 (fun r c => if (r =? c)%nat then one else zero))
           [0; 0; 0]%nat "3-point" _ _ _ _ _ _ _ _ _ _));
    try reflexivity; [now right | lia].
Defined.

(** The sparse differencer writes inside the structure only: under the
    same conditions, every entry stored in the matrix it returns is at a
    position where the structure is nonzero. *)
Theorem sparse_difference_stays_in_structure :
  forall (f : vec -> vec) (m n : nat) (x0 f0 h : vec) (o : mask)
         (structure : matrix xreal) (groups : list nat) (method : string),
    method = "2-point" \/ method = "3-point" ->
    length f0 = m -> (forall x, length (f x) = m) ->
    length x0 = n -> length h = n -> length o = n -> length groups = n ->
    n_rows structure = m -> n_cols structure = n ->
    (0 < n)%nat ->
    exists J,
      outcome (_sparse_difference (fun_wrapped (pure_fun f)) x0 f0 h o
                                  structure groups method)
      = Ok (JSparse J) /\
      forall r c, cell J r c <> None -> nonzero (cell structure r c) = true.
Proof.
  intros f m n x0 f0 h o structure groups method
         Hm Hf0 Hf Hx Hh Ho Hg Hsr Hsc Hn.
  unfold outcome, _sparse_difference.
  destruct (@max_int_ok groups) as (mx & Hmax & HG).
  { intros E. rewrite E in Hg. cbn in Hg. lia. }
  rewrite Hmax, mbind_lift_ok. cbv zeta.
  destruct (@sparse_loop_returns f m n x0 f0 h o structure groups method
              Hm Hf0 Hf Hx Hh Ho Hg Hsr Hsc (seq 0 (mx + 1))
              (Matrix (length f0) (length x0) (fun _ _ => None)) [])
    as (J & Heq & _ & _ & Hcell); [exact Hf0 | exact Hx |].
  rewrite (@mbind_ok _ _ _ _ _ _ _ Heq). unfold ret. cbn [snd].
  exists J. split; [reflexivity|].
  intros r c Hne. destruct (Hcell r c Hne) as [Hold | Hnz]; [|exact Hnz].
  cbn [cell] in Hold. congruence.
Qed.

Lemma sparse_difference_stays_in_structure_witness :
  exists J,
    outcome (_sparse_difference
               (fun_wrapped
                  (pure_fun (fun x => [nth 0 x NaN; nth 1 x NaN])))
               [zero; zero] [zero; zero] [half; half] [false; false]
               (Matrix 2 2 (fun r c => if (r =? c)%nat then one else zero))
               [0; 0]%nat "2-point")
    = Ok (JSparse J) /\
    cell J 0 1 = None.
Proof.
  destruct (@sparse_difference_stays_in_structure
              (fun x => [nth 0 x NaN; nth 1 x NaN]) 2 2
              [zero; zero] [zero; zero] [half; half] [false; false]
              (Matrix 2 2 (fun r c => if (r =? c)%nat then one else zero))
              [0; 0]%nat "2-point") as (J & HJ & Hin);
    try reflexivity; [now left | lia |].
  exists J. split; [exact HJ|].
  destruct (cell J 0 1) as [v|] eqn:E; [|reflexivity].
  assert (Hne : cell J 0 1 <> None) by (rewrite E; discriminate).
  apply Hin in Hne. vm_compute in Hne. discriminate.
Defined.

(* ================================================================== *)
(** * What the checker returns *)
(* ================================================================== *)

Lemma mbind_inv {A B} (c : M A) (k : A -> M B) tr tr' r :
  mbind c k tr = (tr', Ok r) ->
  exists a tr1, c tr = (tr1, Ok a) /\ k a tr1 = (tr', Ok r).
Proof.
  unfold mbind. destruct (c tr) as [tr1 [a|e]]; [eauto | discriminate].
Qed.

Lemma lift_inv {A} (c : result A) tr tr' r :
  lift c tr = (tr', Ok r) -> c = Ok r.
Proof. unfold lift. now intros [= _ ->]. Qed.

Lemma div_fin_pos (p y : Qc) :
  (0 < this y)%Q -> (Fin p / Fin y)%X = Fin (p / y)%Qc.
Proof.
  intros Hy. cbn [Xr.div].
  replace (y ?= 0)%Qc with Gt; [reflexivity|].
  symmetry. unfold Qccompare. change (this 0%Qc) with 0%Q.
  now apply Qgt_alt.
Qed.

Lemma pinf_div_fin_pos (y : Qc) :
  (0 < this y)%Q -> (PInf / Fin y)%X = PInf.
Proof.
  intros Hy. cbn [Xr.div].
  replace (y ?= 0)%Qc with Gt; [reflexivity|].
  symmetry. unfold Qccompare. change (this 0%Qc) with 0%Q.
  now apply Qgt_alt.
Qed.

Lemma maximum_one_abs_cases (e : xreal) :
  Xr.maximum one (Xr.abs e) = NaN \/
  Xr.maximum one (Xr.abs e) = PInf \/
  exists y, Xr.maximum one (Xr.abs e) = Fin y /\ (0 < this y)%Q.
Proof.
  destruct e as [| |q|]; [now left | right; now left | | right; now left].
  right; right. unfold one, of_Z. cbn [Xr.abs Xr.maximum].
  destruct (leb_fin_cases (Q2Qc (inject_Z 1)) (Qcabs q)) as [[-> H]|[-> H]];
    eexists; (split; [reflexivity|]).
  - rewrite this_Q2Qc in H. unfold inject_Z in H. lra.
  - rewrite this_Q2Qc. unfold inject_Z. lra.
Qed.

(** The error of an entry is never negative (it may be NaN). *)
Lemma entry_error_not_negative (a e : xreal) :
  (entry_error a e <? zero)%X = false.
Proof.
  unfold entry_error.
  destruct (maximum_one_abs_cases e) as [-> | [-> | (y & -> & Hy)]].
  - destruct (Xr.abs a); reflexivity.
  - destruct a; reflexivity.
  - destruct a as [| |p|]; cbn [Xr.abs];
      rewrite ?pinf_div_fin_pos, ?div_fin_pos by exact Hy;
      try reflexivity.
    destruct (ltb_fin_cases (Qcabs p / y)%Qc 0%Qc) as [[_ H]|[E _]];
      [exfalso | exact E].
    rewrite this_div, this_abs in H. change (this 0%Qc) with 0%Q in H.
    assert (H1 : (0 <= Qabs.Qabs (this p))%Q) by apply Qabs.Qabs_nonneg.
    assert (H2 : (0 <= / this y)%Q)
      by (apply Qinv_le_0_compat; now apply Qlt_le_weak).
    pose proof (Qmult_le_0_compat _ _ H1 H2) as H3.
    unfold Qdiv in H. lra.
Qed.

Lemma maximum_cases (a b : xreal) :
  Xr.maximum a b = NaN \/ Xr.maximum a b = a \/ Xr.maximum a b = b.
Proof.
  destruct a, b; cbn [Xr.maximum]; auto;
    match goal with
    | |- context [if ?c then _ else _] => destruct c; auto
    end.
Qed.

Lemma np_max_in (l : vec) (r : xreal) :
  Np.max l = Ok r -> r = NaN \/ In r l.
Proof.
  destruct l as [|x t]; [discriminate|]. cbn [Np.max]. intros [= <-].
  revert x. induction t as [|y t IH]; intros x; cbn [fold_left].
  - right. now left.
  - destruct (IH (Xr.maximum x y)) as [E | [E | Hin]].
    + now left.
    + rewrite <- E.
      destruct (maximum_cases x y) as [-> | [-> | ->]];
        [now left | right; now left | right; right; now left].
    + right. right. now right.
Qed.

Lemma np_max_not_negative (l : vec) (r : xreal) :
  (forall v, In v l -> (v <? zero)%X = false) ->
  Np.max l = Ok r -> (r <? zero)%X = false.
Proof.
  intros H Hmax. destruct (np_max_in _ Hmax) as [-> | Hin]; [reflexivity|].
  now apply H.
Qed.

Lemma dense_tail_not_negative (T E : matrix xreal) tr tr' r :
  (d <- lift (broadcast2d Xr.sub T E) ;;
   q <- lift (broadcast2d Xr.div (map_matrix Xr.abs d)
                (map_matrix (fun x => Xr.maximum one (Xr.abs x)) E)) ;;
   lift (Np.max (flatten q)))%M tr = (tr', Ok r) ->
  (r <? zero)%X = false.
Proof.
  intros H.
  apply mbind_inv in H as (d & tr1 & _ & H).
  apply mbind_inv in H as (q & tr2 & Hq & H).
  apply lift_inv in Hq. apply lift_inv in H.
  apply (np_max_not_negative (flatten q)); [|exact H].
  intros v Hv. rewrite flatten_as_map in Hv.
  apply in_map_iff in Hv as ([i j] & <- & _). cbn [fst snd].
  unfold broadcast2d in Hq.
  destruct (bok _ _ && bok _ _); [|discriminate].
  injection Hq as <-. cbn [cell map_matrix].
  apply entry_error_not_negative.
Qed.

(** The accuracy [check_derivative] returns is never negative: on either
    comparison path, whatever it returns is zero, positive or NaN. *)
Theorem check_derivative_not_negative :
  forall (float_pow : xreal -> xreal -> xreal)
         (shuffle : list nat -> list nat)
         (fun_ : user_fun) (jac : array_like -> result analytic)
         (x0 : array_like) (bounds : array_like * array_like)
         (sparse_diff : bool) (sparsity : option (matrix_like * list nat))
         (tr tr' : list vec) (r : xreal),
    check_derivative float_pow shuffle fun_ jac x0 bounds sparse_diff
                     sparsity tr = (tr', Ok r) ->
    (r <? zero)%X = false.
Proof.
  intros float_pow shuffle fun_ jac x0 bounds sparse_diff sparsity tr tr' r H.
  unfold check_derivative in H.
  apply mbind_inv in H as (a & tr1 & _ & H).
  assert (Hdense :
    forall tr1,
      (J_diff <- approx_derivative float_pow fun_ x0 "3-point" None None
                                   bounds None ;;
       d <- lift (broadcast2d Xr.sub (analytic_2d a) (jacobian_2d J_diff)) ;;
       q <- lift (broadcast2d Xr.div (map_matrix Xr.abs d)
                    (map_matrix (fun x => Xr.maximum one (Xr.abs x))
                                (jacobian_2d J_diff))) ;;
       lift (Np.max (flatten q)))%M tr1 = (tr', Ok r) ->
      (r <? zero)%X = false).
  { intros tr2 H2. apply mbind_inv in H2 as (Jd & tr3 & _ & H2).
    exact (dense_tail_not_negative _ _ _ H2). }
  destruct a as [v | v | J | J_sp]; try (now apply (Hdense tr1)).
  destruct sparse_diff; [|now apply (Hdense tr1)].
  apply mbind_inv in H as (s & tr2 & _ & H).
  apply mbind_inv in H as (Jd & tr3 & _ & H).
  destruct Jd as [v | Jd | Jd]; try discriminate.
  apply mbind_inv in H as (S & tr4 & _ & H).
  apply mbind_inv in H as (d & tr5 & Hd & H).
  apply lift_inv in Hd. apply lift_inv in H.
  refine (@np_max_not_negative _ r _ H).
  intros v Hv. unfold Np.zip_with in Hv.
  apply in_map_iff in Hv as ([p e] & <- & Hin). cbn [fst snd].
  destruct (select Jd (map fst (find S))) as [w|]; [|discriminate].
  injection Hd as <-.
  pose proof (in_combine_l _ _ _ _ Hin) as Hp.
  pose proof (in_combine_r _ _ _ _ Hin) as He.
  unfold vabs in Hp.
  apply in_map_iff in Hp as (a' & <- & _).
  apply in_map_iff in He as (e' & <- & _).
  apply (entry_error_not_negative a' e').
Qed.

Lemma check_derivative_not_negative_witness :
  exists r,
    outcome (check_derivative WiderStructure.pow (fun order => order)
               WiderStructure.fun_ WiderStructure.jac WiderStructure.x0
               WiderStructure.unbounded false None) = Ok r /\
    (r <? zero)%X = false.
Proof.
  pose (run := check_derivative WiderStructure.pow (fun order => order)
                 WiderStructure.fun_ WiderStructure.jac WiderStructure.x0
                 WiderStructure.unbounded false None []).
  pose (r := match snd run with Ok r => r | _ => NaN end).
  assert (Hrun : run = (fst run, Ok r)) by (vm_compute; reflexivity).
  exists r. split.
  - unfold outcome. fold run. rewrite Hrun. reflexivity.
  - exact (@check_derivative_not_negative WiderStructure.pow
             (fun order => order) WiderStructure.fun_ WiderStructure.jac
             WiderStructure.x0 WiderStructure.unbounded false None
             [] (fst run) r Hrun).
Defined.

Lemma error_zero_on_agreement (q : Qc) :
  relative_or_absolute_error (Fin q) (Fin q) = zero.
Proof.
  unfold relative_or_absolute_error. cbn [Xr.sub Xr.add Xr.opp Xr.abs].
  assert (E : Qcabs (q + - q)%Qc = 0%Qc).
  { rewrite Qcplus_opp_r. apply Qc_is_canon. reflexivity. }
  rewrite E. unfold Xr.gtb, one, of_Z.
  destruct (ltb_fin_cases (Q2Qc (inject_Z 1)) (Qcabs q)) as [[-> H]|[-> H]];
    [|reflexivity].
  rewrite this_Q2Qc in H. unfold inject_Z in H.
  rewrite div_fin_pos by lra. unfold zero. f_equal.
  unfold Qcdiv. apply Qcmult_0_l.
Qed.

Lemma np_max_zeros (l : vec) :
  l <> [] -> (forall v, In v l -> v = zero) -> Np.max l = Ok zero.
Proof.
  destruct l as [|x t]; [congruence|]. intros _ H. cbn [Np.max]. f_equal.
  rewrite (H x) by now left.
  assert (Ht : forall v, In v t -> v = zero) by (intros; apply H; now right).
  clear H. induction t as [|y t IH]; cbn [fold_left]; [reflexivity|].
  rewrite (Ht y) by now left.
  change (Xr.maximum zero zero) with zero.
  apply IH. intros v Hv. apply Ht. now right.
Qed.

(** On the dense comparison path an analytic Jacobian that agrees exactly
    with a finite estimate of the same (non-empty) shape is given the
    accuracy [0]. *)
Theorem check_derivative_dense_agreement_is_zero :
  forall (float_pow : xreal -> xreal -> xreal)
         (shuffle : list nat -> list nat) (fun_ : user_fun)
         (jac : array_like -> result analytic) (x0 : array_like)
         (bounds : array_like * array_like) (sparse_diff : bool)
         (sparsity : option (matrix_like * list nat))
         (tr tr' : list vec) (a : analytic) (Jd : jacobian),
    jac x0 = Ok a ->
    takes_sparse_path a sparse_diff = false ->
    approx_derivative float_pow fun_ x0 "3-point" None None bounds None tr
    = (tr', Ok Jd) ->
    n_rows (analytic_2d a) = n_rows (jacobian_2d Jd) ->
    n_cols (analytic_2d a) = n_cols (jacobian_2d Jd) ->
    (0 < n_rows (jacobian_2d Jd))%nat -> (0 < n_cols (jacobian_2d Jd))%nat ->
    (forall i j,
        (i < n_rows (jacobian_2d Jd))%nat ->
        (j < n_cols (jacobian_2d Jd))%nat ->
        is_finite (cell (jacobian_2d Jd) i j) = true /\
        cell (analytic_2d a) i j = cell (jacobian_2d Jd) i j) ->
    check_derivative float_pow shuffle fun_ jac x0 bounds sparse_diff
                     sparsity tr
    = (tr', Ok zero).
Proof.
  intros float_pow shuffle fun_ jac x0 bounds sparse_diff sparsity tr tr'
         a Jd Hjac Hpath Happrox Hr Hc Hm Hn Hagree.
  rewrite (@check_dense_run float_pow shuffle fun_ jac x0 bounds sparse_diff
             sparsity tr a tr' Jd Hjac Hpath Happrox Hr Hc).
  f_equal. apply np_max_zeros.
  - unfold positions.
    destruct (n_rows (jacobian_2d Jd)) as [|m']; [lia|].
    destruct (n_cols (jacobian_2d Jd)) as [|n']; [lia|].
    cbn. discriminate.
  - intros v Hv. apply in_map_iff in Hv as ([i j] & <- & Hin).
    apply in_positions in Hin as [Hi Hj]. cbn [fst snd].
    destruct (Hagree i j Hi Hj) as [Hfin ->].
    destruct (is_finite_inv _ Hfin) as [q ->].
    apply error_zero_on_agreement.
Qed.


Lemma check_derivative_dense_agreement_is_zero_witness :
  outcome (check_derivative WiderStructure.pow (fun order => order)
             ExactAgreement.fun_ ExactAgreement.jac ExactAgreement.x0
             ExactAgreement.unbounded false None)
  = Ok zero.
Proof.
  pose (run := approx_derivative WiderStructure.pow ExactAgreement.fun_
                 ExactAgreement.x0 "3-point" None None
                 ExactAgreement.unbounded None []).
  pose (Jd := match snd run with Ok J => J | _ => JVec [] end).
  assert (Hrun : run = (fst run, Ok Jd)) by (vm_compute; reflexivity).
  unfold outcome.
  rewrite (@check_derivative_dense_agreement_is_zero WiderStructure.pow
             (fun order => order) ExactAgreement.fun_ ExactAgreement.jac
             ExactAgreement.x0 ExactAgreement.unbounded false None
             [] (fst run) (ASparse ExactAgreement.J_analytic) Jd
             eq_refl eq_refl Hrun).
  - reflexivity.
  - vm_compute. reflexivity.
  - vm_compute. reflexivity.
  - vm_compute. lia.
  - vm_compute. lia.
  - intros [|i] [|j] Hi Hj; try (vm_compute in Hi, Hj; lia).
    split; [vm_compute; reflexivity | xr_compute].
Defined.

(* ================================================================== *)
(** * Rejected arguments *)
(* ================================================================== *)

Lemma take_columns_out_of_range {T} (A : matrix T) (order : list nat) c :
  In c order -> (n_cols A <= c)%nat -> take_columns A order = Raise IndexError.
Proof.
  intros Hin Hc. unfold take_columns.
  replace (forallb (fun c0 => (c0 <? n_cols A)%nat) order) with false;
    [reflexivity|].
  symmetry. apply not_true_is_false. intros H.
  rewrite forallb_forall in H. specialize (H c Hin).
  apply Nat.ltb_lt in H. lia.
Qed.

(** [group_columns] rejects an array of more than two dimensions with a
    [ValueError], whatever the order, and an explicit order that names a
    column beyond the last one with an [IndexError]. *)
Theorem group_columns_rejects :
  forall (shuffle : list nat -> list nat),
    (forall k order,
        group_columns shuffle (HigherM k) order
        = Raise (ValueError "`A` must be 2-dimensional.")) /\
    (forall A order c,
        is_2d A = true -> In c order -> (pattern_cols A <= c)%nat ->
        group_columns shuffle A (Some order) = Raise IndexError).
Proof.
  intros shuffle. split; [reflexivity|].
  intros [A | A | k] order c H2d Hin Hc; [| |discriminate];
    cbn [pattern_cols] in Hc; unfold group_columns;
    rewrite (@take_columns_out_of_range _ _ order c Hin);
    try reflexivity; exact Hc.
Qed.

Lemma group_columns_rejects_witness :
  group_columns (fun order => order)
    (DenseM (of_rows zero 1 2 [[one; one]])) (Some [0; 2]%nat)
  = Raise IndexError.
Proof.
  apply (proj2 (@group_columns_rejects (fun order => order))
           (DenseM (of_rows zero 1 2 [[one; one]])) [0; 2]%nat 2%nat).
  - reflexivity.
  - right. now left.
  - cbn. lia.
Defined.

(** [approx_derivative] rejects values of more than one dimension: a
    supplied [f0] with a [ValueError] before the function is called, and
    what the function returns at [x0] with a [RuntimeError] after that
    one call (method, point and bound shapes being accepted). *)
Theorem approx_derivative_rejects_higher_dimension :
  forall (float_pow : xreal -> xreal -> xreal) (fun_ : user_fun)
         (x : vec) (method : string) (rel_step : option vec)
         (bounds : array_like * array_like)
         (sparsity : option (matrix_like * list nat))
         (lb ub : vec) (tr : list vec) (k : nat),
    method = "2-point" \/ method = "3-point" ->
    with_shape_of x (fst (_prepare_bounds bounds x)) = Some lb ->
    with_shape_of x (snd (_prepare_bounds bounds x)) = Some ub ->
    approx_derivative float_pow fun_ (Arr1 x) method rel_step
                      (Some (ArrND k)) bounds sparsity tr
    = (tr, Raise (ValueError "`f0` passed has more than 1 dimension.")) /\
    (fun_ x = Ok (ArrND k) ->
     approx_derivative float_pow fun_ (Arr1 x) method rel_step None bounds
                       sparsity tr
     = (tr ++ [x],
        Raise (RuntimeError "`fun` return value has more than 1 dimension."))).
Proof.
  intros float_pow fun_ x method rel_step bounds sparsity lb ub tr k
         Hm Hlb Hub.
  unfold approx_derivative. rewrite (method_recognised Hm).
  cbn [negb as_1d atleast_1d].
  destruct (_prepare_bounds bounds x) as [lb0 ub0]. cbn [fst snd] in Hlb, Hub.
  rewrite Hlb, Hub. split; [reflexivity|].
  intros Hfun. unfold mbind, fun_wrapped, call, mbind. rewrite Hfun.
  reflexivity.
Qed.

Lemma approx_derivative_rejects_higher_dimension_witness :
  approx_derivative (fun _ _ => half) (fun _ => Ok (ArrND 0)) (Arr1 [one])
                    "2-point" None None (Scalar zero, Scalar two) None []
  = ([[one]],
     Raise (RuntimeError "`fun` return value has more than 1 dimension.")).
Proof.
  apply (proj2 (@approx_derivative_rejects_higher_dimension
                  (fun _ _ => half) (fun _ => Ok (ArrND 0)) [one] "2-point"
                  None (Scalar zero, Scalar two) None [zero] [two] [] 0%nat
                  (or_introl eq_refl) eq_refl eq_refl)).
  reflexivity.
Defined.

(* ================================================================== *)
(** * approx_derivative with a sparsity structure *)
(* ================================================================== *)

(** The run of the sparse differencer: the points of each group in the
    order of the group ids, and a sparse matrix of the shape of the
    structure. *)
Lemma sparse_difference_points (f : vec -> vec) (m n : nat) (x0 f0 h : vec)
      (o : mask) (structure : matrix xreal) (groups : list nat)
      (method : string) tr :
  method = "2-point" \/ method = "3-point" ->
  length f0 = m -> (forall x, length (f x) = m) ->
  length x0 = n -> length h = n -> length o = n -> length groups = n ->
  n_rows structure = m -> n_cols structure = n ->
  (0 < n)%nat ->
  exists J,
    _sparse_difference (fun_wrapped (pure_fun f)) x0 f0 h o structure
                       groups method tr
    = (tr ++ flat_map (points_of_group method x0 h o groups)
                      (seq 0 (n_groups groups)),
       Ok (JSparse J)) /\
    n_rows J = m /\ n_cols J = n.
Proof.
  intros Hm Hf0 Hf Hx Hh Ho Hg Hsr Hsc Hn.
  unfold _sparse_difference.
  destruct (@max_int_ok groups) as (mx & Hmax & HG).
  { intros E. rewrite E in Hg. cbn in Hg. lia. }
  rewrite Hmax, mbind_lift_ok. cbv zeta.
  destruct (@sparse_loop_returns f m n x0 f0 h o structure groups method
              Hm Hf0 Hf Hx Hh Ho Hg Hsr Hsc (seq 0 (mx + 1))
              (Matrix (length f0) (length x0) (fun _ _ => None)) tr)
    as (J & Heq & Hr & Hc & _); [exact Hf0 | exact Hx |].
  rewrite (@mbind_ok _ _ _ _ _ _ _ Heq). unfold ret.
  exists J. rewrite HG. replace (S mx) with (mx + 1)%nat by lia.
  repeat split; assumption.
Qed.

Section SparsePath.

Variable float_pow : xreal -> xreal -> xreal.
Variables (f : vec -> vec) (m : nat) (x : vec) (method : string).
Variables (rel_step : option vec) (f0 : option array_like).
Variables (bounds : array_like * array_like) (lb ub : vec).
Variables (structure : matrix_like) (groups : list nat).

Hypothesis Hmethod : method = "2-point" \/ method = "3-point".
Hypothesis Hf : forall v, length (f v) = m.
Hypothesis Hf0 :
  forall a, f0 = Some a -> exists v, as_1d a = Some v /\ length v = m.
Hypothesis Hlb : with_shape_of x (fst (_prepare_bounds bounds x)) = Some lb.
Hypothesis Hub : with_shape_of x (snd (_prepare_bounds bounds x)) = Some ub.
Hypothesis Hfin : all_finite x.
Hypothesis Hbox : in_box lb ub x.
Hypothesis Hnone :
  rel_step = None ->
  is_finite (float_pow EPS (if method =? "2-point" then half
                            else (one / three)%X)) = true.
Hypothesis Hsome :
  forall r, rel_step = Some r -> all_finite r /\ length r = length x.
Hypothesis H2d : is_2d structure = true.
Hypothesis Hrows : pattern_rows structure = m.
Hypothesis Hcols : pattern_cols structure = length x.
Hypothesis Hgroups : length groups = length x.
Hypothesis Hn : (0 < length x)%nat.

(** The run of [approx_derivative] with a sparsity structure: the
    function is evaluated at [x0] when [f0] is not supplied, then at the
    points of each group for the adjusted step, and a sparse matrix is
    returned. *)
Lemma approx_derivative_sparse_run tr :
  exists h' o' J,
    length h' = length x /\
    n_rows J = m /\ n_cols J = length x /\
    approx_derivative float_pow (pure_fun f) (Arr1 x) method rel_step f0
                      bounds (Some (structure, groups)) tr
    = (tr ++ match f0 with None => [x] | Some _ => [] end
          ++ flat_map (points_of_group method x h' o' groups)
                      (seq 0 (n_groups groups)),
       Ok (JSparse J)).
Proof.
  destruct (@absolute_step_finite float_pow rel_step x method
              Hmethod Hfin Hnone Hsome) as (h & Hh & Hfh & Hlh).
  pose proof (@with_shape_of_length x _ _ Hlb) as Hllb.
  pose proof (@with_shape_of_length x _ _ Hub) as Hlub.
  destruct (@adjusted_entries method x h lb ub Hmethod Hfin Hfh Hlh
              Hllb Hlub)
    as (h' & o' & Hadj & Hlh' & Hlo' & _).
  exists h', o'.
  assert (Hscheme :
            (if method =? "2-point"
             then _adjust_scheme_to_bounds x h 1 "1-sided" lb ub
             else _adjust_scheme_to_bounds x h 1 "2-sided" lb ub)
            = Ok (h', o')).
  { rewrite <- Hadj. unfold scheme_of.
    destruct (method =? "2-point"); reflexivity. }
  assert (Hgrid : exists A : matrix xreal,
             n_rows A = m /\ n_cols A = length x /\
             forall (f0v : vec),
               match structure with
               | SparseM Sp =>
                   _sparse_difference (fun_wrapped (pure_fun f)) x f0v h' o'
                                      (values_of Sp) groups method
               | DenseM D =>
                   _sparse_difference (fun_wrapped (pure_fun f)) x f0v h' o'
                                      D groups method
               | HigherM _ => raise Unmodelled
               end
               = _sparse_difference (fun_wrapped (pure_fun f)) x f0v h' o'
                                    A groups method).
  { destruct structure as [D | Sp | k]; [| |discriminate].
    - exists D. repeat split; assumption.
    - exists (values_of Sp). repeat split; assumption. }
  destruct Hgrid as (A & HAr & HAc & Hgrid).
  assert (Hrun : exists J,
             n_rows J = m /\ n_cols J = length x /\
             approx_derivative float_pow (pure_fun f) (Arr1 x) method
                               rel_step f0 bounds (Some (structure, groups)) tr
             = (tr ++ match f0 with None => [x] | Some _ => [] end
                   ++ flat_map (points_of_group method x h' o' groups)
                               (seq 0 (n_groups groups)),
                Ok (JSparse J))).
  { unfold approx_derivative. rewrite (method_recognised Hmethod).
    cbn [negb as_1d atleast_1d].
    destruct (_prepare_bounds bounds x) as [lb0 ub0].
    cbn [fst snd] in Hlb, Hub. rewrite Hlb, Hub.
    destruct f0 as [a|].
    - destruct (Hf0 eq_refl) as (v & Hv & Hlv). rewrite Hv.
      unfold mbind at 1. unfold ret at 1.
      rewrite (in_box_no_violation Hbox).
      rewrite Hh, mbind_lift_ok, Hlh, Nat.eqb_refl. cbn [negb].
      rewrite Hscheme, mbind_lift_ok. rewrite Hgrid.
      destruct (@sparse_difference_points f m (length x) x v h' o' A groups
                  method tr Hmethod Hlv Hf eq_refl Hlh' Hlo' Hgroups
                  HAr HAc Hn) as (J & -> & Hr & Hc).
      exists J. split; [exact Hr|]. split; [exact Hc|]. reflexivity.
    - unfold mbind at 1. rewrite fun_wrapped_pure.
      rewrite (in_box_no_violation Hbox).
      rewrite Hh, mbind_lift_ok, Hlh, Nat.eqb_refl. cbn [negb].
      rewrite Hscheme, mbind_lift_ok. rewrite Hgrid.
      destruct (@sparse_difference_points f m (length x) x (f x) h' o' A
                  groups method (tr ++ [x]) Hmethod (Hf x) Hf eq_refl Hlh'
                  Hlo' Hgroups HAr HAc Hn) as (J & -> & Hr & Hc).
      exists J. split; [exact Hr|]. split; [exact Hc|].
      now rewrite <- app_assoc. }
  destruct Hrun as (J & Hr & Hc & Hrun). exists J.
  split; [exact Hlh'|]. split; [exact Hr|]. split; [exact Hc|]. exact Hrun.
Qed.

End SparsePath.

(** With a sparsity structure [approx_derivative] pays per group, not
    per variable: for a finite point inside the bounds, a finite relative
    step, a function returning arrays of one length [m], a
    two-dimensional structure of shape [(m, n)] and a group id for each
    of the [n >= 1] variables, it returns a sparse [(m, n)] matrix, and
    the number of calls is one for [f0], when it was not supplied, plus
    one (2-point) or two (3-point) for each group. *)
Theorem approx_derivative_sparse_cost :
  forall (float_pow : xreal -> xreal -> xreal) (f : vec -> vec) (m : nat)
         (x : vec) (method : string) (rel_step : option vec)
         (f0 : option array_like) (bounds : array_like * array_like)
         (lb ub : vec) (structure : matrix_like) (groups : list nat),
    method = "2-point" \/ method = "3-point" ->
    (forall v, length (f v) = m) ->
    (forall a, f0 = Some a -> exists v, as_1d a = Some v /\ length v = m) ->
    with_shape_of x (fst (_prepare_bounds bounds x)) = Some lb ->
    with_shape_of x (snd (_prepare_bounds bounds x)) = Some ub ->
    all_finite x -> in_box lb ub x ->
    (rel_step = None ->
     is_finite (float_pow EPS (if (method =? "2-point")%string then half
                               else (one / three)%X)) = true) ->
    (forall r, rel_step = Some r -> all_finite r /\ length r = length x) ->
    is_2d structure = true ->
    pattern_rows structure = m -> pattern_cols structure = length x ->
    length groups = length x -> (0 < length x)%nat ->
    let run :=
      approx_derivative float_pow (pure_fun f) (Arr1 x) method rel_step f0
                        bounds (Some (structure, groups)) in
    (exists J, outcome run = Ok (JSparse J) /\
               n_rows J = m /\ n_cols J = length x) /\
    length (calls run)
    = ((match f0 with None => 1 | Some _ => 0 end)
       + (if (method =? "2-point")%string then 1 else 2)
         * n_groups groups)%nat /\
    (f0 = None -> nth_error (calls run) 0 = Some x).
Proof.
  intros float_pow f m x method rel_step f0 bounds lb ub structure groups
         Hm Hf Hf0 Hlb Hub Hfin Hbox Hnone Hsome H2d Hrows Hcols Hg Hn run.
  destruct (@approx_derivative_sparse_run float_pow f m x method rel_step f0
              bounds lb ub structure groups Hm Hf Hf0 Hlb Hub Hfin Hbox
              Hnone Hsome H2d Hrows Hcols Hg Hn [])
    as (h' & o' & J & Hlh' & Hr & Hc & Hrun).
  subst run. unfold outcome, calls. rewrite Hrun. cbn [fst snd app].
  split; [|split].
  - exists J. repeat split; assumption.
  - rewrite length_app, length_points_of_groups by exact Hm.
    rewrite length_seq. destruct f0; reflexivity.
  - intros ->. reflexivity.
Qed.

Lemma approx_derivative_sparse_cost_witness :
  let run :=
    approx_derivative (fun _ _ => half)
      (pure_fun (fun v => [nth 0 v NaN; nth 1 v NaN])) (Arr1 [one; zero])
      "3-point" None None
      (Scalar NInf, Arr1 [one; one])
      (Some (DenseM (Matrix 2 2 (fun r c => if (r =? c)%nat then one
                                            else zero)),
             [0; 0]%nat)) in
  length (calls run) = 3%nat.
Proof.
  refine (proj1 (proj2 (@approx_derivative_sparse_cost
           (fun _ _ => half)
           (fun v => [nth 0 v NaN; nth 1 v NaN]) 2 [one; zero] "3-point"
           None None
           (Scalar NInf, Arr1 [one; one]) [NInf; NInf] [one; one]
           (DenseM (Matrix 2 2 (fun r c => if (r =? c)%nat then one
                                           else zero)))
           [0; 0]%nat
           _ _ _ _ _ _ _ _ _ _ _ _ _ _))).
  - right; reflexivity.
  - reflexivity.
  - discriminate.
  - reflexivity.
  - reflexivity.
  - repeat constructor.
  - split; [reflexivity|].
    intros [|[|i]] l u pi Hl Hu Hp; cbn in Hl, Hu, Hp;
      [ | | destruct i; discriminate ];
      injection Hl as <-; injection Hu as <-; injection Hp as <-;
      split; reflexivity.
  - intros _. reflexivity.
  - discriminate.
  - reflexivity.
  - reflexivity.
  - reflexivity.
  - reflexivity.
  - cbn. lia.
Defined.

(* ================================================================== *)
(** * The step planner in binary64: a clamped step can leave the bounds *)
(* ================================================================== *)

(** C1, a defect of the code.  In binary64 the planner does not keep the
    evaluation points inside the bounds.  Take one variable with
    [x0 = lb = -2^-83] and [ub = (1 + 2^-52) * 2^-30], and the 2-point
    method with its default relative step [EPS ** 0.5 = 2^-26]: [x0]
    lies inside the bounds and the absolute step is [h = -2^-26].  The
    step [x0 + h] is below [lb] and [|h|] exceeds both distances, so the
    planner clamps the step to [upper_dist = ub - x0], which rounds to
    [(1 + 2^-51) * 2^-30]; the 2-point scheme then evaluates the function
    at [x0 + h], which rounds to [(1 + 2^-51) * 2^-30] again, one unit
    in the last place above [ub]. *)
Theorem binary64_clamped_step_leaves_bounds :
  let x0 := [(-0x1p-83)%float] in
  let lb := [(-0x1p-83)%float] in
  let ub := [0x1.0000000000001p-30%float] in
  let h := Binary64._compute_absolute_step 0x1p-26%float x0 in
  Binary64.in_box lb ub x0 = true /\
  h = [(-0x1p-26)%float] /\
  Binary64._adjust_scheme_to_bounds x0 h 1 "1-sided" lb ub
  = Ok ([0x1.0000000000002p-30%float], [true]) /\
  Binary64.evaluation_points "2-point" x0 [0x1.0000000000002p-30%float] [true]
  = [[0x1.0000000000002p-30%float]] /\
  Binary64.in_box lb ub [0x1.0000000000002p-30%float] = false /\
  PrimFloat.ltb 0x1.0000000000001p-30%float 0x1.0000000000002p-30%float
  = true.
Proof.
  cbv zeta. repeat split; vm_compute; reflexivity.
Qed.
